(** * Hacxgent: a shallow embedding of the backend adapter, the configuration
    validators, the built-in tools and the session pre-seeding, and of the
    slash commands, the start-up and set-up flow, the stored settings and the
    banner.

    Python values are modelled as follows.
    - [str] is [string]; a character stands for the code point of the same
      number (0..255), so [lower], [strip] and the regular-expression class
      of [normalize_name] are the Python ones on that range.
    - [int] is [Z]; a finite [float] is the rational number [Q] it stands
      for, and the operations on floats round as binary64 arithmetic does.
    - a [dict] is a [gmap], a [set] a [gset], a [list] a [list]; a dict whose
      order matters is the list of its items.
    - a call that may raise returns a [result]; [Raise e] carries the
      exception object.
    - code that changes files is followed by the operations it attempts, in
      order; what a probe of the file tree answers may depend on them. *)

From Stdlib Require Import ZArith QArith Qround Qabs Qpower Qreduction Lqa Lia Bool.
From Stdlib Require Import Floats.
From Stdlib Require Import Ascii String.
From stdpp Require Import base option list gmap strings.

Local Open Scope Z_scope.
Local Open Scope string_scope.
Local Open Scope list_scope.

(** ** Exceptions and fallible computations *)

(** Modelled from the spec: [ToolError] is declared in
    [hacxgent.core.tools.base] and [APIError] in the API package, neither of
    which is among the sources; section 6 has a tool run end in a result or
    an error, and both are taken to be ordinary exception classes, as the
    [except Exception] handlers around them assume. The other classes are
    Python's and pydantic's. *)
Inductive exc_class :=
| ToolError | ValueError | RuntimeError | KeyError | IndexError
| OSError | MissingAPIKeyError | MissingPromptFileError | APIError
| ValidationError | FileNotFoundError | PermissionError | ImportError.

Record exn := Exn { exn_class : exc_class; exn_msg : string }.

Inductive result (A : Type) :=
| Ok (a : A)
| Raise (e : exn).
Arguments Ok {A} a.
Arguments Raise {A} e.

Definition bind {A B} (r : result A) (k : A -> result B) : result B :=
  match r with
  | Ok a => k a
  | Raise e => Raise e
  end.

Notation "'let!' x ':=' r 'in' k" := (bind r (fun x => k))
  (at level 10, x name, r at level 100, k at level 200).

Definition is_ok {A} (r : result A) : bool :=
  match r with Ok _ => true | Raise _ => false end.

Global Instance exc_class_eq_dec : EqDecision exc_class.
Proof. solve_decision. Defined.

Global Instance exn_eq_dec : EqDecision exn.
Proof. solve_decision. Defined.

(** ** Conversation types ([hacxgent.core.types]) *)

Module Types.

(** Modelled from the spec: [hacxgent.core.types] is not among the sources;
    section 3 gives role in {system, user, assistant, tool}, and the fields
    below are the ones the backend adapter reads and writes. *)
Inductive Role := system | user | assistant | tool.

Global Instance Role_eq_dec : EqDecision Role.
Proof. solve_decision. Defined.

(** [Role.value] *)
Definition Role_value (r : Role) : string :=
  match r with
  | system => "system"
  | user => "user"
  | assistant => "assistant"
  | tool => "tool"
  end.

(** [Role(s)]: the enum lookup by value, a [ValueError] for any other string *)
Definition Role_of_string (s : string) : result Role :=
  if decide (s = "system") then Ok system
  else if decide (s = "user") then Ok user
  else if decide (s = "assistant") then Ok assistant
  else if decide (s = "tool") then Ok tool
  else Raise (Exn ValueError (s +:+ " is not a valid Role")).

Record FunctionCall := mkFunctionCall {
  fc_name : option string;
  fc_arguments : option string }.

Record ToolCall := mkToolCall {
  tc_id : option string;
  tc_index : option Z;
  tc_function : FunctionCall }.

Record LLMMessage := mkLLMMessage {
  role : Role;
  content : option string;
  reasoning_content : option string;
  tool_calls : option (list ToolCall);
  tool_call_id : option string;
  name : option string }.

Record LLMUsage := mkLLMUsage {
  prompt_tokens : Z;
  completion_tokens : Z }.

Record LLMChunk := mkLLMChunk {
  message : LLMMessage;
  usage : option LLMUsage }.

Global Instance FunctionCall_eq_dec : EqDecision FunctionCall.
Proof. solve_decision. Defined.
Global Instance ToolCall_eq_dec : EqDecision ToolCall.
Proof. solve_decision. Defined.
Global Instance LLMMessage_eq_dec : EqDecision LLMMessage.
Proof. solve_decision. Defined.

End Types.
Import Types.

(** ** Session pre-seeding ([hacxgent/cli/cli.py]) *)

Module Cli.

(** The part of [AgentLoop] that [_load_messages_from_previous_session]
    touches: its mutable [messages] list. *)
Record AgentLoop := mkAgentLoop { messages : list LLMMessage }.

(** [[msg for msg in loaded_messages if msg.role != Role.system]] *)
Definition non_system_messages (loaded_messages : list LLMMessage) : list LLMMessage :=
  List.filter (fun msg => negb (bool_decide (role msg = system))) loaded_messages.

(** [agent_loop.messages.extend(non_system_messages)]; the second component
    is the number handed to [logger.info]. *)
Definition _load_messages_from_previous_session
    (agent_loop : AgentLoop) (loaded_messages : list LLMMessage) : AgentLoop * nat :=
  let kept := non_system_messages loaded_messages in
  (mkAgentLoop (messages agent_loop ++ kept), length kept).

End Cli.

(** ** Python string methods used by the sources *)

Module PyStr.

Definition code (c : ascii) : N := N_of_ascii c.

Definition in_range (lo hi : N) (c : ascii) : bool :=
  ((lo <=? code c) && (code c <=? hi))%N.

(** [str.isspace] on one character *)
Definition isspace (c : ascii) : bool :=
  in_range 9 13 c || in_range 28 32 c || (code c =? 133)%N || (code c =? 160)%N.

(** [str.lower] on one character: A-Z and the accented capitals 0xC0..0xDE
    (0xD7, the multiplication sign, is not a letter) move up by 32. *)
Definition lower_char (c : ascii) : ascii :=
  if in_range 65 90 c || (in_range 192 222 c && negb (code c =? 215)%N)
  then ascii_of_N (code c + 32)
  else c.

Fixpoint lower (s : string) : string :=
  match s with
  | "" => ""
  | String c r => String (lower_char c) (lower r)
  end.

Fixpoint lstrip_by (p : ascii -> bool) (s : string) : string :=
  match s with
  | "" => ""
  | String c r => if p c then lstrip_by p r else s
  end.

Fixpoint rstrip_by (p : ascii -> bool) (s : string) : string :=
  match s with
  | "" => ""
  | String c r =>
      match rstrip_by p r with
      | "" => if p c then "" else String c ""
      | r' => String c r'
      end
  end.

(** [s.strip(chars)], with [chars] given as a predicate *)
Definition strip_by (p : ascii -> bool) (s : string) : string :=
  rstrip_by p (lstrip_by p s).

(** [s.strip()] *)
Definition strip (s : string) : string := strip_by isspace s.

(** [s[:n]] for [n >= 0] *)
Fixpoint prefix (n : nat) (s : string) : string :=
  match n, s with
  | S n', String c r => String c (prefix n' r)
  | _, _ => ""
  end.

(** truth value of a string: non-empty *)
Definition truthy (s : string) : bool := negb (bool_decide (s = "")).

(** [a or b] on strings *)
Definition or_else (a b : string) : string := if truthy a then a else b.

(** [s.endswith(t)] for a one-character [t] *)
Fixpoint ends_with_char (c : ascii) (s : string) : bool :=
  match s with
  | "" => false
  | String d "" => bool_decide (d = c)
  | String _ r => ends_with_char c r
  end.

(** [s.startswith(p)] *)
Fixpoint starts_with (p s : string) : bool :=
  match p with
  | "" => true
  | String a p' =>
      match s with
      | "" => false
      | String b s' => Ascii.eqb a b && starts_with p' s'
      end
  end.

(** [n * c]: a character repeated *)
Fixpoint repeat_char (n : nat) (c : ascii) : string :=
  match n with
  | O => ""
  | S n' => String c (repeat_char n' c)
  end.

Definition first_char (s : string) : option ascii :=
  match s with "" => None | String c _ => Some c end.

Fixpoint last_char (s : string) : option ascii :=
  match s with
  | "" => None
  | String c "" => Some c
  | String _ r => last_char r
  end.

Fixpoint chars (s : string) : list ascii :=
  match s with
  | "" => []
  | String c r => c :: chars r
  end.

End PyStr.

(** ** JSON-like values: what a configuration file or a request body holds *)

#[local] Set Warnings "-register-all".
Inductive jval :=
| JNull
| JBool (b : bool)
| JInt (z : Z)
| JStr (s : string)
| JList (l : list jval)
| JDict (d : list (string * jval)).

(** ** Configuration ([hacxgent/core/config.py]) *)

Module Config.

Record ProviderConfig := mkProviderConfig {
  pc_name : string;
  pc_api_base : string;
  pc_api_key_env_var : string }.

(** [ModelConfig]; the float fields [temperature], [input_price] and
    [output_price] take no part in the functions below and are left out. *)
Record ModelConfig := mkModelConfig {
  mc_name : string;
  mc_provider : string;
  mc_alias : string;
  mc_rate_limit_rpm : Z;
  mc_max_context_tokens : Z }.

Global Instance ModelConfig_eq_dec : EqDecision ModelConfig.
Proof. solve_decision. Defined.

(** The fields of [HacxgentConfig] read by its model validators. *)
Record HacxgentConfig := mkHacxgentConfig {
  active_model : string;
  system_prompt_id : string;
  providers : list ProviderConfig;
  models : list ModelConfig }.

(** What the validators read from outside the settings object. *)
Record Env := mkEnv {
  environ : gmap string string;
  (** [SystemPrompt[id.upper()].read()], [None] for a [KeyError] *)
  builtin_prompt : string -> option string;
  (** the text of [<dir>/<id>.md] in the first prompt directory that has it *)
  prompt_file : string -> option string }.

(** [os.getenv(key)] *)
Definition getenv (env : Env) (key : string) : option string := environ env !! key.

(** *** [ModelConfig._default_alias_to_name] and field validation *)

Definition _default_alias_to_name (data : gmap string jval) : gmap string jval :=
  match data !! "alias" with
  | None | Some JNull => <["alias" := default JNull (data !! "name")]> data
  | Some _ => data
  end.

Definition validation_error (field why : string) : exn :=
  Exn ValidationError (field +:+ ": " +:+ why).

(** A required [str] field: pydantic takes a string and nothing else. *)
Definition str_field (data : gmap string jval) (key : string) : result string :=
  match data !! key with
  | Some (JStr s) => Ok s
  | Some _ => Raise (validation_error key "Input should be a valid string")
  | None => Raise (validation_error key "Field required")
  end.

(** An [int] field with a default. Only a JSON integer is taken here;
    pydantic's lax conversions from other types are not modelled. *)
Definition int_field (data : gmap string jval) (key : string) (dflt : Z) : result Z :=
  match data !! key with
  | Some (JInt z) => Ok z
  | Some _ => Raise (validation_error key "Input should be a valid integer")
  | None => Ok dflt
  end.

(** Building a [ModelConfig] from a raw dict: the before-validator, then the fields in their
    declared order (the first failing field is reported). *)
Definition ModelConfig_validate (data : gmap string jval) : result ModelConfig :=
  let data := _default_alias_to_name data in
  let! name := str_field data "name" in
  let! provider := str_field data "provider" in
  let! alias := str_field data "alias" in
  let! rpm := int_field data "rate_limit_rpm" 0 in
  let! ctx := int_field data "max_context_tokens" 0 in
  Ok (mkModelConfig name provider alias rpm ctx).

Fixpoint validate_models (raw : list (gmap string jval)) : result (list ModelConfig) :=
  match raw with
  | [] => Ok []
  | data :: rest =>
      let! m := ModelConfig_validate data in
      let! ms := validate_models rest in
      Ok (m :: ms)
  end.

(** *** [HacxgentConfig.get_active_model] *)

Definition get_active_model (self : HacxgentConfig) : result ModelConfig :=
  match (if PyStr.truthy (active_model self) then None else head (models self)) with
  | Some first => Ok first
  | None =>
      match List.find (fun model => bool_decide (mc_alias model = active_model self))
                      (models self) with
      | Some model => Ok model
      | None =>
          match models self with
          | [] => Raise (Exn ValueError "No models configured.")
          | _ => Raise (Exn ValueError
                   ("Active model '" +:+ active_model self
                    +:+ "' not found in configuration."))
          end
      end
  end.

Definition get_provider_for_model (self : HacxgentConfig) (model : ModelConfig)
  : result ProviderConfig :=
  match List.find (fun provider => bool_decide (pc_name provider = mc_provider model))
                  (providers self) with
  | Some provider => Ok provider
  | None => Raise (Exn ValueError
              ("Provider '" +:+ mc_provider model +:+ "' for model '"
               +:+ mc_name model +:+ "' not found in configuration."))
  end.

(** *** The [mode="after"] model validators, in the order they are declared *)

Definition _check_api_key (env : Env) (self : HacxgentConfig) : result HacxgentConfig :=
  let! active := get_active_model self in
  let! provider := get_provider_for_model self active in
  let api_key_env := pc_api_key_env_var provider in
  if PyStr.truthy api_key_env
     && negb (PyStr.truthy (default "" (getenv env api_key_env)))
  then Raise (Exn MissingAPIKeyError
         ("Missing " +:+ api_key_env +:+ " environment variable for "
          +:+ pc_name provider +:+ " provider"))
  else Ok self.

Definition duplicate_alias_error (alias : string) : exn :=
  Exn ValueError
    ("Duplicate model alias found: '" +:+ alias +:+ "'. Aliases must be unique.").

(** the loop of [_validate_model_uniqueness] over the models still to visit *)
Fixpoint uniqueness_loop (seen_aliases : gset string) (todo : list ModelConfig)
  : result unit :=
  match todo with
  | [] => Ok tt
  | model :: rest =>
      if decide (mc_alias model ∈ seen_aliases)
      then Raise (duplicate_alias_error (mc_alias model))
      else uniqueness_loop ({[mc_alias model]} ∪ seen_aliases) rest
  end.

Definition _validate_model_uniqueness (self : HacxgentConfig) : result HacxgentConfig :=
  let! _ := uniqueness_loop ∅ (models self) in
  Ok self.

(** the [system_prompt] property *)
Definition system_prompt (env : Env) (self : HacxgentConfig) : result string :=
  match builtin_prompt env (system_prompt_id self) with
  | Some text => Ok text
  | None =>
      match prompt_file env (system_prompt_id self) with
      | Some text => Ok text
      | None => Raise (Exn MissingPromptFileError
                  ("Invalid system_prompt_id value: '" +:+ system_prompt_id self +:+ "'."))
      end
  end.

Definition _check_system_prompt (env : Env) (self : HacxgentConfig) : result HacxgentConfig :=
  let! _ := system_prompt env self in
  Ok self.

(** pydantic reports a [ValueError] raised by a validator as a
    [ValidationError] carrying its message; other exceptions pass through. *)
Definition as_validation_error {A} (r : result A) : result A :=
  match r with
  | Raise (Exn ValueError msg) => Raise (Exn ValidationError msg)
  | _ => r
  end.

(** The raw settings as the sources hand them to [HacxgentConfig(...)]. *)
Record RawConfig := mkRawConfig {
  raw_active_model : string;
  raw_system_prompt_id : string;
  raw_providers : list ProviderConfig;
  raw_models : list (gmap string jval) }.

(** [HacxgentConfig.load]: field validation, then the after-validators. *)
Definition load (env : Env) (raw : RawConfig) : result HacxgentConfig :=
  let! ms := validate_models (raw_models raw) in
  let self := mkHacxgentConfig (raw_active_model raw) (raw_system_prompt_id raw)
                               (raw_providers raw) ms in
  let! self := as_validation_error (_check_api_key env self) in
  let! self := as_validation_error (_validate_model_uniqueness self) in
  let! self := as_validation_error (_check_system_prompt env self) in
  Ok self.

(** *** Sample data and notions used by the properties *)

(** The raw settings of the test suite's base configuration, with the
    alias of the single model left out. *)
Definition sample_env : Env :=
  mkEnv {[ "MISTRAL_API_KEY" := "mock" ]}
        (fun id => if decide (id = "cli") then Some "You are Hacxgent." else None)
        (fun _ => None).

Definition sample_raw : RawConfig :=
  mkRawConfig "hacxgent-cli-latest" "cli"
    [mkProviderConfig "hacxgent" "https://api.hacxgent.ai/v1" "MISTRAL_API_KEY"]
    [ {[ "name" := JStr "hacxgent-cli-latest"; "provider" := JStr "hacxgent" ]} ].

End Config.

(** ** Remote tool-server configuration ([_MCPBase], [_MCPHttpFields]) *)

Module MCP.

(** a character of the class [[a-zA-Z0-9_-]] *)
Definition is_name_char (c : ascii) : bool :=
  PyStr.in_range 97 122 c || PyStr.in_range 65 90 c || PyStr.in_range 48 57 c
  || (PyStr.code c =? 95)%N || (PyStr.code c =? 45)%N.

(** a character of the strip set ["_-"] *)
Definition is_separator (c : ascii) : bool :=
  (PyStr.code c =? 95)%N || (PyStr.code c =? 45)%N.

(** [re.sub(r"[^a-zA-Z0-9_-]", "_", v)] *)
Fixpoint re_sub_name (v : string) : string :=
  match v with
  | "" => ""
  | String c r => String (if is_name_char c then c else "_"%char) (re_sub_name r)
  end.

(** [_MCPBase.normalize_name] *)
Definition normalize_name (v : string) : string :=
  let normalized := re_sub_name v in
  let normalized := PyStr.strip_by is_separator normalized in
  PyStr.prefix 256 normalized.

Record MCPBase := mkMCPBase {
  name : string;
  prompt : option string;
  startup_timeout_sec : Q;
  tool_timeout_sec : Q }.

(** Field validation of [_MCPBase]: both timeouts are declared [gt=0]; the
    name goes through its after-validator. *)
Definition MCPBase_validate (raw : MCPBase) : result MCPBase :=
  if Qlt_le_dec 0 (startup_timeout_sec raw) then
    if Qlt_le_dec 0 (tool_timeout_sec raw) then
      Ok (mkMCPBase (normalize_name (name raw)) (prompt raw)
                    (startup_timeout_sec raw) (tool_timeout_sec raw))
    else Raise (Exn ValidationError "tool_timeout_sec: Input should be greater than 0")
  else Raise (Exn ValidationError "startup_timeout_sec: Input should be greater than 0").

Record _MCPHttpFields := mkMCPHttpFields {
  url : string;
  headers : gmap string string;
  api_key_env : string;
  api_key_header : string;
  api_key_format : string }.

(** *** [fmt.format(token=token)]

    The scan follows CPython's: literal text with the escapes [{{] and [}}],
    and replacement fields. A field that is a bare name is looked up among
    the arguments, of which [token] is the only one. What a field with an
    attribute or index access, a conversion or a format spec produces,
    together with the text after it, is the parameter [render_field]. *)

Section Format.

Variable render_field : string -> string -> result string.

Definition prepend (s : string) (r : result string) : result string :=
  let! t := r in Ok (s +:+ t).

Definition is_digit (c : ascii) : bool := PyStr.in_range 48 57 c.

Definition lookup_error (arg_name : string) : exn :=
  if forallb is_digit (PyStr.chars arg_name)
  then Exn IndexError "Replacement index out of range for positional args tuple"
  else Exn KeyError arg_name.

(** [field] is [None] in literal text, and the name read so far inside a
    replacement field. *)
Fixpoint format_scan (token : string) (s : string) (field : option string)
  : result string :=
  match field, s with
  | None, "" => Ok ""
  | None, String c rest =>
      if Ascii.eqb c "{" then
        match rest with
        | "" => Raise (Exn ValueError "Single '{' encountered in format string")
        | String d rest' =>
            if Ascii.eqb d "{" then prepend "{" (format_scan token rest' None)
            else format_scan token rest (Some "")
        end
      else if Ascii.eqb c "}" then
        match rest with
        | "" => Raise (Exn ValueError "Single '}' encountered in format string")
        | String d rest' =>
            if Ascii.eqb d "}" then prepend "}" (format_scan token rest' None)
            else Raise (Exn ValueError "Single '}' encountered in format string")
        end
      else prepend (String c "") (format_scan token rest None)
  | Some _, "" => Raise (Exn ValueError "expected '}' before end of string")
  | Some arg_name, String c rest =>
      if Ascii.eqb c "}" then
        if bool_decide (arg_name = "token")
        then prepend token (format_scan token rest None)
        else Raise (lookup_error arg_name)
      else if Ascii.eqb c "{" then
        Raise (Exn ValueError "unexpected '{' in field name")
      else if Ascii.eqb c "." || Ascii.eqb c "[" || Ascii.eqb c ":" || Ascii.eqb c "!"
      then render_field (arg_name +:+ s) token
      else format_scan token rest (Some (arg_name +:+ String c ""))
  end.

Definition format (fmt token : string) : result string :=
  format_scan token fmt None.

(** [_MCPHttpFields.http_headers]; [environ] is the process environment. *)
Definition http_headers (environ : gmap string string) (self : _MCPHttpFields)
  : gmap string string :=
  let hdrs := headers self in
  let env_var := PyStr.strip (api_key_env self) in
  match (if PyStr.truthy env_var then environ !! env_var else None) with
  | Some token =>
      if PyStr.truthy token then
        let target := PyStr.or_else (PyStr.strip (api_key_header self)) "Authorization" in
        if existsb (fun h => bool_decide (PyStr.lower h = PyStr.lower target))
                   (map fst (map_to_list hdrs))
        then hdrs
        else
          let value :=
            match format (PyStr.or_else (api_key_format self) "{token}") token with
            | Ok v => v
            | Raise _ => token
            end in
          <[target := value]> hdrs
      else hdrs
  | None => hdrs
  end.

End Format.

(** [fmt.replace("{token}", token)]: the credential value in the words of
    the specification, the template with the placeholder replaced.
    [skip] counts the characters of a placeholder still to pass over. *)
Fixpoint replace_placeholder (token : string) (skip : nat) (fmt : string) : string :=
  match fmt with
  | "" => ""
  | String c rest =>
      match skip with
      | S k => replace_placeholder token k rest
      | O =>
          if PyStr.starts_with "{token}" fmt
          then token +:+ replace_placeholder token 6 rest
          else String c (replace_placeholder token 0 rest)
      end
  end.

Definition claimed_credential_value (fmt token : string) : string :=
  replace_placeholder token 0 fmt.

(** *** Sample data and notions used by the properties *)

(** A name of 257 characters whose 256th is an underscore. *)
Definition long_name : string := PyStr.repeat_char 255 "a" +:+ "_b".

(** A template made of text without braces and of [{token}] placeholders. *)
Inductive plain_format : string -> Prop :=
| plain_empty : plain_format ""
| plain_char (c : ascii) (s : string) :
    c <> "{"%char -> c <> "}"%char -> plain_format s -> plain_format (String c s)
| plain_placeholder (s : string) :
    plain_format s -> plain_format ("{token}" +:+ s).

(** the token [http_headers] finds, if any *)
Definition credential_token (environ : gmap string string) (self : _MCPHttpFields)
  : option string :=
  let env_var := PyStr.strip (api_key_env self) in
  match (if PyStr.truthy env_var then environ !! env_var else None) with
  | Some token => if PyStr.truthy token then Some token else None
  | None => None
  end.

(** the header name it would use *)
Definition credential_header (self : _MCPHttpFields) : string :=
  PyStr.or_else (PyStr.strip (api_key_header self)) "Authorization".

(** The claim in the words of the specification: with a non-empty token in
    the named variable and no configured header of the credential header's
    name in any letter case, the result maps that header name (Authorization
    when none is configured) to the template with [{token}] replaced. *)
Definition stated_credential_claim : Prop :=
  forall render_field environ self token,
    environ !! api_key_env self = Some token ->
    token <> "" ->
    (forall h, is_Some (headers self !! h) ->
       PyStr.lower h <> PyStr.lower (PyStr.or_else (api_key_header self) "Authorization")) ->
    http_headers render_field environ self
      !! PyStr.or_else (api_key_header self) "Authorization"
    = Some (claimed_credential_value (api_key_format self) token).

Definition two_field_template : _MCPHttpFields :=
  mkMCPHttpFields "https://mcp.example/api" ∅ "MCP_TOKEN" "Authorization"
                  "{token} {user}".

End MCP.

(** ** The backend adapter ([hacxgent/core/llm/backend/universal.py]) *)

Module Backend.

(** *** Response objects

    The objects the API client returns, as far as [_map_response_to_chunk]
    reads them. [None] in a field stands for an attribute that is missing or
    holds [None]: [getattr] with a default and the [or] that follows treat
    the two alike. Two fields are narrower: a token count that is [None] is
    a missing attribute (one that is present is an integer), and a tool call
    always has its [function] attribute, which may hold [None]. An attribute
    that is present holds a value of the stated type. *)

Record UsageData := mkUsageData {
  ud_prompt_tokens : option Z;
  ud_completion_tokens : option Z }.

Record RawFunction := mkRawFunction {
  rf_name : option string;
  rf_arguments : option string }.

Record RawToolCall := mkRawToolCall {
  rtc_id : option string;
  rtc_index : option Z;
  rtc_function : option RawFunction }.

Record MessageData := mkMessageData {
  md_role : option string;
  md_content : option string;
  md_reasoning_content : option string;
  md_thought : option string;
  md_tool_calls : option (list RawToolCall) }.

Record Choice := mkChoice {
  ch_message : option MessageData;
  ch_delta : option MessageData }.

Record Response := mkResponse {
  resp_usage : option UsageData;
  resp_choices : option (list Choice) }.

(** [a or b] where both may be [None] or a string *)
Definition opt_str_or (a b : option string) : option string :=
  match a with
  | Some s => if PyStr.truthy s then a else b
  | None => b
  end.

(** [LLMMessage(role=Role.assistant, content="")] *)
Definition empty_assistant_message : LLMMessage :=
  mkLLMMessage assistant (Some "") None None None None.

Definition map_tool_call (tc : RawToolCall) : ToolCall :=
  mkToolCall (rtc_id tc) (rtc_index tc)
    (mkFunctionCall
       (match rtc_function tc with Some f => rf_name f | None => None end)
       (match rtc_function tc with Some f => rf_arguments f | None => None end)).

Definition map_usage (response : Response) : option LLMUsage :=
  match resp_usage response with
  | Some usage_data =>
      Some (mkLLMUsage (default 0 (ud_prompt_tokens usage_data))
                       (default 0 (ud_completion_tokens usage_data)))
  | None => None
  end.

(** [UniversalBackend._map_response_to_chunk] *)
Definition _map_response_to_chunk (response : Response) : result LLMChunk :=
  let usage := map_usage response in
  match resp_choices response with
  | Some (choice :: _) =>
      match (match ch_message choice with
             | Some m => Some m
             | None => ch_delta choice
             end) with
      | None => Ok (mkLLMChunk empty_assistant_message usage)
      | Some message_data =>
          let role_str := PyStr.or_else (default "assistant" (md_role message_data))
                                        "assistant" in
          let content := PyStr.or_else (default "" (md_content message_data)) "" in
          let reasoning := opt_str_or (md_reasoning_content message_data)
                                      (md_thought message_data) in
          let tool_calls :=
            match md_tool_calls message_data with
            | Some (tc :: tcs) => Some (map map_tool_call (tc :: tcs))
            | _ => None
            end in
          let! role := Role_of_string role_str in
          Ok (mkLLMChunk (mkLLMMessage role (Some content) reasoning tool_calls None None)
                         usage)
      end
  | _ => Ok (mkLLMChunk empty_assistant_message usage)
  end.

(** *** [_prepare_messages] *)

Definition opt_jstr (o : option string) : jval :=
  match o with Some s => JStr s | None => JNull end.

Definition prepare_tool_call (tc : ToolCall) : jval :=
  JDict [("id", opt_jstr (tc_id tc));
         ("type", JStr "function");
         ("function", JDict [("name", opt_jstr (fc_name (tc_function tc)));
                             ("arguments", opt_jstr (fc_arguments (tc_function tc)))])].

Definition prepare_message (msg : LLMMessage) : jval :=
  let m := [("role", JStr (Role_value (role msg)));
            ("content", JStr (PyStr.or_else (default "" (content msg)) ""))] in
  match role msg with
  | assistant =>
      match tool_calls msg with
      | Some (tc :: tcs) =>
          JDict (m ++ [("tool_calls", JList (map prepare_tool_call (tc :: tcs)))])
      | _ => JDict m
      end
  | tool =>
      JDict (m ++ [("tool_call_id", opt_jstr (tool_call_id msg));
                   ("name", opt_jstr (Types.name msg))])
  | _ => JDict m
  end.

Definition _prepare_messages (messages : list LLMMessage) : list jval :=
  map prepare_message messages.

(** *** [count_tokens] *)

Section CountTokens.

(** [count_messages_tokens_approx] of the API package, [None] when importing
    it fails; and [str(messages)], the text of the message list. *)
Variable count_messages_tokens_approx : option (list jval -> result Z).
Variable str_of_messages : list LLMMessage -> string.

Definition count_tokens (messages : list LLMMessage) : result Z :=
  let attempt :=
    match count_messages_tokens_approx with
    | None => Raise (Exn ImportError "cannot import name 'count_messages_tokens_approx'")
    | Some counter => counter (_prepare_messages messages)
    end in
  match attempt with
  | Ok n => Ok n
  | Raise _ => Ok (Z.of_nat (String.length (str_of_messages messages)) / 4)
  end.

End CountTokens.

(** *** Sample data and notions used by the properties *)

(** A response that is malformed in shape: it has no choices (the attribute
    is missing, [None] or an empty list), or its first choice carries neither
    a message nor a delta. *)
Definition malformed (response : Response) : Prop :=
  resp_choices response = None
  \/ resp_choices response = Some []
  \/ exists choice rest,
       resp_choices response = Some (choice :: rest)
       /\ ch_message choice = None /\ ch_delta choice = None.

Definition usage_only_response : Response :=
  mkResponse (Some (mkUsageData (Some 1200) None)) (Some []).

Definition hollow_choice_response : Response :=
  mkResponse None (Some [mkChoice None None]).

End Backend.

(** ** Streaming completion: the producer thread, the queue, the consumer *)

Module Streaming.
Import Backend.

(** The network stream: the chunks it yields, and the exception that ends
    it, if one does (a failing [create] call is a stream without chunks).
    The exception is one of the API client's, an instance of [Exception] and
    not the [queue.Empty] the consumer loop handles itself. *)
Record NetStream := mkNetStream {
  ns_chunks : list Response;
  ns_failure : option exn }.

(** What travels through the queue: a chunk, or the exception object. *)
Inductive QItem :=
| QChunk (chunk : Response)
| QExc (e : exn).

(** [queue.Queue(maxsize)]: with [maxsize <= 0] the queue is never full. *)
Record Queue := mkQueue {
  maxsize : Z;
  q_items : list QItem }.

Definition Queue_full (q : Queue) : bool :=
  ((0 <? maxsize q) && (maxsize q <=? Z.of_nat (length (q_items q))))%Z.

Definition Queue_put (item : QItem) (q : Queue) : Queue :=
  mkQueue (maxsize q) (q_items q ++ [item]).

(** Where [_producer] stands. *)
Inductive ProducerPc :=
| P_stream (rest : list Response)   (* in [for chunk in stream], chunks left *)
| P_finally                         (* about to run [done.set()] *)
| P_exit.

(** Where the consumer loop of [complete_streaming] stands. *)
Inductive ConsumerPc :=
| C_test                 (* evaluating [not done.is_set()] *)
| C_test_queue           (* [done] was set; evaluating [not q.empty()] *)
| C_get                  (* in [q.get(timeout=0.1)] *)
| C_return               (* the loop was left: the generator is exhausted *)
| C_raised (e : exn).    (* the generator raised [e] *)

Record State := mkState {
  failure : option exn;       (* how the stream being read ends *)
  producer : ProducerPc;
  q : Queue;
  done : bool;
  consumer : ConsumerPc;
  yielded : list LLMChunk }.

(** [q = queue.Queue()], [done = threading.Event()], the thread started. *)
Definition start (stream : NetStream) : State :=
  mkState (ns_failure stream) (P_stream (ns_chunks stream)) (mkQueue 0 []) false C_test [].

Inductive Thread := Producer | Consumer.

(** One step of [_producer]; [None] when it has exited or [put] blocks. *)
Definition step_producer (st : State) : option State :=
  match producer st with
  | P_stream (chunk :: rest) =>
      if Queue_full (q st) then None
      else Some (mkState (failure st) (P_stream rest) (Queue_put (QChunk chunk) (q st))
                         (done st) (consumer st) (yielded st))
  | P_stream [] =>
      match failure st with
      | Some e =>
          if Queue_full (q st) then None
          else Some (mkState (failure st) P_finally (Queue_put (QExc e) (q st))
                             (done st) (consumer st) (yielded st))
      | None =>
          Some (mkState (failure st) P_finally (q st) (done st) (consumer st) (yielded st))
      end
  | P_finally =>
      Some (mkState (failure st) P_exit (q st) true (consumer st) (yielded st))
  | P_exit => None
  end.

(** One step of the consumer; [None] when the generator has finished. An
    empty queue in [C_get] is the [queue.Empty] of the timeout, which
    continues the loop. *)
Definition step_consumer (st : State) : option State :=
  let goto pc := mkState (failure st) (producer st) (q st) (done st) pc (yielded st) in
  match consumer st with
  | C_test => Some (goto (if done st then C_test_queue else C_get))
  | C_test_queue =>
      Some (goto (match q_items (q st) with [] => C_return | _ => C_get end))
  | C_get =>
      match q_items (q st) with
      | [] => Some (goto C_test)
      | item :: rest =>
          let q' := mkQueue (maxsize (q st)) rest in
          match item with
          | QExc e =>
              Some (mkState (failure st) (producer st) q' (done st) (C_raised e) (yielded st))
          | QChunk chunk =>
              match _map_response_to_chunk chunk with
              | Ok mapped =>
                  Some (mkState (failure st) (producer st) q' (done st) C_test
                                (yielded st ++ [mapped]))
              | Raise e =>
                  Some (mkState (failure st) (producer st) q' (done st) (C_raised e)
                                (yielded st))
              end
          end
      end
  | C_return | C_raised _ => None
  end.

Definition step (t : Thread) (st : State) : option State :=
  match t with
  | Producer => step_producer st
  | Consumer => step_consumer st
  end.

(** Running under a schedule: the scheduled thread takes a step when it
    can; otherwise nothing happens. *)
Fixpoint run (schedule : list Thread) (st : State) : State :=
  match schedule with
  | [] => st
  | t :: rest => run rest (default st (step t st))
  end.

Definition finished (st : State) : bool :=
  match consumer st with
  | C_return | C_raised _ => true
  | _ => false
  end.

(** What a caller who takes every chunk is to see: the mapped chunks in
    stream order up to the first chunk whose mapping raises, and how the
    generator ends. *)
Fixpoint delivery (chunks : list Response) (ending : option exn)
  : list LLMChunk * option exn :=
  match chunks with
  | [] => ([], ending)
  | chunk :: rest =>
      match _map_response_to_chunk chunk with
      | Ok mapped => let '(ms, e) := delivery rest ending in (mapped :: ms, e)
      | Raise e => ([], Some e)
      end
  end.

(** *** Sample data and notions used by the properties *)

(** What the producer will still put into the queue. *)
Definition future (st : State) : list QItem :=
  match producer st with
  | P_stream rest =>
      map QChunk rest ++ match failure st with Some e => [QExc e] | None => [] end
  | P_finally | P_exit => []
  end.

(** Everything the consumer has not taken yet, in queue order. *)
Definition pending (st : State) : list QItem := q_items (q st) ++ future st.

(** Taking items one after the other, as the consumer loop does. *)
Fixpoint drain (items : list QItem) : list LLMChunk * option exn :=
  match items with
  | [] => ([], None)
  | QExc e :: _ => ([], Some e)
  | QChunk chunk :: rest =>
      match _map_response_to_chunk chunk with
      | Ok mapped => let '(ms, e) := drain rest in (mapped :: ms, e)
      | Raise e => ([], Some e)
      end
  end.

(** The invariant of every interleaving: the stream's delivery is what has
    been yielded followed by what draining the pending items will give. *)
Definition inv (total : list LLMChunk * option exn) (st : State) : Prop :=
  maxsize (q st) = 0
  /\ (done st = true <-> producer st = P_exit)
  /\ match consumer st with
     | C_test | C_get =>
         total = (yielded st ++ (drain (pending st)).1, (drain (pending st)).2)
     | C_test_queue =>
         done st = true
         /\ total = (yielded st ++ (drain (pending st)).1, (drain (pending st)).2)
     | C_return => total = (yielded st, None)
     | C_raised e => total = (yielded st, Some e)
     end.

(** *** Progress: some continuation of every interleaving finishes *)
Definition producer_steps_left (st : State) : nat :=
  match producer st with
  | P_stream rest => length rest + 2
  | P_finally => 1
  | P_exit => 0
  end.

(** The queue is bounded: some number is never exceeded by its length,
    whatever the stream and the interleaving. *)
Definition stated_queue_bound : Prop :=
  exists bound : nat,
    forall stream schedule,
      (length (q_items (q (run schedule (start stream)))) <= bound)%nat.

Definition two_chunk_stream : NetStream :=
  mkNetStream
    [mkResponse None
       (Some [mkChoice None (Some (mkMessageData None (Some "Hel") None None None))]);
     mkResponse None
       (Some [mkChoice None (Some (mkMessageData None (Some "lo") None None None))])]
    (Some (Exn APIError "connection reset")).

End Streaming.

(** ** Binary64 arithmetic, as Python's [float] computes

    A finite [float] is the rational number it stands for. An operation
    gives its exact result rounded to the nearest binary64 number, the one
    with an even last bit of two that are equally near (the default
    rounding of IEEE 754), and an infinity when that lies beyond the
    largest one. Zero has no sign here: comparison and subtraction give
    the same values for both zeros. *)

Module Float64.

(** [2^e] *)
Definition pow2 (e : Z) : Q := (2 ^ e)%Q.

(** the exponent [e] with [2^e <= |x| < 2^(e+1)], for [x] other than 0 *)
Definition ilog2 (x : Q) : Z :=
  let e := Z.log2 (Z.abs (Qnum x)) - Z.log2 (Zpos (Qden x)) in
  if Qle_bool (pow2 e) (Qabs x) then e else e - 1.

(** the exponent of the last place of the binary64 numbers around [x]: 53
    significant bits, and no place below [2^-1074] *)
Definition exponent (x : Q) : Z := Z.max (ilog2 x - 52) (-1074).

(** the integer nearest to [x], the even one of two that are equally near *)
Definition nearest_even (x : Q) : Z :=
  let f := Qfloor x in
  match (x - inject_Z f ?= 1 # 2)%Q with
  | Lt => f
  | Gt => f + 1
  | Eq => if Z.even f then f else f + 1
  end.

(** [x] rounded to the nearest number with that last place *)
Definition round (x : Q) : Q :=
  if Qeq_bool x 0 then 0%Q
  else Qred (inject_Z (nearest_even (x / pow2 (exponent x))) * pow2 (exponent x)).

(** the largest binary64 number *)
Definition max_float : Q := (inject_Z (2 ^ 53 - 1) * pow2 971)%Q.

Inductive float :=
| Fin (x : Q)
| Inf (negative : bool)
| NaN.

(** the value of an operation whose exact result is [x] *)
Definition rounded (x : Q) : float :=
  let r := round x in
  if Qle_bool (pow2 1024) (Qabs r) then Inf (negb (Qle_bool 0 r)) else Fin r.

(** [a - b] *)
Definition sub (a b : float) : float :=
  match a, b with
  | NaN, _ | _, NaN => NaN
  | Inf s, Inf t => if Bool.eqb s t then NaN else Inf s
  | Inf s, Fin _ => Inf s
  | Fin _, Inf t => Inf (negb t)
  | Fin x, Fin y => rounded (x - y)
  end.

(** [a < b] *)
Definition lt (a b : float) : bool :=
  match a, b with
  | NaN, _ | _, NaN => false
  | Inf s, Inf t => s && negb t
  | Inf s, Fin _ => s
  | Fin _, Inf t => negb t
  | Fin x, Fin y => negb (Qle_bool y x)
  end.

(** [float(n)] for an int [n]; [None] stands for the [OverflowError] of an
    int too large to convert *)
Definition of_int (n : Z) : option Q :=
  match rounded (inject_Z n) with
  | Fin y => Some y
  | _ => None
  end.

(** [x / n] for a float [x] and an int [n] *)
Inductive Quotient :=
| Value (f : float)
| OverflowError
| ZeroDivisionError.

Definition truediv_int (x : Q) (n : Z) : Quotient :=
  match of_int n with
  | None => OverflowError
  | Some y => if Qeq_bool y 0 then ZeroDivisionError else Value (rounded (x / y))
  end.

(** a multiple of [2^-1074], the last place of the smallest numbers *)
Definition on_grid (x : Q) : Prop := exists k : Z, (x == inject_Z k * pow2 (-1074))%Q.

(** the value of a machine float, to compare the operations above with the
    machine's *)
Definition value (f : PrimFloat.float) : float :=
  match FloatOps.Prim2SF f with
  | SpecFloat.S754_zero _ => Fin 0
  | SpecFloat.S754_finite s m e =>
      Fin ((if s then - inject_Z (Zpos m) else inject_Z (Zpos m)) * pow2 e)
  | SpecFloat.S754_infinity s => Inf s
  | SpecFloat.S754_nan => NaN
  end.

(** the machine float of a small int *)
Definition machine_of_Z (n : Z) : PrimFloat.float :=
  PrimFloat.of_uint63 (Uint63.of_Z n).

(** the same float: equal as numbers *)
Definition same (a b : float) : bool :=
  match a, b with
  | Fin x, Fin y => Qeq_bool x y
  | Inf s, Inf t => Bool.eqb s t
  | NaN, NaN => true
  | _, _ => false
  end.

(** [60.0 / r] here and on the machine *)
Definition same_interval (r : Z) : bool :=
  match truediv_int 60 r with
  | Value f => same (value (PrimFloat.div (machine_of_Z 60) (machine_of_Z r))) f
  | _ => false
  end.

(** [60.0 / r - (t - 1700000000.0)] for [t] a number [k] of eighths of a
    second after 1700000000.0, here and on the machine *)
Definition same_pause (r k : Z) : bool :=
  let t0 := machine_of_Z 1700000000 in
  let t := PrimFloat.add t0 (PrimFloat.div (machine_of_Z k) (machine_of_Z 8)) in
  match truediv_int 60 r with
  | Value f =>
      same (value (PrimFloat.sub (PrimFloat.div (machine_of_Z 60) (machine_of_Z r))
                                 (PrimFloat.sub t t0)))
           (sub f (sub (Fin (1700000000 + inject_Z k / 8)) (Fin 1700000000)))
  | _ => false
  end.

(** [1 .. n] *)
Definition upto (n : nat) : list Z := Z.of_nat <$> seq 1 n.

End Float64.

(** ** Request pacing ([UniversalBackend._apply_rate_limit])

    Time is what [time.time()] reads: a binary64 number. *)

Module Pacing.
Import Float64.

(** The values the attributes of the class and of its instances hold. *)
Inductive pyval :=
| VNone
| VFloat (x : Q)            (* a finite [float] *)
| VLock (id : nat)          (* an [asyncio.Lock], by identity *)
| VObj (what : string).

(** The part of the interpreter state the pacing code reads and writes:
    what the clock reads, the class's own attributes, each instance's
    [__dict__] (by object identity), and the locks that are held. *)
Record World := mkWorld {
  clock : Q;
  class_dict : gmap string pyval;
  instances : gmap nat (gmap string pyval);
  held : gset nat }.

(** Executing the class body: [_last_request_time: float = 0.0] and
    [_request_lock = asyncio.Lock()] become attributes of the class; the one
    [Lock()] call of the module creates the lock numbered 0. *)
Definition class_body (t0 : Q) : World :=
  mkWorld t0 {[ "_last_request_time" := VFloat 0; "_request_lock" := VLock 0 ]} ∅ ∅.

(** [UniversalBackend.__init__] on a new object [self] *)
Definition __init__ (self : nat) (w : World) : World :=
  mkWorld (clock w) (class_dict w)
    (<[self := {[ "_provider" := VObj "ProviderConfig"; "_timeout" := VFloat 720;
                  "_client" := VNone ]}]> (instances w))
    (held w).

(** [self.attr]: the instance's own attribute if it has one, else the
    class attribute. *)
Definition getattr (w : World) (self : nat) (attr : string) : option pyval :=
  match instances w !! self with
  | Some d =>
      match d !! attr with
      | Some v => Some v
      | None => class_dict w !! attr
      end
  | None => None
  end.

(** [self.attr = v]: always written to the instance. *)
Definition setattr (w : World) (self : nat) (attr : string) (v : pyval) : World :=
  mkWorld (clock w) (class_dict w) (alter (insert attr v) self (instances w)) (held w).

(** time passing: the clock now reads [t] *)
Definition tick (t : Q) (w : World) : World :=
  mkWorld t (class_dict w) (instances w) (held w).

Definition acquire (lock : nat) (w : World) : World :=
  mkWorld (clock w) (class_dict w) (instances w) ({[lock]} ∪ held w).

Definition release (lock : nat) (w : World) : World :=
  mkWorld (clock w) (class_dict w) (instances w) (held w ∖ {[lock]}).

(** How far a call of [_apply_rate_limit] gets before it first suspends. *)
Inductive Entered :=
| Skipped (w : World)          (* [rate_limit_rpm <= 0]: returned *)
| Raised (error : string)      (* the division raised, before the lock *)
| Holding (lock : nat) (pause : option float) (w : World)
                               (* in the lock; [pause] is the sleep asked for *)
| Waiting (lock : nat)         (* the lock is held: the caller waits *)
| Broken.                      (* an attribute is missing *)

(** [interval = 60.0 / model.rate_limit_rpm] *)
Definition interval_of (rate_limit_rpm : Z) : Quotient := truediv_int 60 rate_limit_rpm.

(** From the call to the [await asyncio.sleep]: [pause] is the requested
    sleep, [None] when [elapsed < interval] is false and none is requested. *)
Definition enter (rate_limit_rpm : Z) (self : nat) (w : World) : Entered :=
  if (rate_limit_rpm <=? 0)%Z then Skipped w
  else
    match interval_of rate_limit_rpm with
    | OverflowError => Raised "OverflowError"
    | ZeroDivisionError => Raised "ZeroDivisionError"
    | Value interval =>
        match getattr w self "_request_lock" with
        | Some (VLock lock) =>
            if decide (lock ∈ held w) then Waiting lock
            else
              let w := acquire lock w in
              let now := clock w in
              match getattr w self "_last_request_time" with
              | Some (VFloat last) =>
                  let elapsed := sub (Fin now) (Fin last) in
                  Holding lock
                    (if lt elapsed interval then Some (sub interval elapsed) else None) w
              | _ => Broken
              end
        | _ => Broken
        end
    end.

(** From the sleep to the end: [wake] is what the clock reads when the
    timestamp is taken; it is written to the instance and the lock is
    released. *)
Definition leave (self lock : nat) (wake : Q) (w : World) : World :=
  let w := tick wake w in
  let w := setattr w self "_last_request_time" (VFloat (clock w)) in
  release lock w.

(** A call that is not interleaved with another one and that returns: a
    sleep without end does not. *)
Definition _apply_rate_limit (rate_limit_rpm : Z) (self : nat) (wake : Q) (w : World)
  : option World :=
  match enter rate_limit_rpm self w with
  | Skipped w' => Some w'
  | Holding lock None w' | Holding lock (Some (Fin _)) w' => Some (leave self lock wake w')
  | Holding _ (Some _) _ | Raised _ | Waiting _ | Broken => None
  end.

(** A clock reading: a binary64 number that is finite and not negative. *)
Definition reading (t : Q) : Prop := (round t == t /\ 0 <= t /\ t <= max_float)%Q.

(** What is assumed of the clock and of [asyncio.sleep]: the clock does not
    run backwards, and a sleep is over no sooner than asked, by the clock. *)
Definition slept (pause : option float) (now wake : Q) : Prop :=
  reading wake /\ (now <= wake)%Q
  /\ forall p, pause = Some (Fin p) -> (now + p <= wake)%Q.

(** [wake] is a possible reading for the end of a call made in [w] *)
Definition on_time (rate_limit_rpm : Z) (self : nat) (wake : Q) (w : World) : Prop :=
  forall lock pause w1,
    enter rate_limit_rpm self w = Holding lock pause w1 -> slept pause (clock w) wake.

(** The timing of one call in a sequence: what the clock reads when it is
    made, and when it takes its timestamp. *)
Record Timing := mkTiming { arrival : Q; wake : Q }.

(** One call after the other on the same instance. *)
Fixpoint sequential_calls (rate_limit_rpm : Z) (self : nat) (timings : list Timing)
    (w : World) : option World :=
  match timings with
  | [] => Some w
  | t :: rest =>
      match _apply_rate_limit rate_limit_rpm self (wake t) (tick (arrival t) w) with
      | Some w' => sequential_calls rate_limit_rpm self rest w'
      | None => None
      end
  end.

(** the timings that the clock and the sleeps allow *)
Fixpoint timely (rate_limit_rpm : Z) (self : nat) (timings : list Timing) (w : World)
  : Prop :=
  match timings with
  | [] => True
  | t :: rest =>
      reading (arrival t) /\ (clock w <= arrival t)%Q
      /\ on_time rate_limit_rpm self (wake t) (tick (arrival t) w)
      /\ match _apply_rate_limit rate_limit_rpm self (wake t) (tick (arrival t) w) with
         | Some w' => timely rate_limit_rpm self rest w'
         | None => True
         end
  end.

(** The worlds a program can be in between calls: the class has been
    created, backends constructed, time has passed, calls have completed. *)
Inductive built : World -> Prop :=
| built_class (t0 : Q) : reading t0 -> built (class_body t0)
| built_init (w : World) (self : nat) :
    built w -> instances w !! self = None -> built (__init__ self w)
| built_tick (w : World) (t : Q) :
    built w -> reading t -> (clock w <= t)%Q -> built (tick t w)
| built_call (w w' : World) (rate_limit_rpm : Z) (self : nat) (wake : Q) :
    built w -> on_time rate_limit_rpm self wake w ->
    _apply_rate_limit rate_limit_rpm self wake w = Some w' -> built w'.

(** *** Sample data and notions used by the properties *)

Definition the_class_dict : gmap string pyval :=
  {[ "_last_request_time" := VFloat 0; "_request_lock" := VLock 0 ]}.

(** What holds of every world between calls: the clock shows a reading, the
    class attributes are the two the class body made, no lock is held, and
    an instance has no lock of its own and, if it has a timestamp of its own,
    an earlier reading. *)
Record sound (w : World) : Prop := mkSound {
  sound_clock : reading (clock w);
  sound_class : class_dict w = the_class_dict;
  sound_held : held w = ∅;
  sound_no_lock : forall self d,
    instances w !! self = Some d -> d !! "_request_lock" = None;
  sound_stamp : forall self d v,
    instances w !! self = Some d -> d !! "_last_request_time" = Some v ->
    exists t, v = VFloat t /\ reading t /\ (t <= clock w)%Q }.

(** the sleep that a call asks for *)
Definition pause_for (interval : float) (now last : Q) : option float :=
  let elapsed := sub (Fin now) (Fin last) in
  if lt elapsed interval then Some (sub interval elapsed) else None.

(** counting in [Q] *)
Definition Qn (n : nat) : Q := inject_Z (Z.of_nat n).

(** Two distinct backend instances have distinct pacing state: each has a
    lock of its own. *)
Definition stated_pacing_ownership : Prop :=
  forall w a b lock_a lock_b,
    built w -> a <> b ->
    getattr w a "_request_lock" = Some (VLock lock_a) ->
    getattr w b "_request_lock" = Some (VLock lock_b) ->
    lock_a <> lock_b.

(** Two backends constructed one after the other. *)
Definition two_backends : World := __init__ 1 (__init__ 0 (class_body 1700000000)).

(** the backends after a call on the first at 1700000000.0, one second
    later *)
Definition one_second_later : World :=
  tick 1700000001
    (default two_backends (_apply_rate_limit 7 0 1700000000 two_backends)).

End Pacing.

(** ** The built-in tools [list_directory] and [read_lines] *)

Module Tools.

(** *** Generators *)

(** What an async generator does when it is run to its end: it yields
    items one after the other and then stops or raises. *)
Inductive Gen (Y : Type) :=
| Stop
| Yield (y : Y) (next : Gen Y)
| Throw (e : exn).
Arguments Stop {Y}.
Arguments Yield {Y} y next.
Arguments Throw {Y} e.

(** the statements before the first [yield], then the rest *)
Definition after {A Y} (r : result A) (k : A -> Gen Y) : Gen Y :=
  match r with
  | Ok a => k a
  | Raise e => Throw e
  end.

(** the items a consumer receives, and the exception that ends the
    iteration, if one does *)
Fixpoint trace {Y} (g : Gen Y) : list Y * option exn :=
  match g with
  | Stop => ([], None)
  | Yield y next => let '(ys, e) := trace next in (y :: ys, e)
  | Throw e => ([], Some e)
  end.

(** *** The file system, as far as the tools call into it

    Each field is the outcome of one library call; a call may raise. [files]
    holds the text of the regular files as Python reads it in text mode. *)
Record FileInfo := mkFileInfo {
  fi_name : string;
  fi_type : string;
  fi_size : Z;
  fi_modified : Q }.

Record FS := mkFS {
  (** [Path(p).expanduser()] *)
  expanduser : string -> result string;
  (** [(Path.cwd() / p).resolve()] *)
  cwd_resolve : string -> result string;
  (** [p.exists()], [p.is_dir()], [p.is_file()] *)
  path_exists : string -> result bool;
  path_is_dir : string -> result bool;
  path_is_file : string -> result bool;
  (** the loop over [os.scandir(p)] with [entry.stat()] for each entry *)
  scandir : string -> result (list FileInfo);
  files : gmap string string;
  (** an exception that opening or decoding the file raises *)
  read_error : string -> option exn }.

(** [p.is_absolute()] on POSIX *)
Definition is_absolute (p : string) : bool := PyStr.starts_with "/" p.

(** The opening lines of both tools. *)
Definition resolve_path (fs : FS) (p : string) : result string :=
  let! path := expanduser fs p in
  if negb (is_absolute path) then cwd_resolve fs path else Ok path.

Definition read_text (fs : FS) (path : string) : result string :=
  match read_error fs path with
  | Some e => Raise e
  | None =>
      match files fs !! path with
      | Some text => Ok text
      | None => Raise (Exn FileNotFoundError ("No such file or directory: '" +:+ path +:+ "'"))
      end
  end.

(** *** Lines and slices *)

Definition newline : ascii := ascii_of_N 10.
Definition carriage_return : ascii := ascii_of_N 13.

(** the characters [str.splitlines] breaks at, besides the carriage return *)
Definition is_line_boundary (c : ascii) : bool :=
  PyStr.in_range 10 12 c || PyStr.in_range 28 30 c || (PyStr.code c =? 133)%N.

(** Cut [s] after every boundary character, keeping it; with [universal]
    a carriage return is a boundary too and takes a line feed that follows
    it along. [cur] is the line read so far. *)
Fixpoint split_keepends (boundary : ascii -> bool) (universal : bool)
    (cur s : string) : list string :=
  match s with
  | "" => if PyStr.truthy cur then [cur] else []
  | String c rest =>
      if universal && Ascii.eqb c carriage_return then
        match rest with
        | String d rest' =>
            if Ascii.eqb d newline
            then (cur +:+ String c (String d "")) :: split_keepends boundary universal "" rest'
            else (cur +:+ String c "") :: split_keepends boundary universal "" rest
        | "" => [cur +:+ String c ""]
        end
      else if boundary c
      then (cur +:+ String c "") :: split_keepends boundary universal "" rest
      else split_keepends boundary universal (cur +:+ String c "") rest
  end.

(** [f.readlines()] on text read with universal newlines *)
Definition readlines (text : string) : list string :=
  split_keepends (Ascii.eqb newline) false "" text.

(** a slice bound as Python clamps it for a list of length [len] *)
Definition clamp_index (len i : Z) : nat :=
  Z.to_nat (if (i <? 0)%Z then Z.max (i + len) 0 else Z.min i len).

(** [l[lo:hi]] *)
Definition py_slice {A} (l : list A) (lo hi : Z) : list A :=
  let len := Z.of_nat (length l) in
  let a := clamp_index len lo in
  let b := clamp_index len hi in
  take (b - a) (drop a l).

Definition join (lines : list string) : string := fold_right String.append "" lines.

(** [len(s.encode("utf-8"))] *)
Fixpoint utf8_len (s : string) : Z :=
  match s with
  | "" => 0
  | String c r => (if (PyStr.code c <? 128)%N then 1 else 2) + utf8_len r
  end.

(** [str(n)] for an integer *)
Definition str_of_Z (z : Z) : string := pretty.pretty z.

(** *** [ListDirectory.run] *)

Record ListDirectoryArgs := mkListDirectoryArgs { ld_path : string }.

Record ListDirectoryResult := mkListDirectoryResult {
  ldr_path : string;
  ldr_items : list FileInfo }.

Definition ListDirectory_run (fs : FS) (args : ListDirectoryArgs)
  : Gen ListDirectoryResult :=
  after
    (let! path := resolve_path fs (ld_path args) in
     let! found := path_exists fs path in
     if negb found then Raise (Exn ToolError ("Directory not found: " +:+ ld_path args))
     else
       let! is_dir := path_is_dir fs path in
       if negb is_dir
       then Raise (Exn ToolError ("Path is not a directory: " +:+ ld_path args))
       else
         match scandir fs path with
         | Ok items => Ok (mkListDirectoryResult path items)
         | Raise e => Raise (Exn ToolError ("Error listing directory: " +:+ exn_msg e))
         end)
    (fun result => Yield result Stop).

(** *** [ReadLines.run] *)

Record ReadLinesArgs := mkReadLinesArgs {
  rl_file_path : string;
  rl_start_line : Z;
  rl_end_line : Z }.

Record ReadLinesResult := mkReadLinesResult {
  rlr_file_path : string;
  rlr_content : string;
  rlr_lines_read : Z;
  rlr_total_lines : Z }.

Record ReadLinesConfig := mkReadLinesConfig { max_read_bytes : Z }.

(** the body of [sync_read] inside its [try] *)
Definition sync_read_body (config : ReadLinesConfig) (fs : FS) (path : string)
    (args : ReadLinesArgs) : result ReadLinesResult :=
  let! text := read_text fs path in
  let all_lines := readlines text in
  let total := Z.of_nat (length all_lines) in
  let start := Z.max 1 (rl_start_line args) in
  let end_ := Z.min total (rl_end_line args) in
  if (total <? start)%Z then Ok (mkReadLinesResult path "" 0 total)
  else
    let selected_lines := py_slice all_lines (start - 1) end_ in
    let content := join selected_lines in
    if (max_read_bytes config <? utf8_len content)%Z
    then Raise (Exn ToolError ("Read operation exceeds max_read_bytes ("
                               +:+ str_of_Z (max_read_bytes config) +:+ ")"))
    else Ok (mkReadLinesResult path content (Z.of_nat (length selected_lines)) total).

(** [sync_read]: whatever the body raises is raised again as a [ToolError] *)
Definition sync_read (config : ReadLinesConfig) (fs : FS) (path : string)
    (args : ReadLinesArgs) : result ReadLinesResult :=
  match sync_read_body config fs path args with
  | Ok result => Ok result
  | Raise e => Raise (Exn ToolError ("Error reading lines: " +:+ exn_msg e))
  end.

Definition ReadLines_run (config : ReadLinesConfig) (fs : FS) (args : ReadLinesArgs)
  : Gen ReadLinesResult :=
  after
    (let! path := resolve_path fs (rl_file_path args) in
     let! found := path_exists fs path in
     if negb found then Raise (Exn ToolError ("File not found: " +:+ rl_file_path args))
     else
       let! is_file := path_is_file fs path in
       if negb is_file
       then Raise (Exn ToolError ("Path is not a file: " +:+ rl_file_path args))
       else sync_read config fs path args)
    (fun result => Yield result Stop).

(** *** Sample data and notions used by the properties *)




(** A machine with one user, whose home is [/home/dev], the working
    directory [/work], and one file in it. *)
Definition string_tail (s : string) : string :=
  match s with "" => "" | String _ r => r end.

Definition demo_text : string :=
  "alpha" +:+ String newline "" +:+ "beta" +:+ String newline "" +:+ "gamma".

Definition demo_fs : FS :=
  mkFS
    (fun p =>
       if PyStr.starts_with "~" p then
         if bool_decide (p = "~") || PyStr.starts_with "~/" p
         then Ok ("/home/dev" +:+ string_tail p)
         else Raise (Exn RuntimeError "Could not determine home directory.")
       else Ok p)
    (fun p => Ok ("/work/" +:+ p))
    (fun p => Ok (bool_decide (p = "/work") || bool_decide (p = "/work/notes.txt")))
    (fun p => Ok (bool_decide (p = "/work")))
    (fun p => Ok (bool_decide (p = "/work/notes.txt")))
    (fun p => if bool_decide (p = "/work")
              then Ok [mkFileInfo "notes.txt" "file" 16 1700000000]
              else Raise (Exn OSError "Not a directory"))
    {[ "/work/notes.txt" := demo_text ]}
    (fun _ => None).

End Tools.

(** ** Reading a prepared message *)

Module Prepared.

(** [d[key]] for a dict given as its items, [None] when the key is missing *)
Fixpoint dict_get (d : list (string * jval)) (key : string) : option jval :=
  match d with
  | [] => None
  | (k, v) :: rest => if bool_decide (k = key) then Some v else dict_get rest key
  end.

(** the items of a value that is a dict *)
Definition items_of (v : jval) : list (string * jval) :=
  match v with JDict d => d | _ => [] end.

(** [message_data] as [_map_response_to_chunk] picks it from a choice:
    the message, else the delta *)
Definition message_data_of (choice : Backend.Choice) : option Backend.MessageData :=
  match Backend.ch_message choice with
  | Some m => Some m
  | None => Backend.ch_delta choice
  end.

(** the values of the [Role] enum *)
Definition role_values : list string := ["system"; "user"; "assistant"; "tool"].

End Prepared.

(** ** Slash commands ([hacxgent/cli/commands.py]) *)

Module Commands.

Record Command := mkCommand {
  aliases : gset string;
  description : string;
  handler : string;
  exits : bool }.

(** the dict literal of [CommandRegistry.__init__], in its order *)
Definition builtin_commands : list (string * Command) :=
  [ ("help", mkCommand {[ "/help" ]} "Show help message" "_show_help" false);
    ("config", mkCommand {[ "/config"; "/model"; "/settings" ]}
                 "Edit config settings" "_show_config" false);
    ("reload", mkCommand {[ "/reload" ]} "Reload configuration from disk"
                 "_reload_config" false);
    ("clear", mkCommand {[ "/clear" ]} "Clear conversation history" "_clear_history" false);
    ("log", mkCommand {[ "/log" ]} "Show path to current interaction log file"
              "_show_log_path" false);
    ("compact", mkCommand {[ "/compact" ]} "Compact conversation history by summarizing"
                  "_compact_history" false);
    ("exit", mkCommand {[ "/exit" ]} "Exit the application" "_exit_app" true);
    ("terminal-setup", mkCommand {[ "/terminal-setup" ]}
                         "Configure Shift+Enter for newlines" "_setup_terminal" false);
    ("status", mkCommand {[ "/status" ]} "Display agent statistics" "_show_status" false);
    ("setup", mkCommand {[ "/setup" ]} "Re-run the initial setup and configuration"
                "_run_setup_cmd" false);
    ("open-settings", mkCommand {[ "/open-settings" ]}
                        "Open settings.json in the system default editor"
                        "_open_settings_json" false);
    ("animation", mkCommand {[ "/animation" ]} "Change the banner animation style"
                    "_change_animation" false);
    ("memory", mkCommand {[ "/memory" ]}
                 "Manage smart memory settings (interval, threshold)"
                 "_handle_memory_cmd" false) ].

(** [commands.pop(command, None)] on a dict kept as the list of its items *)
Definition pop (command : string) (commands : list (string * Command))
  : list (string * Command) :=
  filter (fun item => item.1 <> command) commands.

(** [commands.get(name)] *)
Fixpoint get (commands : list (string * Command)) (name : string) : option Command :=
  match commands with
  | [] => None
  | (n, cmd) :: rest => if decide (n = name) then Some cmd else get rest name
  end.

Record CommandRegistry := mkCommandRegistry {
  commands : list (string * Command);
  _alias_map : gmap string string }.

(** the two loops that fill [_alias_map]; a set is walked in an order of
    its own *)
Definition fill_alias_map (commands : list (string * Command)) : gmap string string :=
  foldl (fun m item =>
           foldl (fun m alias => <[alias := item.1]> m) m (elements (aliases item.2)))
        ∅ commands.

Definition __init__ (excluded_commands : option (list string)) : CommandRegistry :=
  let excluded_commands := default [] excluded_commands in
  let commands := foldl (fun cmds command => pop command cmds)
                        builtin_commands excluded_commands in
  mkCommandRegistry commands (fill_alias_map commands).

(** [s.split()]: the maximal runs of characters that are not white space *)
Fixpoint split_from (cur s : string) : list string :=
  match s with
  | "" => if PyStr.truthy cur then [cur] else []
  | String c r =>
      if PyStr.isspace c
      then (if PyStr.truthy cur then cur :: split_from "" r else split_from "" r)
      else split_from (cur +:+ String c "") r
  end.

Definition split (s : string) : list string := split_from "" s.

Definition find_command (self : CommandRegistry) (user_input : string) : option Command :=
  let normalized_input := PyStr.strip (PyStr.lower user_input) in
  let parts := split normalized_input in
  match parts with
  | [] => None
  | first_part :: _ =>
      match _alias_map self !! normalized_input with
      | Some cmd_name =>
          if PyStr.truthy cmd_name then get (commands self) cmd_name
          else
            match _alias_map self !! first_part with
            | Some cmd_name => if PyStr.truthy cmd_name then get (commands self) cmd_name
                               else None
            | None => None
            end
      | None =>
          match _alias_map self !! first_part with
          | Some cmd_name => if PyStr.truthy cmd_name then get (commands self) cmd_name
                             else None
          | None => None
          end
      end
  end.

(** what each of the two lookups of [find_command] does with its key: the
    alias map, then the commands *)
Definition resolve (self : CommandRegistry) (key : string) : option Command :=
  match _alias_map self !! key with
  | Some cmd_name => if PyStr.truthy cmd_name then get (commands self) cmd_name else None
  | None => None
  end.

(** the pairs that the loops of [fill_alias_map] store, in their order *)
Definition alias_items (commands : list (string * Command)) : list (string * string) :=
  commands ≫= fun item => (fun alias => (alias, item.1)) <$> elements (aliases item.2).

(** no key of a list of items has two values *)
Definition functional {A B} (l : list (A * B)) : Prop :=
  forall k v v', (k, v) ∈ l -> (k, v') ∈ l -> v = v'.

End Commands.

(** ** The file management tool ([core/tools/builtins/file_operations.py])

    The tool probes the file tree and changes it through [shutil] and
    [pathlib]. The tree is known here by the operations attempted on it so
    far: a probe answers, and an operation fails or not, as a function of
    that history. *)

Module FileOps.
Import Tools.

Inductive Op :=
| Rmtree (path : string)
| Unlink (path : string)
| MkdirParents (path : string)
| Move (src dst : string)
| Copytree (src dst : string)
| Copy2 (src dst : string).

Record OS := mkOS {
  (** [Path(p).expanduser()], [(Path.cwd() / p).resolve()], [p.parent] *)
  os_expanduser : string -> result string;
  os_cwd_resolve : string -> result string;
  os_parent : string -> string;
  (** [p.exists()] and [p.is_dir()] after the operations made so far *)
  os_exists : list Op -> string -> result bool;
  os_is_dir : list Op -> string -> result bool;
  (** the exception that an operation raises after those made so far *)
  os_error : list Op -> Op -> option exn }.

Record FileOperationArgs := mkFileOperationArgs {
  fo_action : string;
  fo_source : string;
  fo_destination : option string }.

Record FileOperationResult := mkFileOperationResult {
  fr_action : string;
  fr_message : string }.

(** statements that read and extend the history and may raise *)
Definition M (A : Type) : Type := list Op -> list Op * result A.

Definition ret {A} (a : A) : M A := fun log => (log, Ok a).
Definition raise {A} (e : exn) : M A := fun log => (log, Raise e).
Definition mbind {A B} (m : M A) (k : A -> M B) : M B :=
  fun log =>
    match m log with
    | (log', Ok a) => k a log'
    | (log', Raise e) => (log', Raise e)
    end.

Notation "'do!' x ':=' m 'in' k" := (mbind m (fun x => k))
  (at level 10, x name, m at level 100, k at level 200).

Definition probe (answer : list Op -> string -> result bool) (path : string) : M bool :=
  fun log => (log, answer log path).

Definition perform (os : OS) (op : Op) : M unit :=
  fun log => (log ++ [op], match os_error os log op with
                           | Some e => Raise e
                           | None => Ok tt
                           end).

Definition resolve (os : OS) (p : string) : result string :=
  let! path := os_expanduser os p in
  if negb (is_absolute path) then os_cwd_resolve os path else Ok path.

(** [str(x)] for an optional string *)
Definition str_of_optional (x : option string) : string := default "None" x.

(** the statements inside the [try] *)
Definition run_body (os : OS) (args : FileOperationArgs) (source_path : string)
    (dest_path : option string) : M string :=
  if String.eqb (fo_action args) "delete" then
    do! found := probe (os_exists os) source_path in
    if negb found then raise (Exn ToolError ("Source not found: " +:+ fo_source args))
    else
      do! is_dir := probe (os_is_dir os) source_path in
      do! _ := perform os (if is_dir then Rmtree source_path else Unlink source_path) in
      ret ("Deleted '" +:+ fo_source args +:+ "'")
  else if String.eqb (fo_action args) "move" then
    match dest_path with
    | None => raise (Exn ToolError "Destination required for move")
    | Some dest_path =>
        do! found := probe (os_exists os) source_path in
        if negb found then raise (Exn ToolError ("Source not found: " +:+ fo_source args))
        else
          do! _ := perform os (MkdirParents (os_parent os dest_path)) in
          do! _ := perform os (Move source_path dest_path) in
          ret ("Moved '" +:+ fo_source args +:+ "' to '"
               +:+ str_of_optional (fo_destination args) +:+ "'")
    end
  else if String.eqb (fo_action args) "copy" then
    match dest_path with
    | None => raise (Exn ToolError "Destination required for copy")
    | Some dest_path =>
        do! found := probe (os_exists os) source_path in
        if negb found then raise (Exn ToolError ("Source not found: " +:+ fo_source args))
        else
          do! _ := perform os (MkdirParents (os_parent os dest_path)) in
          do! is_dir := probe (os_is_dir os) source_path in
          do! _ := perform os (if is_dir then Copytree source_path dest_path
                               else Copy2 source_path dest_path) in
          ret ("Copied '" +:+ fo_source args +:+ "' to '"
               +:+ str_of_optional (fo_destination args) +:+ "'")
    end
  else if String.eqb (fo_action args) "mkdir" then
    do! _ := perform os (MkdirParents source_path) in
    ret ("Created directory '" +:+ fo_source args +:+ "'")
  else raise (Exn ToolError ("Unknown action: " +:+ fo_action args)).

(** the two paths, made absolute before the [try] *)
Definition paths (os : OS) (args : FileOperationArgs) : result (string * option string) :=
  let! source_path := resolve os (fo_source args) in
  let! dest_path :=
    match fo_destination args with
    | Some destination =>
        if PyStr.truthy destination
        then (let! dest_path := resolve os destination in Ok (Some dest_path))
        else Ok None
    | None => Ok None
    end in
  Ok (source_path, dest_path).

(** [FileOperations.run]: the operations attempted, and the generator *)
Definition run (os : OS) (args : FileOperationArgs)
  : list Op * Gen FileOperationResult :=
  match paths os args with
  | Raise e => ([], Throw e)
  | Ok (source_path, dest_path) =>
      match run_body os args source_path dest_path [] with
      | (log, Raise e) =>
          (log, Throw (Exn ToolError ("File operation failed: " +:+ exn_msg e)))
      | (log, Ok msg) =>
          (log, Yield (mkFileOperationResult (fo_action args) msg) Stop)
      end
  end.

Definition known_actions : list string := ["delete"; "move"; "copy"; "mkdir"].

(** a machine on which every path exists as a file and nothing fails *)
Definition plain_os : OS :=
  mkOS (fun p => Ok p) (fun p => Ok ("/work/" +:+ p)) (fun p => p +:+ "/..")
       (fun _ _ => Ok true) (fun _ _ => Ok false) (fun _ _ => None).

End FileOps.

(** ** [load_dotenv_values] ([core/config.py]) *)

Module Dotenv.

(** What the function meets outside: whether [env_path] is a file or a
    FIFO, the items of the dict that python-dotenv's [dotenv_values] parses
    from it, or the exception it raises, and the exception, if any, with which
    the mapping refuses an item ([os.environ] refuses some names). *)
Record Outside := mkOutside {
  is_file : bool;
  is_fifo : bool;
  dotenv_values : result (list (string * option string));
  refuses : string -> string -> option exn }.

(** the loop over [env_vars.items()]; the mapping is returned as it is when
    the loop ends or is left by an exception *)
Fixpoint update_loop (refuses : string -> string -> option exn)
    (items : list (string * option string)) (environ : gmap string string)
  : gmap string string * option exn :=
  match items with
  | [] => (environ, None)
  | (key, value) :: rest =>
      if negb (PyStr.truthy (default "" value)) then update_loop refuses rest environ
      else
        match refuses key (default "" value) with
        | Some e => (environ, Some e)
        | None => update_loop refuses rest (<[key := default "" value]> environ)
        end
  end.

Definition load_dotenv_values (outside : Outside) (environ : gmap string string)
  : gmap string string * option exn :=
  if negb (is_file outside) && negb (is_fifo outside) then (environ, None)
  else
    match dotenv_values outside with
    | Raise e => (environ, Some e)
    | Ok env_vars => update_loop (refuses outside) env_vars environ
    end.

(** the last value that the items give to a key, empty values passed over *)
Fixpoint last_value (items : list (string * option string)) (key : string)
  : option string :=
  match items with
  | [] => None
  | (k, value) :: rest =>
      match last_value rest key with
      | Some v => Some v
      | None => if bool_decide (k = key) && PyStr.truthy (default "" value)
                then value else None
      end
  end.

(** a [.env] file with a key for the sample configuration *)
Definition sample_outside : Outside :=
  mkOutside true false
            (Ok [("MISTRAL_API_KEY", Some "mock"); ("EMPTY", Some ""); ("BARE", None)])
            (fun _ _ => None).

(** the sample configuration, validated, and an environment without its
    key *)
Definition sample_cfg : Config.HacxgentConfig :=
  Config.mkHacxgentConfig "hacxgent-cli-latest" "cli"
    [Config.mkProviderConfig "hacxgent" "https://api.hacxgent.ai/v1" "MISTRAL_API_KEY"]
    [Config.mkModelConfig "hacxgent-cli-latest" "hacxgent" "hacxgent-cli-latest" 0 0].

Definition bare_env : Config.Env := Config.mkEnv ∅ (fun _ => None) (fun _ => None).

End Dotenv.

(** ** Lines of a text, without their ends *)

Module Text.
Import Tools.

(** [s.splitlines()] *)
Fixpoint splitlines_from (cur s : string) : list string :=
  match s with
  | "" => if PyStr.truthy cur then [cur] else []
  | String c rest =>
      if Ascii.eqb c carriage_return then
        match rest with
        | String d rest' =>
            if Ascii.eqb d newline then cur :: splitlines_from "" rest'
            else cur :: splitlines_from "" rest
        | "" => [cur]
        end
      else if is_line_boundary c then cur :: splitlines_from "" rest
      else splitlines_from (cur +:+ String c "") rest
  end.

Definition splitlines (s : string) : list string := splitlines_from "" s.

(** [sep.join(items)] *)
Fixpoint join_with (sep : string) (items : list string) : string :=
  match items with
  | [] => ""
  | [x] => x
  | x :: rest => x +:+ sep +:+ join_with sep rest
  end.

(** [s[pos:]] for [0 <= pos] *)
Fixpoint drop_chars (pos : nat) (s : string) : string :=
  match pos, s with
  | S pos', String _ rest => drop_chars pos' rest
  | _, _ => s
  end.

End Text.

(** ** The file map tool ([core/tools/builtins/file_meta.py]) *)

Module FileMeta.
Import Tools Text.

Inductive FileSymbol :=
  mkFileSymbol (name type : string) (start_line end_line : Z) (children : list FileSymbol).

Definition sym_name (s : FileSymbol) : string := let 'mkFileSymbol n _ _ _ _ := s in n.
Definition sym_type (s : FileSymbol) : string := let 'mkFileSymbol _ t _ _ _ := s in t.
Definition sym_start_line (s : FileSymbol) : Z := let 'mkFileSymbol _ _ l _ _ := s in l.
Definition sym_end_line (s : FileSymbol) : Z := let 'mkFileSymbol _ _ _ l _ := s in l.
Definition sym_children (s : FileSymbol) : list FileSymbol :=
  let 'mkFileSymbol _ _ _ _ c := s in c.

Record FileMetaArgs := mkFileMetaArgs { fm_file_path : string }.

Record FileMetaResult := mkFileMetaResult {
  fmr_file_path : string;
  fmr_total_lines : Z;
  fmr_symbols : list FileSymbol }.

(** *** [_parse_generic]

    Each of the four patterns is anchored at the start of the line and is
    matched from there by [search]; none of them can match in two ways, so a
    pattern is a function from the line to the name it captures. *)

(** [\s*] *)
Definition skip_ws (s : string) : string := PyStr.lstrip_by PyStr.isspace s.

Fixpoint drop_prefix (p s : string) : option string :=
  match p with
  | "" => Some s
  | String a p' =>
      match s with
      | "" => None
      | String b s' => if Ascii.eqb a b then drop_prefix p' s' else None
      end
  end.

(** [kw\s+]: the rest of the line after the keyword and the white space *)
Definition keyword (kw s : string) : option string :=
  match drop_prefix kw s with
  | Some (String c r) => if PyStr.isspace c then Some (skip_ws r) else None
  | _ => None
  end.

(** [(?:kw\s+)?] *)
Definition optional (kw s : string) : string := default s (keyword kw s).

(** [[a-zA-Z0-9_]] *)
Definition is_word_char (c : ascii) : bool :=
  PyStr.in_range 97 122 c || PyStr.in_range 65 90 c || PyStr.in_range 48 57 c
  || (PyStr.code c =? 95)%N.

Fixpoint take_word (s : string) : string :=
  match s with
  | "" => ""
  | String c r => if is_word_char c then String c (take_word r) else ""
  end.

(** [([a-zA-Z0-9_]+)] *)
Definition group_1 (rest : option string) : option string :=
  match rest with
  | Some r => if PyStr.truthy (take_word r) then Some (take_word r) else None
  | None => None
  end.

Definition function_pattern (line : string) : option string :=
  group_1 (keyword "function" (optional "async" (optional "export" (skip_ws line)))).
Definition class_pattern (line : string) : option string :=
  group_1 (keyword "class" (optional "export" (skip_ws line))).
Definition fn_pattern (line : string) : option string :=
  group_1 (keyword "fn" (optional "pub" (skip_ws line))).
Definition def_pattern (line : string) : option string :=
  group_1 (keyword "def" (skip_ws line)).

Definition patterns : list ((string -> option string) * string) :=
  [ (function_pattern, "function"); (class_pattern, "class");
    (fn_pattern, "function"); (def_pattern, "function") ].

(** the inner loop with its [break]: the first pattern that matches *)
Fixpoint first_match (patterns : list ((string -> option string) * string))
    (line : string) : option (string * string) :=
  match patterns with
  | [] => None
  | (pattern, sym_type) :: rest =>
      match pattern line with
      | Some name => Some (name, sym_type)
      | None => first_match rest line
      end
  end.

(** the outer loop over [enumerate(lines, i)] *)
Fixpoint parse_generic_from (i : Z) (lines : list string) : list FileSymbol :=
  match lines with
  | [] => []
  | line :: rest =>
      match first_match patterns line with
      | Some (name, sym_type) =>
          mkFileSymbol name sym_type i i [] :: parse_generic_from (i + 1) rest
      | None => parse_generic_from (i + 1) rest
      end
  end.

Definition _parse_generic (lines : list string) : list FileSymbol :=
  parse_generic_from 1 lines.

(** *** [_parse_python]

    The tree that [ast.parse] builds: a node is a function, async function or
    class definition with its name and lines, or another node; both have
    their child nodes in the order of [ast.iter_child_nodes]. *)

Inductive DefKind := FunctionDef | AsyncFunctionDef | ClassDef.

Inductive Node :=
| Def (kind : DefKind) (name : string) (lineno : Z) (end_lineno : option Z)
      (children : list Node)
| Other (children : list Node).

Definition child_nodes (node : Node) : list Node :=
  match node with
  | Def _ _ _ _ children => children
  | Other children => children
  end.

Definition symbol_type (kind : DefKind) : string :=
  match kind with ClassDef => "class" | _ => "function" end.

Fixpoint get_symbols (node : Node) : list FileSymbol :=
  (fix loop (children : list Node) : list FileSymbol :=
     match children with
     | [] => []
     | child :: rest =>
         match child with
         | Def kind name lineno end_lineno _ =>
             mkFileSymbol name (symbol_type kind) lineno (default lineno end_lineno)
                          (get_symbols child)
             :: loop rest
         | Other _ => loop rest
         end
     end) (child_nodes node).

(** what [ast.parse] does with a text *)
Inductive Parsed :=
| Tree (module : Node)
| SyntaxError
| Failed (e : exn).

Definition _parse_python (ast_parse : string -> Parsed) (content : string)
  : result (list FileSymbol) :=
  match ast_parse content with
  | Tree tree => Ok (get_symbols tree)
  | SyntaxError => Ok []
  | Failed e => Raise e
  end.

(** *** [FileMeta.run]; [suffix] is [Path.suffix] *)

Definition run (ast_parse : string -> Parsed) (suffix : string -> string) (fs : FS)
    (args : FileMetaArgs) : Gen FileMetaResult :=
  after
    (let! path := resolve_path fs (fm_file_path args) in
     let! found := path_exists fs path in
     if negb found then Raise (Exn ToolError ("File not found: " +:+ fm_file_path args))
     else
       let! is_file := path_is_file fs path in
       if negb is_file
       then Raise (Exn ToolError ("Path is not a file: " +:+ fm_file_path args))
       else
         match read_text fs path with
         | Raise e => Raise (Exn ToolError ("Error reading file: " +:+ exn_msg e))
         | Ok content =>
             let lines := splitlines content in
             let! symbols :=
               if String.eqb (suffix path) ".py" then _parse_python ast_parse content
               else Ok (_parse_generic lines) in
             Ok (mkFileMetaResult path (Z.of_nat (length lines)) symbols)
         end)
    (fun result => Yield result Stop).

(** a symbol of a list, or of the children of one, at any depth *)
Inductive within : FileSymbol -> list FileSymbol -> Prop :=
| within_here (s : FileSymbol) (l : list FileSymbol) : s ∈ l -> within s l
| within_below (s parent : FileSymbol) (l : list FileSymbol) :
    parent ∈ l -> within s (sym_children parent) -> within s l.

Definition is_def (node : Node) : bool :=
  match node with Def _ _ _ _ _ => true | Other _ => false end.

(** the symbol that [get_symbols] makes of a definition *)
Definition symbol_of (node : Node) : option FileSymbol :=
  match node with
  | Def kind name lineno end_lineno _ =>
      Some (mkFileSymbol name (symbol_type kind) lineno (default lineno end_lineno)
                         (get_symbols node))
  | Other _ => None
  end.

(** a definition below a node with nothing but definitions in between *)
Inductive reaches : Node -> Node -> Prop :=
| reaches_child (root d : Node) :
    d ∈ child_nodes root -> is_def d = true -> reaches root d
| reaches_below (root mid d : Node) :
    mid ∈ child_nodes root -> is_def mid = true -> reaches mid d -> reaches root d.

(** [s[n]] *)
Fixpoint nth_char (n : nat) (s : string) : option ascii :=
  match s, n with
  | "", _ => None
  | String c _, O => Some c
  | String _ r, S n' => nth_char n' r
  end.

(** a module with a class, a method in it, and a function under an [if] *)
Definition sample_tree : Node :=
  Other [ Def ClassDef "Agent" 1 (Some 3) [Def FunctionDef "run" 2 (Some 3) [Other []]];
          Other [Def FunctionDef "hidden" 5 (Some 6) []] ].

Definition sample_parse (content : string) : Parsed := Tree sample_tree.

End FileMeta.

(** ** Start-up: loading the configuration or asking for one
    ([cli/cli.py], [setup/onboarding/__init__.py]) *)

Module Startup.
Import Config.

(** What [HacxgentConfig.load()] reads: the environment, and the settings
    that the sources hand over, or the exception with which reading them
    fails. *)
Record World := mkWorld {
  w_env : Env;
  w_settings : result RawConfig }.

(** [HacxgentConfig.load()] *)
Definition load_in (w : World) : result HacxgentConfig :=
  let! raw := w_settings w in
  load (w_env w) raw.

(** how a function that may call [sys.exit] ends *)
Inductive Outcome (A : Type) :=
| Returns (a : A)
| Exits (code : Z)
| Raises (e : exn).
Arguments Returns {A} a.
Arguments Exits {A} code.
Arguments Raises {A} e.

(** what [run_onboarding] prints before it returns *)
Inductive Notice :=
| SaveWarning (err : string)
| SetupComplete
| Nothing.

Definition save_error_prefix : string := "save_error:".

(** [s.removeprefix(p)] *)
Definition removeprefix (p s : string) : string :=
  if PyStr.starts_with p s then Text.drop_chars (String.length p) s else s.

(** [run_onboarding]; [app_run] is [(app or OnboardingApp()).run()], which
    may change what a later load reads *)
Definition run_onboarding (app_run : World -> World * result (option string))
    (w : World) : World * Outcome Notice :=
  let '(w', result) := app_run w in
  match result with
  | Raise e => (w', Raises e)
  | Ok None => (w', Exits 0)
  | Ok (Some s) =>
      if PyStr.starts_with save_error_prefix s
      then (w', Returns (SaveWarning (removeprefix save_error_prefix s)))
      else if String.eqb s "completed" then (w', Returns SetupComplete)
      else (w', Returns Nothing)
  end.

(** the classes that the first [except] clause of [load_config_or_exit]
    names, with their subclasses *)
Definition sent_to_onboarding (c : exc_class) : bool :=
  match c with
  | MissingAPIKeyError | ValueError | ValidationError => true
  | _ => false
  end.

Definition load_config_or_exit (app_run : World -> World * result (option string))
    (w : World) : World * Outcome HacxgentConfig :=
  match (let! config := load_in w in
         let! _ := get_active_model config in
         Ok config) with
  | Ok config => (w, Returns config)
  | Raise e =>
      if sent_to_onboarding (exn_class e) then
        match run_onboarding app_run w with
        | (w', Returns _) =>
            (w', match load_in w' with
                 | Ok config => Returns config
                 | Raise e' => Raises e'
                 end)
        | (w', Exits code) => (w', Exits code)
        | (w', Raises e') => (w', Raises e')
        end
      else (w, Exits 1)
  end.

(** a first run: no key in the environment; the set-up supplies it *)
Definition first_run : World :=
  mkWorld (mkEnv ∅ (builtin_prompt sample_env) (prompt_file sample_env)) (Ok sample_raw).

Definition setup_supplies_key (w : World) : World * result (option string) :=
  (mkWorld sample_env (w_settings w), Ok (Some "completed")).

End Startup.

(** ** The set-up screen ([setup/onboarding/screens/setup.py]) *)

Module Onboarding.
Import Config.

(** the values of the seven input fields *)
Record Inputs := mkInputs {
  in_provider_name : string;
  in_api_base : string;
  in_api_key : string;
  in_model_name : string;
  in_model_alias : string;
  in_rate_limit : string;
  in_max_tokens : string }.

(** the dict handed to [save_updates]; a dumped model is kept as the model *)
Record Updates := mkUpdates {
  up_active_model : string;
  up_providers : list ProviderConfig;
  up_models : list ModelConfig;
  up_auto_compact_threshold : Z }.

(** What [process_setup] calls: [int(s)] ([None] for its [ValueError]),
    [s.upper()], and the exceptions, if any, of [save_updates], of the
    assignment to [os.environ] and of [_save_to_env_file]. *)
Record Outside := mkOutside {
  int_of : string -> option Z;
  upper : string -> string;
  save_updates_error : Updates -> option exn;
  setenv_error : string -> string -> option exn;
  save_to_env_file_error : string -> string -> option exn }.

Inductive Ending :=
| Feedback (message : string)
| AppExit (result : string)
| Crash (e : exn).

(** what a call leaves behind: the updates passed to [save_updates], the
    environment, whether [_save_to_env_file] was called, and how it ended *)
Record Effects := mkEffects {
  updates_passed : option Updates;
  environ_after : gmap string string;
  env_file_called : bool;
  ending : Ending }.

(** [OSError] and its subclasses *)
Definition is_os_error (c : exc_class) : bool :=
  match c with
  | OSError | FileNotFoundError | PermissionError => true
  | _ => false
  end.

Definition process_setup (o : Outside) (inputs : Inputs) (environ : gmap string string)
  : Effects :=
  let provider_name := PyStr.or_else (PyStr.strip (in_provider_name inputs)) "OpenAI" in
  let api_base :=
    PyStr.or_else (PyStr.strip (in_api_base inputs)) "https://api.openai.com/v1" in
  let api_key := PyStr.strip (in_api_key inputs) in
  let model_name := PyStr.or_else (PyStr.strip (in_model_name inputs)) "gpt-4o" in
  let model_alias := PyStr.or_else (PyStr.strip (in_model_alias inputs)) "default" in
  let rate_limit := PyStr.or_else (PyStr.strip (in_rate_limit inputs)) "0" in
  let max_tokens := PyStr.or_else (PyStr.strip (in_max_tokens inputs)) "0" in
  if negb (PyStr.truthy api_key)
  then mkEffects None environ false (Feedback "[red]API Key is required.[/]")
  else
    match int_of o rate_limit, int_of o max_tokens with
    | Some rl, Some mt =>
        let api_key_env := upper o provider_name +:+ "_API_KEY" in
        let provider :=
          mkProviderConfig (PyStr.lower provider_name) api_base api_key_env in
        let model :=
          mkModelConfig model_name (PyStr.lower provider_name) model_alias rl mt in
        let updates :=
          mkUpdates model_alias [provider] [model] (if (0 <? mt)%Z then mt else 200000) in
        match save_updates_error o updates with
        | Some e => mkEffects (Some updates) environ false (Crash e)
        | None =>
            match setenv_error o api_key_env api_key with
            | Some e => mkEffects (Some updates) environ false (Crash e)
            | None =>
                let environ := <[api_key_env := api_key]> environ in
                match save_to_env_file_error o api_key_env api_key with
                | Some err =>
                    if is_os_error (exn_class err)
                    then mkEffects (Some updates) environ true
                                   (AppExit ("save_error:" +:+ exn_msg err))
                    else mkEffects (Some updates) environ true (Crash err)
                | None => mkEffects (Some updates) environ true (AppExit "completed")
                end
            end
        end
    | _, _ =>
        mkEffects None environ false
                  (Feedback "[red]Rate limit and Max tokens must be numbers.[/]")
    end.

(** a machine that reads plain digits, where nothing fails *)
Fixpoint digits_value (acc : Z) (s : string) : option Z :=
  match s with
  | "" => Some acc
  | String c r =>
      if PyStr.in_range 48 57 c
      then digits_value (10 * acc + Z.of_N (PyStr.code c) - 48) r
      else None
  end.

Fixpoint upper_letters (s : string) : string :=
  match s with
  | "" => ""
  | String c r =>
      String (if PyStr.in_range 97 122 c then ascii_of_N (PyStr.code c - 32) else c)
             (upper_letters r)
  end.

Definition plain_outside : Outside :=
  mkOutside (fun s => if PyStr.truthy s then digits_value 0 s else None)
            upper_letters (fun _ => None) (fun _ _ => None) (fun _ _ => None).

Definition sample_inputs : Inputs :=
  mkInputs "" "" " sk-demo " "" "" "30" "".

End Onboarding.

(** ** Merging updates into the stored settings ([deep_merge] in
    [HacxgentConfig.save_updates], [core/config.py])

    A dict is the list of its items, in insertion order. *)

Module Settings.
Import Prepared.

(** [target[key] = value]: in place for a key that is there, at the end for
    a new one *)
Fixpoint dict_set (d : list (string * jval)) (key : string) (value : jval)
  : list (string * jval) :=
  match d with
  | [] => [(key, value)]
  | (k, v) :: rest =>
      if bool_decide (k = key) then (k, value) :: rest
      else (k, v) :: dict_set rest key value
  end.

(** lists and dicts cannot be members of a set *)
Definition hashable (v : jval) : bool :=
  match v with
  | JList _ | JDict _ => false
  | _ => true
  end.

(** [a == b] for two hashable values; [True == 1] and [False == 0] *)
Definition py_eq (a b : jval) : bool :=
  match a, b with
  | JNull, JNull => true
  | JBool x, JBool y => Bool.eqb x y
  | JInt x, JInt y => (x =? y)%Z
  | JStr x, JStr y => String.eqb x y
  | JBool x, JInt y | JInt y, JBool x => (y =? (if x then 1 else 0))%Z
  | _, _ => false
  end.

(** the members of [set(l)]: of equal values the first one stays *)
Fixpoint set_members (seen l : list jval) : list jval :=
  match l with
  | [] => seen
  | x :: rest =>
      if existsb (py_eq x) seen then set_members seen rest
      else set_members (seen ++ [x]) rest
  end.

Section DeepMerge.
(** the order in which a set hands out its members *)
Variable set_order : list jval -> list jval.

(** the [elif] branch for two lists; [None] stands for the [TypeError] of
    [set] on a member that is not hashable *)
Definition merge_lists (key : string) (value target_list : list jval) : option jval :=
  if bool_decide (key = "providers") || bool_decide (key = "models")
  then Some (JList value)
  else if forallb hashable (value ++ target_list)
       then Some (JList (set_order (set_members [] (value ++ target_list))))
       else None.

(** one round of the loop, given what the nested call does *)
Definition merge_entry (nested : jval -> list (string * jval) -> option (list (string * jval)))
    (target : list (string * jval)) (key : string) (value : jval)
  : option (list (string * jval)) :=
  match dict_get target key, value with
  | Some (JDict t), JDict _ =>
      match nested value t with
      | Some t' => Some (dict_set target key (JDict t'))
      | None => None
      end
  | Some (JList tl), JList vl =>
      match merge_lists key vl tl with
      | Some merged => Some (dict_set target key merged)
      | None => None
      end
  | _, _ => Some (dict_set target key value)
  end.

(** [deep_merge(target, source)] for a [source] that is a dict; the merged
    target is returned *)
Fixpoint deep_merge (source : jval) (target : list (string * jval)) {struct source}
  : option (list (string * jval)) :=
  match source with
  | JDict items =>
      (fix loop (items : list (string * jval)) (target : list (string * jval))
         : option (list (string * jval)) :=
         match items with
         | [] => Some target
         | (key, value) :: rest =>
             match merge_entry deep_merge target key value with
             | Some target' => loop rest target'
             | None => None
             end
         end) items target
  | _ => Some target
  end.

End DeepMerge.

(** the loop of [deep_merge], round by round *)
Fixpoint merge_items
    (entry : list (string * jval) -> string -> jval -> option (list (string * jval)))
    (items target : list (string * jval)) : option (list (string * jval)) :=
  match items with
  | [] => Some target
  | (key, value) :: rest =>
      match entry target key value with
      | Some target' => merge_items entry rest target'
      | None => None
      end
  end.

(** [key in d] *)
Definition has_key (d : list (string * jval)) (key : string) : bool :=
  match dict_get d key with Some _ => true | None => false end.

(** both values are dicts, or both are lists *)
Definition same_container (a b : jval) : bool :=
  match a, b with
  | JDict _, JDict _ | JList _, JList _ => true
  | _, _ => false
  end.

(** stored settings and the updates of the set-up screen *)
Definition stored_settings : list (string * jval) :=
  [ ("active_model", JStr "old");
    ("enabled_tools", JList [JStr "grep"]);
    ("models", JList [JDict [("name", JStr "old")]]);
    ("session_logging", JDict [("enabled", JBool true); ("save_dir", JStr "")]) ].

Definition setup_updates : list (string * jval) :=
  [ ("active_model", JStr "default");
    ("providers", JList [JDict [("name", JStr "openai")]]);
    ("models", JList [JDict [("name", JStr "gpt-4o")]]);
    ("auto_compact_threshold", JInt 200000) ].

End Settings.

(** ** The save-point tool ([core/tools/builtins/context_snapshot.py])

    As for the file management tool, the file tree is known by the
    operations attempted so far. The tool handles no exception: what a
    probe or an operation raises leaves the generator as it is. *)

Module Snapshot.

Inductive Op :=
| MkdirExistOk (path : string)
| MkdirParents (path : string)
| Rmtree (path : string)
| Copytree (src dst : string) (ignore : list string)
| Copy2 (src dst : string).

Record World := mkWorld {
  (** [Path.cwd()] and [p / name] *)
  cwd : string;
  join : string -> string -> string;
  (** [p.exists()], [p.is_dir()] and the names that [p.iterdir()] gives,
      after the operations made so far *)
  path_exists : list Op -> string -> result bool;
  path_is_dir : list Op -> string -> result bool;
  iterdir : list Op -> string -> result (list string);
  (** the exception that an operation raises after those made so far *)
  op_error : list Op -> Op -> option exn }.

Record SnapshotArgs := mkSnapshotArgs {
  sn_action : string;
  sn_name : option string }.

Record SnapshotResult := mkSnapshotResult {
  sr_action : string;
  sr_name : string;
  sr_message : string }.

(** how the generator ends: with its one result, with an exception, or with
    the [TypeError] of [snapshot_dir / None] *)
Inductive Ending :=
| Yields (result : SnapshotResult)
| Raises (e : exn)
| RaisesTypeError.

(** what stops the statements before the [yield]: an exception object, or
    that [TypeError] *)
Inductive Failure :=
| Raised (e : exn)
| TypeError.

Inductive Step (A : Type) :=
| Go (a : A)
| End (failure : Failure).
Arguments Go {A} a.
Arguments End {A} failure.

(** statements that read and extend the history and may end the run *)
Definition M (A : Type) : Type := list Op -> list Op * Step A.

Definition ret {A} (a : A) : M A := fun log => (log, Go a).
Definition finish {A} (failure : Failure) : M A := fun log => (log, End failure).
Definition mbind {A B} (m : M A) (k : A -> M B) : M B :=
  fun log =>
    match m log with
    | (log', Go a) => k a log'
    | (log', End failure) => (log', End failure)
    end.

Notation "'do!' x ':=' m 'in' k" := (mbind m (fun x => k))
  (at level 10, x name, m at level 100, k at level 200).

Definition probe {A} (answer : list Op -> string -> result A) (path : string) : M A :=
  fun log => (log, match answer log path with
                   | Ok a => Go a
                   | Raise e => End (Raised e)
                   end).

Definition perform (w : World) (op : Op) : M unit :=
  fun log => (log ++ [op], match op_error w log op with
                           | Some e => End (Raised e)
                           | None => Go tt
                           end).

Definition snapshot_dir (w : World) : string :=
  join w (join w (cwd w) ".hacx") "snapshots".

Definition ignore_patterns : list string :=
  [".git"; ".hacx"; "node_modules"; "pycache"; "venv"].

Definition skipped_names : list string :=
  [".git"; ".hacx"; "node_modules"; "__pycache__"].

(** the loop of [create] over the entries of the project root *)
Fixpoint copy_project (w : World) (project_root target_dir : string)
    (names : list string) : M unit :=
  match names with
  | [] => ret tt
  | name :: rest =>
      if bool_decide (name ∈ skipped_names)
      then copy_project w project_root target_dir rest
      else
        do! is_dir := probe (path_is_dir w) (join w project_root name) in
        do! _ := perform w (if is_dir
                            then Copytree (join w project_root name)
                                          (join w target_dir name) ignore_patterns
                            else Copy2 (join w project_root name) target_dir) in
        copy_project w project_root target_dir rest
  end.

(** the loop of [restore] over the entries of the snapshot *)
Fixpoint restore_project (w : World) (project_root target_dir : string)
    (names : list string) : M unit :=
  match names with
  | [] => ret tt
  | name :: rest =>
      do! is_dir := probe (path_is_dir w) (join w project_root name) in
      do! _ :=
        (if is_dir
         then do! _ := perform w (Rmtree (join w project_root name)) in
              perform w (Copytree (join w target_dir name) (join w project_root name) [])
         else perform w (Copy2 (join w target_dir name) (join w project_root name))) in
      restore_project w project_root target_dir rest
  end.

(** the comprehension of [list]: the entries that are directories *)
Fixpoint directories (w : World) (dir : string) (names : list string) : M (list string) :=
  match names with
  | [] => ret []
  | name :: rest =>
      do! is_dir := probe (path_is_dir w) (join w dir name) in
      do! found := directories w dir rest in
      ret (if is_dir then name :: found else found)
  end.

(** the statements after [snapshot_dir.mkdir(parents=True, exist_ok=True)] *)
Definition with_snapshot_dir (w : World) (args : SnapshotArgs) : M SnapshotResult :=
  match sn_name args with
  | None => finish TypeError
  | Some name =>
      let target_dir := join w (snapshot_dir w) name in
      let project_root := cwd w in
      if String.eqb (sn_action args) "create" then
        do! found := probe (path_exists w) target_dir in
        do! _ := (if found then perform w (Rmtree target_dir) else ret tt) in
        do! _ := perform w (MkdirParents target_dir) in
        do! names := probe (iterdir w) project_root in
        do! _ := copy_project w project_root target_dir names in
        ret (mkSnapshotResult "create" name ("Created snapshot '" +:+ name +:+ "'"))
      else if String.eqb (sn_action args) "restore" then
        do! found := probe (path_exists w) target_dir in
        if negb found
        then finish (Raised (Exn ToolError ("Snapshot '" +:+ name +:+ "' does not exist.")))
        else
          do! names := probe (iterdir w) target_dir in
          do! _ := restore_project w project_root target_dir names in
          ret (mkSnapshotResult "restore" name
                                ("Restored from snapshot '" +:+ name +:+ "'"))
      else if String.eqb (sn_action args) "list" then
        do! names := probe (iterdir w) (snapshot_dir w) in
        do! snapshots := directories w (snapshot_dir w) names in
        ret (mkSnapshotResult "list" ""
               ("Snapshots available: "
                +:+ PyStr.or_else (Text.join_with ", " snapshots) "None"))
      else finish (Raised (Exn ToolError ("Unknown action: " +:+ sn_action args)))
  end.

Definition run_body (w : World) (args : SnapshotArgs) : M SnapshotResult :=
  do! _ := perform w (MkdirExistOk (snapshot_dir w)) in
  with_snapshot_dir w args.

(** [ContextSnapshot.run]: the operations attempted and the ending *)
Definition run (w : World) (args : SnapshotArgs) : list Op * Ending :=
  match run_body w args [] with
  | (log, Go result) => (log, Yields result)
  | (log, End (Raised e)) => (log, Raises e)
  | (log, End TypeError) => (log, RaisesTypeError)
  end.

(** the source of a copy, the path that an operation removes *)
Definition copied_from (op : Op) : option string :=
  match op with
  | Copytree src _ _ | Copy2 src _ => Some src
  | _ => None
  end.

Definition removed (op : Op) : option string :=
  match op with Rmtree path => Some path | _ => None end.

(** statements that only add to the history *)
Definition grows {A} (m : M A) : Prop :=
  forall log log' step, m log = (log', step) -> exists ops, log' = log ++ ops.

(** no operation of a history failed *)
Definition succeeded (w : World) (log : list Op) : Prop :=
  forall before op rest, log = before ++ op :: rest -> op_error w before op = None.

(** a project with a source directory, a file and a [.git] directory, where
    nothing fails and no snapshot exists *)
Definition plain_world : World :=
  mkWorld "/work" (fun p name => p +:+ "/" +:+ name)
          (fun _ _ => Ok false)
          (fun _ p => Ok (bool_decide (p = "/work/src") || bool_decide (p = "/work/.git")))
          (fun _ p => Ok (if bool_decide (p = "/work") then ["src"; ".git"; "README.md"]
                          else []))
          (fun _ _ => None).

(** [p / name] as pathlib works it out for an empty name, an absolute name
    and a plain name *)
Definition posix_join (p name : string) : string :=
  if negb (PyStr.truthy name) then p
  else if PyStr.starts_with "/" name then name
  else p +:+ "/" +:+ name.

(** the same project with that [/], after an earlier run has made the
    snapshot directory *)
Definition posix_world : World :=
  mkWorld "/work" posix_join
          (fun _ p => Ok (bool_decide (p = "/work/.hacx/snapshots")))
          (fun _ p => Ok (bool_decide (p = "/work/src") || bool_decide (p = "/work/.git")))
          (fun _ p => Ok (if bool_decide (p = "/work") then ["src"; ".git"; "README.md"]
                          else []))
          (fun _ _ => None).

End Snapshot.

(** ** The banner's animation ([cli/textual_ui/widgets/banner/banner.py])

    Of the widget tree only the children of the banner container with the
    id [banner-animation] are kept, by their class; removing a widget and
    mounting one are taken to succeed. *)

Module Banner.

Inductive AnimationType := MATRIX | CAT | NONE.

Global Instance AnimationType_eq_dec : EqDecision AnimationType.
Proof. solve_decision. Defined.

Inductive WidgetClass := MatrixRain | PetitChat.

(** [ANIMATION_REGISTRY.get(animation)] *)
Definition ANIMATION_REGISTRY (animation : AnimationType) : option WidgetClass :=
  match animation with
  | MATRIX => Some MatrixRain
  | CAT => Some PetitChat
  | NONE => None
  end.

Record Banner := mkBanner {
  (** [self.state.animation] *)
  animation : AnimationType;
  (** the widgets that [query("#banner-animation")] finds, in order *)
  animation_widgets : list WidgetClass }.

(** [compose] followed by [on_mount], for the animation of the
    configuration *)
Definition compose (configured : AnimationType) : Banner :=
  mkBanner configured
           (match ANIMATION_REGISTRY configured with
            | Some anim_class => [anim_class]
            | None => []
            end).

(** [update_animation]; [query_one] raises when it finds nothing, which the
    [try] swallows *)
Definition update_animation (self : Banner) (new : AnimationType) : Banner :=
  if decide (animation self = new) then self
  else
    let remaining :=
      match animation_widgets self with
      | old_anim :: others => others
      | [] => []
      end in
    match ANIMATION_REGISTRY new with
    | Some anim_class => mkBanner new (anim_class :: remaining)
    | None => mkBanner new remaining
    end.

(** [set_state] with a configuration: the state is replaced, the widgets
    are not touched *)
Definition set_state (self : Banner) (configured : AnimationType) : Banner :=
  mkBanner configured (animation_widgets self).

(** what the banner shows agrees with its state *)
Definition in_step (self : Banner) : Prop :=
  animation_widgets self
  = match ANIMATION_REGISTRY (animation self) with
    | Some anim_class => [anim_class]
    | None => []
    end.

End Banner.

(** ** The backend's client ([UniversalBackend._get_client],
    [core/llm/backend/universal.py]) *)

Module ClientCache.
Import Config.

Section Client.
(** the class [Client] of the API package: its objects, and its constructor
    with the arguments [api_key], [base_url] and [timeout] *)
Variable Client : Type.
Variable new_client : option string -> string -> Q -> result Client.

Record UniversalBackend := mkUniversalBackend {
  _provider : ProviderConfig;
  _timeout : Q;
  _client : option Client }.

(** [UniversalBackend(provider, timeout)] *)
Definition __init__ (provider : ProviderConfig) (timeout : Q) : UniversalBackend :=
  mkUniversalBackend provider timeout None.

(** [_get_client] in an environment: the client, and the backend afterwards *)
Definition _get_client (environ : gmap string string) (self : UniversalBackend)
  : result Client * UniversalBackend :=
  match _client self with
  | Some client => (Ok client, self)
  | None =>
      let api_key :=
        if PyStr.truthy (pc_api_key_env_var (_provider self))
        then environ !! pc_api_key_env_var (_provider self)
        else Some "" in
      match new_client api_key (pc_api_base (_provider self)) (_timeout self) with
      | Ok client =>
          (Ok client, mkUniversalBackend (_provider self) (_timeout self) (Some client))
      | Raise e => (Raise e, self)
      end
  end.

(** one call after the other, each in the environment of its time *)
Fixpoint calls (self : UniversalBackend) (environs : list (gmap string string))
  : list (result Client) :=
  match environs with
  | [] => []
  | environ :: rest =>
      let '(r, self') := _get_client environ self in
      r :: calls self' rest
  end.

End Client.

(** a client that keeps its arguments *)
Definition plain_client (api_key : option string) (base_url : string) (timeout : Q)
  : result (option string * string) := Ok (api_key, base_url).

End ClientCache.

(** ** The impact tool ([core/tools/builtins/impact_analyzer.py]) *)

Module Impact.
Import Tools Text.

Record ImpactArgs := mkImpactArgs {
  ia_symbol : string;
  ia_ignore_paths : list string }.

Record ImpactReference := mkImpactReference {
  ir_file_path : string;
  ir_line_number : Z;
  ir_context : string }.

Record ImpactResult := mkImpactResult {
  ires_symbol : string;
  ires_references : list ImpactReference }.

(** One path of [project_root.rglob("*")], with what the calls on it give:
    [str(file)], [file.is_file()], [file.stat().st_size], the text that
    [read_text] decodes, and [str(file.relative_to(project_root))]. *)
Record Entry := mkEntry {
  en_path : string;
  en_is_file : result bool;
  en_size : result Z;
  en_text : result string;
  en_relative : result string }.

(** [sub in s] *)
Fixpoint contains (sub s : string) : bool :=
  PyStr.starts_with sub s
  || match s with
     | "" => false
     | String _ rest => contains sub rest
     end.

(** the class [\w] of a pattern on text: letters, digits and the
    underscore, on the code points 0..255 *)
Definition is_word (c : ascii) : bool :=
  PyStr.in_range 48 57 c || PyStr.in_range 65 90 c || PyStr.in_range 97 122 c
  || (PyStr.code c =? 95)%N
  || (PyStr.code c =? 170)%N || (PyStr.code c =? 178)%N || (PyStr.code c =? 179)%N
  || (PyStr.code c =? 181)%N || (PyStr.code c =? 185)%N || (PyStr.code c =? 186)%N
  || PyStr.in_range 188 190 c || PyStr.in_range 192 214 c
  || PyStr.in_range 216 246 c || PyStr.in_range 248 255 c.

Definition word (c : option ascii) : bool :=
  match c with Some c => is_word c | None => false end.

(** [\b] between two neighbours; [None] is an end of the line *)
Definition boundary (before after : option ascii) : bool :=
  xorb (word before) (word after).

(** the character before the end of a match of [symbol] that starts after
    [prev] *)
Definition last_before (prev : option ascii) (symbol : string) : option ascii :=
  match PyStr.last_char symbol with
  | Some c => Some c
  | None => prev
  end.

(** the pattern [\bsymbol\b] matched where [s] starts, [prev] being the
    character before *)
Definition match_here (symbol : string) (prev : option ascii) (s : string) : bool :=
  boundary prev (PyStr.first_char s)
  && PyStr.starts_with symbol s
  && boundary (last_before prev symbol)
              (PyStr.first_char (drop_chars (String.length symbol) s)).

(** [pattern.search(line)]: a match at some position *)
Fixpoint search_from (symbol : string) (prev : option ascii) (s : string) : bool :=
  match_here symbol prev s
  || match s with
     | "" => false
     | String c rest => search_from symbol (Some c) rest
     end.

Definition search (symbol line : string) : bool := search_from symbol None line.

Definition default_ignore : list string :=
  [".git"; "node_modules"; "pycache"; "venv"; ".hacx"].

(** [any(p in str(file) for p in ignore)]; a set is walked in an order of
    its own, which does not change what [any] gives *)
Definition ignored (ignore : list string) (path : string) : bool :=
  existsb (fun p => contains p path) ignore.

(** the loop over [enumerate(lines, i)] of one file; the first reference
    asks for the relative path and an exception ends the file *)
Fixpoint references_from (symbol : string) (relative : result string) (i : Z)
    (lines : list string) : result (list ImpactReference) :=
  match lines with
  | [] => Ok []
  | line :: rest =>
      if search symbol line then
        let! file_path := relative in
        let! found := references_from symbol relative (i + 1) rest in
        Ok (mkImpactReference file_path i (PyStr.strip line) :: found)
      else references_from symbol relative (i + 1) rest
  end.

(** the body of the [try] for one file; [Raise] stands for the [except]
    branch *)
Definition file_references (symbol : string) (file : Entry)
  : result (list ImpactReference) :=
  let! size := en_size file in
  if (1000000 <? size)%Z then Ok []
  else
    let! content := en_text file in
    if contains symbol content
    then references_from symbol (en_relative file) 1 (splitlines content)
    else Ok [].

(** the loop over the paths: the references found so far, or the exception
    of an [is_file] call, which nothing handles *)
Fixpoint walk (symbol : string) (ignore : list string) (files : list Entry)
  : result (list ImpactReference) :=
  match files with
  | [] => Ok []
  | file :: rest =>
      let! is_file := en_is_file file in
      let here :=
        if is_file && negb (ignored ignore (en_path file))
        then match file_references symbol file with
             | Ok found => found
             | Raise _ => []
             end
        else [] in
      let! others := walk symbol ignore rest in
      Ok (here ++ others)
  end.

Definition run (files : list Entry) (args : ImpactArgs) : Gen ImpactResult :=
  after (walk (ia_symbol args) (ia_ignore_paths args ++ default_ignore) files)
        (fun references => Yield (mkImpactResult (ia_symbol args) references) Stop).

(** [sub] lies in [s] *)
Definition occurs (sub s : string) : Prop :=
  exists before after, s = before +:+ sub +:+ after.

(** a project with one source file and a workflow file *)
Definition sample_files : list Entry :=
  [ mkEntry "/work/src" (Ok false) (Ok 4096) (Raise (Exn OSError "Is a directory"))
            (Ok "src");
    mkEntry "/work/src/agent.py" (Ok true) (Ok 40)
            (Ok ("def run(agent):" +:+ String newline ""
                 +:+ "    rerun = agent.run()" +:+ String newline ""))
            (Ok "src/agent.py");
    mkEntry "/work/.github/run.yml" (Ok true) (Ok 9) (Ok "run: make") (Ok ".github/run.yml") ].

End Impact.

(** ** Reading the settings file ([JsonFileSettingsSource._load_json],
    [core/config.py]) *)

Module SettingsFile.
Import Config Startup.

(** what decoding the bytes of the file gives *)
Inductive Decoded :=
| Text (text : string)
| UnicodeDecodeError (message : string).

(** what the parser makes of the text *)
Inductive Parsed :=
| Document (data : jval)
| JSONDecodeError (message : string)
| RecursionError (message : string).

(** The file as the calls inside [_load_json] find it: [opened] is what
    [file.open] and the read give, the bytes or the exception; [decode] is
    the UTF-8 codec of the text layer and [json_loads] the parser. *)
Record File := mkFile {
  opened : result string;
  decode : string -> Decoded;
  json_loads : string -> Parsed }.

(** [JsonFileSettingsSource._load_json]. The clauses take a
    [FileNotFoundError], a [json.JSONDecodeError] and any other [OSError];
    whatever else is raised leaves the function. A [UnicodeDecodeError] is a
    [ValueError] and a [RecursionError] a [RuntimeError], and they are
    raised on as such. *)
Definition _load_json (file : string) (f : File) : result jval :=
  match opened f with
  | Raise e =>
      if bool_decide (exn_class e = FileNotFoundError) then Ok (JDict [])
      else if Onboarding.is_os_error (exn_class e)
      then Raise (Exn RuntimeError ("Cannot read " +:+ file +:+ ": " +:+ exn_msg e))
      else Raise e
  | Ok bytes =>
      match decode f bytes with
      | UnicodeDecodeError message => Raise (Exn ValueError message)
      | Text text =>
          match json_loads f text with
          | Document data => Ok data
          | JSONDecodeError message =>
              Raise (Exn RuntimeError ("Invalid JSON in " +:+ file +:+ ": " +:+ message))
          | RecursionError message => Raise (Exn RuntimeError message)
          end
      end
  end.

(** the world of a start-up: the settings are those that the sources make
    of the file's data *)
Definition world_of (env : Env) (settings_of : jval -> result RawConfig)
    (file : string) (f : File) : World :=
  mkWorld env (let! data := _load_json file f in settings_of data).

End SettingsFile.

(** * Properties *)

(** ** Session pre-seeding *)

Module CliFacts.
Import Cli.

Lemma non_system_messages_elem (loaded : list LLMMessage) (m : LLMMessage) :
  m ∈ non_system_messages loaded <-> m ∈ loaded /\ role m <> system.
Proof.
  unfold non_system_messages.
  rewrite !list_elem_of_In, filter_In, negb_true_iff, bool_decide_eq_false.
  reflexivity.
Qed.

Lemma non_system_messages_sublist (loaded : list LLMMessage) :
  sublist (non_system_messages loaded) loaded.
Proof.
  induction loaded as [|m l IH]; simpl.
  - constructor.
  - destruct (negb _); [by apply sublist_skip | by apply sublist_cons].
Qed.

Lemma non_system_messages_count (loaded : list LLMMessage) (m : LLMMessage) :
  role m <> system ->
  count_occ LLMMessage_eq_dec (non_system_messages loaded) m
  = count_occ LLMMessage_eq_dec loaded m.
Proof.
  intros Hm. induction loaded as [|x l IH]; simpl; [done|].
  destruct (bool_decide (role x = system)) eqn:Hx; simpl.
  - apply bool_decide_eq_true in Hx.
    destruct (LLMMessage_eq_dec x m) as [->|]; [done | exact IH].
  - destruct (LLMMessage_eq_dec x m); by rewrite IH.
Qed.

(** C10: pre-seeding from a resumed session appends to the conversation
    exactly the loaded messages whose role is not [system], in their original
    order: the messages already in the conversation stay in front unchanged,
    the appended block is an order-preserving sub-sequence of the loaded
    list, it holds a message if and only if that message was loaded with a
    non-system role, each such message as often as it was loaded, and the
    logged count is the length of the block. *)
Theorem load_previous_session_appends_non_system
    (agent_loop : AgentLoop) (loaded : list LLMMessage) :
  exists kept,
    _load_messages_from_previous_session agent_loop loaded
      = (mkAgentLoop (messages agent_loop ++ kept), length kept)
    /\ sublist kept loaded
    /\ (forall m, m ∈ kept <-> m ∈ loaded /\ role m <> system)
    /\ (forall m, role m <> system ->
          count_occ LLMMessage_eq_dec kept m = count_occ LLMMessage_eq_dec loaded m)
    /\ kept = List.filter (fun m => negb (bool_decide (role m = system))) loaded.
Proof.
  exists (non_system_messages loaded).
  split; [reflexivity|].
  split; [apply non_system_messages_sublist|].
  split; [apply non_system_messages_elem|].
  split; [apply non_system_messages_count | reflexivity].
Qed.

End CliFacts.

(** ** Configuration validators *)

Module ConfigFacts.
Import Config.

Lemma find_first {A} (p : A -> bool) (l : list A) (x : A) :
  List.find p l = Some x <->
  exists before after,
    l = before ++ x :: after /\ p x = true /\ Forall (fun y => p y = false) before.
Proof.
  induction l as [|a l IH]; simpl.
  - split; [discriminate|]. intros (b & t & H & _). by destruct b.
  - destruct (p a) eqn:Hpa.
    + split.
      * intros [= ->]. exists [], l. by repeat split.
      * intros (b & t & Hl & Hx & Hb). destruct b as [|b0 b]; simpl in Hl.
        -- by injection Hl as -> _.
        -- injection Hl as -> _. apply Forall_cons in Hb as [Hb _]. congruence.
    + rewrite IH. split.
      * intros (b & t & -> & Hx & Hb). exists (a :: b), t. repeat split; auto.
      * intros (b & t & Hl & Hx & Hb). destruct b as [|b0 b]; simpl in Hl.
        -- injection Hl as -> _. congruence.
        -- injection Hl as -> ->. apply Forall_cons in Hb as [_ Hb]. by exists b, t.
Qed.

Lemma find_none_iff {A} (p : A -> bool) (l : list A) :
  List.find p l = None <-> forall x, x ∈ l -> p x = false.
Proof.
  split.
  - intros H x Hx. apply list_elem_of_In in Hx. by apply (find_none p l H).
  - intros H. induction l as [|a l IH]; simpl; [done|].
    rewrite (H a) by constructor. apply IH. intros x Hx. apply H. by constructor.
Qed.

Lemma truthy_false (s : string) : PyStr.truthy s = false <-> s = "".
Proof. unfold PyStr.truthy. rewrite negb_false_iff, bool_decide_eq_true. done. Qed.

Lemma truthy_true (s : string) : PyStr.truthy s = true <-> s <> "".
Proof. unfold PyStr.truthy. rewrite negb_true_iff, bool_decide_eq_false. done. Qed.

Lemma get_active_model_empty_name (self : HacxgentConfig) first rest :
  active_model self = "" -> models self = first :: rest ->
  get_active_model self = Ok first.
Proof.
  intros Ha Hm. unfold get_active_model.
  apply truthy_false in Ha. by rewrite Ha, Hm.
Qed.

Lemma get_active_model_no_models (self : HacxgentConfig) :
  models self = [] ->
  get_active_model self = Raise (Exn ValueError "No models configured.").
Proof.
  intros Hm. unfold get_active_model. rewrite Hm. simpl.
  by destruct (PyStr.truthy _).
Qed.

Lemma get_active_model_named (self : HacxgentConfig) :
  active_model self <> "" ->
  get_active_model self =
    match List.find (fun model => bool_decide (mc_alias model = active_model self))
                    (models self) with
    | Some model => Ok model
    | None =>
        match models self with
        | [] => Raise (Exn ValueError "No models configured.")
        | _ => Raise (Exn ValueError
                 ("Active model '" +:+ active_model self
                  +:+ "' not found in configuration."))
        end
    end.
Proof.
  intros Ha. unfold get_active_model. apply truthy_true in Ha. by rewrite Ha.
Qed.

Lemma check_api_key_needs_active_model (env : Env) (self : HacxgentConfig) :
  is_ok (get_active_model self) = false -> is_ok (_check_api_key env self) = false.
Proof.
  unfold _check_api_key. by destruct (get_active_model self).
Qed.

Lemma as_validation_error_ok {A} (r : result A) (a : A) :
  as_validation_error r = Ok a -> r = Ok a.
Proof.
  destruct r as [x|[c m]]; simpl; [done|]. by destruct c.
Qed.

(** What a successful [load] went through. *)
Lemma load_ok_inv (env : Env) (raw : RawConfig) (cfg : HacxgentConfig) :
  load env raw = Ok cfg ->
  validate_models (raw_models raw) = Ok (models cfg)
  /\ active_model cfg = raw_active_model raw
  /\ _check_api_key env cfg = Ok cfg
  /\ _validate_model_uniqueness cfg = Ok cfg
  /\ _check_system_prompt env cfg = Ok cfg.
Proof.
  unfold load. destruct (validate_models (raw_models raw)) as [ms|]; simpl; [|done].
  set (self := mkHacxgentConfig _ _ _ ms).
  destruct (as_validation_error (_check_api_key env self)) as [s1|] eqn:H1; simpl; [|done].
  apply as_validation_error_ok in H1.
  assert (s1 = self) as ->.
  { unfold _check_api_key in H1.
    destruct (get_active_model self); simpl in H1; [|done].
    destruct (get_provider_for_model self _); simpl in H1; [|done].
    destruct (_ && _); congruence. }
  destruct (as_validation_error (_validate_model_uniqueness self)) as [s2|] eqn:H2;
    simpl; [|done].
  apply as_validation_error_ok in H2.
  assert (s2 = self) as ->.
  { unfold _validate_model_uniqueness in H2.
    destruct (uniqueness_loop _ _); simpl in H2; congruence. }
  destruct (as_validation_error (_check_system_prompt env self)) as [s3|] eqn:H3;
    simpl; [|done].
  apply as_validation_error_ok in H3.
  assert (s3 = self) as ->.
  { unfold _check_system_prompt in H3.
    destruct (system_prompt env self); simpl in H3; congruence. }
  intros [= <-]. by repeat split.
Qed.

(** C7: [get_active_model] raises exactly when the model list is empty, or
    [active_model] is non-empty and is the alias of no configured model (with
    the message of the respective case); with an empty [active_model] it
    returns the first configured model; with a non-empty one it returns the
    first model in the list whose alias equals it. A configuration on which
    it raises fails [_check_api_key], so no configuration that [load] returns
    is without an active model. *)
Theorem get_active_model_raises_exactly (self : HacxgentConfig) :
  (is_ok (get_active_model self) = false <->
     models self = [] \/
     (active_model self <> "" /\
      forall m, m ∈ models self -> mc_alias m <> active_model self))
  /\ (models self = [] ->
      get_active_model self = Raise (Exn ValueError "No models configured."))
  /\ (forall first rest,
        active_model self = "" -> models self = first :: rest ->
        get_active_model self = Ok first)
  /\ (active_model self <> "" ->
      forall m, get_active_model self = Ok m <->
        exists before after,
          models self = before ++ m :: after
          /\ mc_alias m = active_model self
          /\ Forall (fun x => mc_alias x <> active_model self) before)
  /\ (forall env, is_ok (get_active_model self) = false ->
        is_ok (_check_api_key env self) = false)
  /\ (forall env raw, load env raw = Ok self -> is_ok (get_active_model self) = true).
Proof.
  split; [|split; [|split; [|split; [|split]]]].
  - destruct (decide (active_model self = "")) as [Ha|Ha].
    + destruct (models self) as [|first rest] eqn:Hm.
      * rewrite (get_active_model_no_models _ Hm). simpl. split; auto.
      * rewrite (get_active_model_empty_name _ first rest Ha Hm). simpl.
        split; [done|]. intros [|[? _]]; done.
    + rewrite (get_active_model_named _ Ha).
      destruct (List.find _ _) as [m|] eqn:Hf.
      * simpl. split; [done|]. intros [Hm|[_ Hno]].
        -- rewrite Hm in Hf. done.
        -- apply find_some in Hf as [Hin Hal].
           apply bool_decide_eq_true in Hal. apply list_elem_of_In in Hin.
           by destruct (Hno m Hin).
      * split; [intros _ | by destruct (models self)].
        right. split; [done|]. intros m Hin.
        rewrite find_none_iff in Hf. specialize (Hf m Hin).
        by apply bool_decide_eq_false in Hf.
  - apply get_active_model_no_models.
  - apply get_active_model_empty_name.
  - intros Ha m. rewrite (get_active_model_named _ Ha).
    destruct (List.find _ _) as [m'|] eqn:Hf.
    + split.
      * intros [= <-]. apply find_first in Hf as (b & t & Hl & Hm & Hb).
        exists b, t. split; [done|]. split; [by apply bool_decide_eq_true in Hm|].
        eapply Forall_impl; [exact Hb|]. intros x Hx. by apply bool_decide_eq_false in Hx.
      * intros (b & t & Hl & Hm & Hb).
        assert (List.find (fun model => bool_decide (mc_alias model = active_model self))
                  (models self) = Some m) as Hf'.
        { apply find_first. exists b, t. split; [done|].
          split; [by apply bool_decide_eq_true|].
          eapply Forall_impl; [exact Hb|]. intros x Hx. by apply bool_decide_eq_false. }
        congruence.
    + split.
      * by destruct (models self).
      * intros (b & t & Hl & Hm & Hb). rewrite find_none_iff in Hf.
        assert (m ∈ models self) as Hin by (rewrite Hl; set_solver).
        specialize (Hf m Hin). apply bool_decide_eq_false in Hf. done.
  - intros env. apply check_api_key_needs_active_model.
  - intros env raw Hload. apply load_ok_inv in Hload as (_ & _ & Hk & _).
    destruct (get_active_model self) eqn:Hg; [done|].
    pose proof (check_api_key_needs_active_model env self) as Hc.
    rewrite Hg, Hk in Hc. by specialize (Hc eq_refl).
Qed.

Example active_model_by_alias :
  get_active_model
    (mkHacxgentConfig "fast" "cli" []
       [mkModelConfig "m-large" "p" "large" 0 0; mkModelConfig "m-small" "p" "fast" 60 0])
  = Ok (mkModelConfig "m-small" "p" "fast" 60 0).
Proof. reflexivity. Qed.

Example active_model_defaults_to_first :
  get_active_model
    (mkHacxgentConfig "" "cli" []
       [mkModelConfig "m-large" "p" "large" 0 0; mkModelConfig "m-small" "p" "fast" 60 0])
  = Ok (mkModelConfig "m-large" "p" "large" 0 0).
Proof. reflexivity. Qed.

Example active_model_unknown :
  get_active_model
    (mkHacxgentConfig "huge" "cli" [] [mkModelConfig "m-large" "p" "large" 0 0])
  = Raise (Exn ValueError "Active model 'huge' not found in configuration.").
Proof. reflexivity. Qed.

Example active_model_without_models :
  get_active_model (mkHacxgentConfig "" "cli" [] [])
  = Raise (Exn ValueError "No models configured.").
Proof. reflexivity. Qed.





Lemma str_field_ok (data : gmap string jval) (key s : string) :
  str_field data key = Ok s <-> data !! key = Some (JStr s).
Proof.
  unfold str_field. destruct (data !! key) as [[]|]; split; congruence.
Qed.



Lemma declared_alias_is_kept (data : gmap string jval) (m : ModelConfig) (a : string) :
  data !! "alias" = Some (JStr a) ->
  ModelConfig_validate data = Ok m -> mc_alias m = a.
Proof.
  intros Hal. unfold ModelConfig_validate, _default_alias_to_name. rewrite Hal.
  destruct (str_field data "name") as [n|]; simpl; [|done].
  destruct (str_field data "provider") as [p|]; simpl; [|done].
  destruct (str_field data "alias") as [a'|] eqn:Ha; simpl; [|done].
  destruct (int_field data "rate_limit_rpm" 0); simpl; [|done].
  destruct (int_field data "max_context_tokens" 0); simpl; [|done].
  intros [= <-]. simpl. apply str_field_ok in Ha. congruence.
Qed.


Example load_sample :
  load sample_env sample_raw
  = Ok (mkHacxgentConfig "hacxgent-cli-latest" "cli"
          [mkProviderConfig "hacxgent" "https://api.hacxgent.ai/v1" "MISTRAL_API_KEY"]
          [mkModelConfig "hacxgent-cli-latest" "hacxgent" "hacxgent-cli-latest" 0 0]).
Proof. vm_compute. reflexivity. Qed.

Example load_duplicate_alias :
  load sample_env
    (mkRawConfig "" "cli" [mkProviderConfig "p" "http://localhost" ""]
       [ {[ "name" := JStr "m1"; "provider" := JStr "p"; "alias" := JStr "fast" ]};
         {[ "name" := JStr "m2"; "provider" := JStr "p"; "alias" := JStr "fast" ]} ])
  = Raise (Exn ValidationError
             "Duplicate model alias found: 'fast'. Aliases must be unique.").
Proof. vm_compute. reflexivity. Qed.

End ConfigFacts.

(** ** Server names *)

Module NameFacts.
Import MCP.

Lemma lstrip_by_Forall (P : ascii -> Prop) p (s : string) :
  Forall P (PyStr.chars s) -> Forall P (PyStr.chars (PyStr.lstrip_by p s)).
Proof.
  induction s as [|c r IH]; simpl; [done|].
  intros [Hc Hr]%Forall_cons. destruct (p c); [auto | by constructor].
Qed.

Lemma rstrip_by_Forall (P : ascii -> Prop) p (s : string) :
  Forall P (PyStr.chars s) -> Forall P (PyStr.chars (PyStr.rstrip_by p s)).
Proof.
  induction s as [|c r IH]; simpl; [done|].
  intros [Hc Hr]%Forall_cons. specialize (IH Hr).
  destruct (PyStr.rstrip_by p r) as [|d r'].
  - destruct (p c); simpl; [constructor | by repeat constructor].
  - by constructor.
Qed.

Lemma prefix_Forall (P : ascii -> Prop) n (s : string) :
  Forall P (PyStr.chars s) -> Forall P (PyStr.chars (PyStr.prefix n s)).
Proof.
  revert s. induction n as [|n IH]; intros [|c r]; simpl; try constructor.
  - by apply Forall_cons in H as [? _].
  - apply IH. by apply Forall_cons in H as [_ ?].
Qed.

Lemma prefix_length n (s : string) : (String.length (PyStr.prefix n s) <= n)%nat.
Proof.
  revert s. induction n as [|n IH]; intros [|c r]; simpl; try lia.
  specialize (IH r). lia.
Qed.

Lemma prefix_short n (s : string) :
  (String.length s <= n)%nat -> PyStr.prefix n s = s.
Proof.
  revert s. induction n as [|n IH]; intros [|c r]; simpl; try done; try lia.
  intros H. f_equal. apply IH. lia.
Qed.

Lemma re_sub_name_chars (v : string) :
  Forall (fun c => is_name_char c = true) (PyStr.chars (re_sub_name v)).
Proof.
  induction v as [|c r IH]; simpl; constructor; [|done].
  by destruct (is_name_char c) eqn:Hc.
Qed.

Lemma lstrip_by_first p (s : string) (c : ascii) :
  PyStr.first_char (PyStr.lstrip_by p s) = Some c -> p c = false.
Proof.
  induction s as [|d r IH]; simpl; [done|].
  destruct (p d) eqn:Hd; [done|]. simpl. congruence.
Qed.

Lemma rstrip_by_first p (s : string) (c : ascii) :
  PyStr.first_char s = Some c -> p c = false ->
  PyStr.first_char (PyStr.rstrip_by p s) = Some c.
Proof.
  destruct s as [|d r]; simpl; [done|]. intros [= ->] Hc.
  destruct (PyStr.rstrip_by p r); [by rewrite Hc | done].
Qed.

Lemma rstrip_by_last p (s : string) (c : ascii) :
  PyStr.last_char (PyStr.rstrip_by p s) = Some c -> p c = false.
Proof.
  induction s as [|d r IH]; simpl; [done|].
  destruct (PyStr.rstrip_by p r) as [|e r'] eqn:Hr.
  - destruct (p d) eqn:Hd; simpl; [done | congruence].
  - simpl in *. exact IH.
Qed.

Lemma lstrip_by_all p (s : string) :
  Forall (fun c => p c = true) (PyStr.chars s) -> PyStr.lstrip_by p s = "".
Proof.
  induction s as [|c r IH]; simpl; [done|].
  intros [Hc Hr]%Forall_cons. rewrite Hc. auto.
Qed.

Lemma strip_first_not_separator (s : string) (c : ascii) :
  PyStr.first_char (PyStr.strip_by is_separator s) = Some c -> is_separator c = false.
Proof.
  unfold PyStr.strip_by.
  destruct (PyStr.lstrip_by is_separator s) as [|d r] eqn:Hl; [done|].
  assert (is_separator d = false) as Hd by (apply (lstrip_by_first _ s); by rewrite Hl).
  rewrite (rstrip_by_first is_separator (String d r) d eq_refl Hd). congruence.
Qed.

(** The name's characters all come from the class. *)
Lemma normalize_name_charset (v : string) :
  Forall (fun c => is_name_char c = true) (PyStr.chars (normalize_name v)).
Proof.
  unfold normalize_name, PyStr.strip_by.
  apply prefix_Forall, rstrip_by_Forall, lstrip_by_Forall, re_sub_name_chars.
Qed.

Lemma normalize_name_length (v : string) :
  (String.length (normalize_name v) <= 256)%nat.
Proof. apply prefix_length. Qed.

(** It never begins with an underscore or a hyphen. *)
Lemma normalize_name_first (v : string) (c : ascii) :
  PyStr.first_char (normalize_name v) = Some c -> is_separator c = false.
Proof.
  unfold normalize_name. intros H. apply (strip_first_not_separator (re_sub_name v)).
  destruct (PyStr.strip_by is_separator (re_sub_name v)); [done | exact H].
Qed.

(** It does not end with one as long as nothing is cut off. *)
Lemma normalize_name_last_when_short (v : string) (c : ascii) :
  (String.length (PyStr.strip_by is_separator (re_sub_name v)) <= 256)%nat ->
  PyStr.last_char (normalize_name v) = Some c -> is_separator c = false.
Proof.
  unfold normalize_name. intros Hlen. rewrite (prefix_short _ _ Hlen).
  apply rstrip_by_last.
Qed.

(** A name made only of characters outside the class becomes empty. *)
Lemma normalize_name_all_excluded (v : string) :
  Forall (fun c => is_name_char c = false) (PyStr.chars v) -> normalize_name v = "".
Proof.
  intros H. unfold normalize_name, PyStr.strip_by.
  rewrite lstrip_by_all; [done|].
  induction v as [|c r IH]; simpl; [constructor|].
  apply Forall_cons in H as [Hc Hr]. rewrite Hc. constructor; auto.
Qed.

(** C8 (on the failing input): for the 257-character name made of 255
    letters [a], an underscore and a [b], stripping finds no underscore at
    either end and the cut to 256 characters then leaves one at the end: the
    validated server name ends with an underscore. *)
Theorem normalize_name_truncates_after_strip :
  normalize_name long_name = PyStr.repeat_char 255 "a" +:+ "_"
  /\ PyStr.last_char (normalize_name long_name) = Some "_"%char
  /\ String.length (normalize_name long_name) = 256%nat
  /\ exists srv,
       MCPBase_validate (mkMCPBase long_name None 10 60) = Ok srv
       /\ PyStr.last_char (name srv) = Some "_"%char.
Proof.
  split; [by vm_compute|]. split; [by vm_compute|]. split; [by vm_compute|].
  eexists. split; [by vm_compute | by vm_compute].
Qed.

End NameFacts.

(** ** Credential header of an HTTP tool server *)

Module HeaderFacts.
Import MCP.

Section WithRenderer.

Variable render_field : string -> string -> result string.

Lemma append_empty_r (s : string) : s +:+ "" = s.
Proof.
  induction s as [|c r IH]; [done|].
  change (String c (r +:+ "") = String c r). by rewrite IH.
Qed.

Lemma format_scan_placeholder (token s : string) :
  format_scan render_field token ("{token}" +:+ s) None
  = prepend token (format_scan render_field token s None).
Proof. reflexivity. Qed.

Lemma format_plain (fmt token : string) :
  plain_format fmt ->
  format render_field fmt token = Ok (claimed_credential_value fmt token).
Proof.
  unfold format, claimed_credential_value.
  induction 1 as [|c s Hopen Hclose Hs IH|s Hs IH].
  - reflexivity.
  - cbn [format_scan replace_placeholder].
    apply Ascii.eqb_neq in Hopen, Hclose. rewrite Hopen, Hclose, IH.
    assert (PyStr.starts_with "{token}" (String c s) = false) as ->; [|done].
    cbn [PyStr.starts_with]. rewrite Ascii.eqb_sym, Hopen. done.
  - rewrite format_scan_placeholder, IH. reflexivity.
Qed.

Lemma any_header_spec (hdrs : gmap string string) (target : string) :
  existsb (fun h => bool_decide (PyStr.lower h = PyStr.lower target))
          (map fst (map_to_list hdrs)) = true
  <-> exists h v, hdrs !! h = Some v /\ PyStr.lower h = PyStr.lower target.
Proof.
  rewrite existsb_exists. split.
  - intros (h & Hin & Heq). apply bool_decide_eq_true in Heq.
    apply in_map_iff in Hin as ([h' v] & <- & Hin).
    apply list_elem_of_In, elem_of_map_to_list in Hin. eauto.
  - intros (h & v & Hl & Heq). exists h. split; [|by apply bool_decide_eq_true].
    apply in_map_iff. exists (h, v). split; [done|].
    by apply list_elem_of_In, elem_of_map_to_list.
Qed.

Lemma credential_token_spec environ self token :
  credential_token environ self = Some token <->
  PyStr.strip (api_key_env self) <> ""
  /\ environ !! PyStr.strip (api_key_env self) = Some token
  /\ token <> "".
Proof.
  unfold credential_token.
  destruct (PyStr.truthy (PyStr.strip (api_key_env self))) eqn:He.
  - apply ConfigFacts.truthy_true in He.
    destruct (environ !! _) as [t|]; [|by split; [|intros (_ & ? & _)]].
    destruct (PyStr.truthy t) eqn:Ht.
    + apply ConfigFacts.truthy_true in Ht. split.
      * by intros [= <-].
      * by intros (_ & [= <-] & _).
    + apply ConfigFacts.truthy_false in Ht. split; [done|].
      intros (_ & [= <-] & ?). done.
  - apply ConfigFacts.truthy_false in He. split; [done|]. by intros [? _].
Qed.

Lemma http_headers_cases environ self :
  http_headers render_field environ self =
    match credential_token environ self with
    | None => headers self
    | Some token =>
        if existsb (fun h => bool_decide
                      (PyStr.lower h = PyStr.lower (credential_header self)))
                   (map fst (map_to_list (headers self)))
        then headers self
        else <[credential_header self :=
                 match format render_field
                         (PyStr.or_else (api_key_format self) "{token}") token with
                 | Ok v => v
                 | Raise _ => token
                 end]> (headers self)
    end.
Proof.
  unfold http_headers, credential_token, credential_header.
  destruct (if PyStr.truthy _ then _ else _) as [t|]; [|done].
  by destruct (PyStr.truthy t).
Qed.

End WithRenderer.

(** C4 (counterexample): with the template [{token} {user}] and the token
    [abc], [str.format] raises a [KeyError] for [user] and the header gets the
    bare token [abc], not the template with [{token}] replaced, which is
    [abc {user}]. *)
Lemma credential_template_counterexample : ~ stated_credential_claim.
Proof.
  intros H.
  specialize (H (fun _ _ => Ok "") {[ "MCP_TOKEN" := "abc" ]} two_field_template "abc").
  assert (http_headers (fun _ _ => Ok "") {[ "MCP_TOKEN" := "abc" ]} two_field_template
          !! "Authorization" = Some "abc") as Hrun by (by vm_compute).
  assert (claimed_credential_value (api_key_format two_field_template) "abc"
          = "abc {user}") as Hclaim by reflexivity.
  rewrite Hclaim in H. change (PyStr.or_else _ _) with "Authorization" in H.
  rewrite Hrun in H.
  assert (Some "abc" = Some "abc {user}") as Habs; [|discriminate Habs].
  apply H.
  - reflexivity.
  - discriminate.
  - intros h [v Hv]. change (headers two_field_template) with (∅ : gmap string string) in Hv.
    by rewrite lookup_empty in Hv.
Qed.

(** C4 (amended): [http_headers] keeps every configured header. Let the
    token be the non-empty value of the environment variable named by
    [api_key_env] with surrounding whitespace removed, and the credential
    header be [api_key_header] with surrounding whitespace removed, or
    [Authorization] when that is empty. Without a token the configured headers
    are returned unchanged; so are they when a configured header equals the
    credential header in some letter case. Otherwise the result is the
    configured headers with the credential header added, mapped to what
    [api_key_format.format(token=token)] gives: for a non-empty template of
    brace-free text and [{token}] placeholders that is the template with each
    placeholder replaced by the token; an empty template stands for
    [{token}]; and when formatting raises, the value is the bare token. *)
Theorem http_headers_attaches_credential
    (render_field : string -> string -> result string)
    (environ : gmap string string) (self : _MCPHttpFields) :
  (forall h v, headers self !! h = Some v ->
     http_headers render_field environ self !! h = Some v)
  /\ (credential_token environ self = None ->
      http_headers render_field environ self = headers self)
  /\ ((exists h v, headers self !! h = Some v
          /\ PyStr.lower h = PyStr.lower (credential_header self)) ->
      http_headers render_field environ self = headers self)
  /\ (forall token,
        credential_token environ self = Some token ->
        (forall h v, headers self !! h = Some v ->
           PyStr.lower h <> PyStr.lower (credential_header self)) ->
        exists value,
          http_headers render_field environ self
            = <[credential_header self := value]> (headers self)
          /\ (api_key_format self <> "" -> plain_format (api_key_format self) ->
              value = claimed_credential_value (api_key_format self) token)
          /\ (api_key_format self = "" -> value = token)
          /\ (forall e,
                format render_field (PyStr.or_else (api_key_format self) "{token}") token
                  = Raise e -> value = token)
          /\ (forall v,
                format render_field (PyStr.or_else (api_key_format self) "{token}") token
                  = Ok v -> value = v)).
Proof.
  rewrite http_headers_cases.
  split; [|split; [|split]].
  - intros h v Hh. destruct (credential_token environ self) as [token|]; [|done].
    destruct (existsb _ _) eqn:Hany; [done|].
    rewrite lookup_insert_ne; [done|]. intros <-.
    assert (existsb (fun h => bool_decide
              (PyStr.lower h = PyStr.lower (credential_header self)))
              (map fst (map_to_list (headers self))) = true) as Hyes.
    { apply any_header_spec. eauto. }
    congruence.
  - by intros ->.
  - intros Hex. apply any_header_spec in Hex. rewrite Hex.
    by destruct (credential_token environ self).
  - intros token -> Hnone.
    assert (existsb (fun h => bool_decide
              (PyStr.lower h = PyStr.lower (credential_header self)))
              (map fst (map_to_list (headers self))) = false) as ->.
    { apply not_true_is_false. intros (h & v & Hh & Heq)%any_header_spec.
      by apply (Hnone h v). }
    eexists. split; [reflexivity|]. split; [|split; [|split]].
    + intros Hne Hplain. unfold PyStr.or_else.
      apply ConfigFacts.truthy_true in Hne. rewrite Hne.
      by rewrite (format_plain render_field _ token Hplain).
    + intros ->. change (format render_field _ token) with (Ok (token +:+ "")).
      apply append_empty_r.
    + by intros e ->.
    + by intros v ->.
Qed.

Example format_with_escapes :
  format (fun _ _ => Ok "") "a{{b}}{token}" "abc" = Ok "a{b}abc".
Proof. reflexivity. Qed.

Example format_unknown_field :
  format (fun _ _ => Ok "") "{token} {user}" "abc" = Raise (Exn KeyError "user").
Proof. reflexivity. Qed.

Example format_positional_field :
  is_ok (format (fun _ _ => Ok "") "Bearer {}" "abc") = false.
Proof. reflexivity. Qed.

Example http_headers_default_template :
  http_headers (fun _ _ => Ok "") {[ "MCP_TOKEN" := "abc" ]}
    (mkMCPHttpFields "https://mcp.example/api" {[ "Accept" := "text/event-stream" ]}
                     " MCP_TOKEN " "" "Bearer {token}")
  = {[ "Accept" := "text/event-stream"; "Authorization" := "Bearer abc" ]}.
Proof. by vm_compute. Qed.

Example http_headers_already_set :
  http_headers (fun _ _ => Ok "") {[ "MCP_TOKEN" := "abc" ]}
    (mkMCPHttpFields "https://mcp.example/api" {[ "authorization" := "Basic xyz" ]}
                     "MCP_TOKEN" "Authorization" "Bearer {token}")
  = {[ "authorization" := "Basic xyz" ]}.
Proof. by vm_compute. Qed.

End HeaderFacts.

(** ** Response mapping and token counting *)

Module BackendFacts.
Import Backend.

(** C5: on a response that is malformed in shape [_map_response_to_chunk]
    does not raise: it returns the chunk whose message is the assistant
    message with empty content and nothing else, and whose usage is the
    response's usage record when there is one (a missing count read as 0) and
    [None] otherwise. *)
Theorem malformed_response_maps_to_empty_assistant (response : Response) :
  malformed response ->
  exists chunk,
    _map_response_to_chunk response = Ok chunk
    /\ message chunk = mkLLMMessage assistant (Some "") None None None None
    /\ (resp_usage response = None -> usage chunk = None)
    /\ (forall usage_data, resp_usage response = Some usage_data ->
          usage chunk = Some (mkLLMUsage (default 0 (ud_prompt_tokens usage_data))
                                         (default 0 (ud_completion_tokens usage_data)))).
Proof.
  intros Hbad. exists (mkLLMChunk empty_assistant_message (map_usage response)).
  split.
  - unfold _map_response_to_chunk.
    destruct Hbad as [-> | [-> | (choice & rest & -> & -> & ->)]]; reflexivity.
  - split; [reflexivity|]. unfold map_usage. simpl.
    split; [by intros -> | by intros ud ->].
Qed.

Lemma malformed_response_witness :
  malformed usage_only_response
  /\ exists chunk,
       _map_response_to_chunk usage_only_response = Ok chunk
       /\ message chunk = mkLLMMessage assistant (Some "") None None None None
       /\ (resp_usage usage_only_response = None -> usage chunk = None)
       /\ (forall usage_data, resp_usage usage_only_response = Some usage_data ->
             usage chunk = Some (mkLLMUsage (default 0 (ud_prompt_tokens usage_data))
                                            (default 0 (ud_completion_tokens usage_data)))).
Proof.
  assert (malformed usage_only_response) as Hbad by (right; left; reflexivity).
  split; [exact Hbad|].
  exact (malformed_response_maps_to_empty_assistant usage_only_response Hbad).
Defined.

Example map_usage_only_response :
  _map_response_to_chunk usage_only_response
  = Ok (mkLLMChunk empty_assistant_message (Some (mkLLMUsage 1200 0))).
Proof. reflexivity. Qed.

Example map_hollow_choice_response :
  _map_response_to_chunk hollow_choice_response
  = Ok (mkLLMChunk empty_assistant_message None).
Proof. reflexivity. Qed.

(** A well-shaped delta is mapped field by field; an unknown role makes the
    [Role] lookup raise. *)
Example map_delta_response :
  _map_response_to_chunk
    (mkResponse None
       (Some [mkChoice None (Some (mkMessageData None (Some "Hel") None None None))]))
  = Ok (mkLLMChunk (mkLLMMessage assistant (Some "Hel") None None None None) None).
Proof. reflexivity. Qed.

Example map_unknown_role_raises :
  is_ok (_map_response_to_chunk
           (mkResponse None
              (Some [mkChoice (Some (mkMessageData (Some "function") None None None None))
                              None])))
  = false.
Proof. reflexivity. Qed.

(** C6: [count_tokens] returns an integer for every message list and never
    raises. When the approximate counter cannot be imported, or raises on the
    prepared messages, the value is the length of [str(messages)] divided by
    four, rounded down; when the counter returns, the value is the counter's. *)
Theorem count_tokens_never_raises
    (count_messages_tokens_approx : option (list jval -> result Z))
    (str_of_messages : list LLMMessage -> string)
    (messages : list LLMMessage) :
  let fallback := Z.of_nat (String.length (str_of_messages messages)) / 4 in
  (exists n, count_tokens count_messages_tokens_approx str_of_messages messages = Ok n)
  /\ (count_messages_tokens_approx = None ->
      count_tokens count_messages_tokens_approx str_of_messages messages = Ok fallback)
  /\ (forall counter e,
        count_messages_tokens_approx = Some counter ->
        counter (_prepare_messages messages) = Raise e ->
        count_tokens count_messages_tokens_approx str_of_messages messages = Ok fallback)
  /\ (forall counter n,
        count_messages_tokens_approx = Some counter ->
        counter (_prepare_messages messages) = Ok n ->
        count_tokens count_messages_tokens_approx str_of_messages messages = Ok n)
  /\ 4 * fallback <= Z.of_nat (String.length (str_of_messages messages)) < 4 * fallback + 4.
Proof.
  intros fallback. unfold count_tokens.
  split; [|split; [|split; [|split]]].
  - destruct count_messages_tokens_approx as [counter|]; [|eauto].
    destruct (counter _); eauto.
  - by intros ->.
  - by intros counter e -> ->.
  - by intros counter n -> ->.
  - unfold fallback.
    pose proof (Z.div_mod (Z.of_nat (String.length (str_of_messages messages))) 4).
    pose proof (Z.mod_pos_bound (Z.of_nat (String.length (str_of_messages messages))) 4).
    lia.
Qed.

Example count_tokens_fallback :
  count_tokens (Some (fun _ => Raise (Exn ValueError "bad message")))
               (fun _ => "[LLMMessage(role='user', content='hi')]")
               [mkLLMMessage user (Some "hi") None None None None]
  = Ok 9.
Proof. reflexivity. Qed.

End BackendFacts.

(** ** Streaming completion *)

Module StreamingFacts.
Import Backend Streaming.

Lemma drain_stream (chunks : list Response) (ending : option exn) :
  drain (map QChunk chunks ++ match ending with Some e => [QExc e] | None => [] end)
  = delivery chunks ending.
Proof.
  induction chunks as [|c rest IH]; simpl.
  - by destruct ending.
  - destruct (_map_response_to_chunk c); [|done]. by rewrite IH.
Qed.

Lemma inv_start (stream : NetStream) :
  inv (delivery (ns_chunks stream) (ns_failure stream)) (start stream).
Proof.
  unfold inv, start, pending, future. simpl.
  split; [done|]. split; [split; discriminate|].
  rewrite drain_stream. by destruct (delivery _ _).
Qed.

Lemma queue_never_full (qu : Queue) : maxsize qu = 0 -> Queue_full qu = false.
Proof. unfold Queue_full. by intros ->. Qed.

Lemma inv_step_producer total (st st' : State) :
  inv total st -> step_producer st = Some st' -> inv total st'.
Proof.
  destruct st as [f p qu d c y]. unfold inv, step_producer, pending, future. simpl.
  intros (Hmax & Hdone & Hc).
  rewrite (queue_never_full qu Hmax).
  destruct p as [[|chunk rest]| |]; [destruct f as [e|]| | |];
    intros [= <-]; simpl.
  - split; [done|]. split; [split; [intros Hd; by apply Hdone in Hd | done]|].
    rewrite app_nil_r. simpl in Hc. by destruct c.
  - split; [done|]. split; [split; [intros Hd; by apply Hdone in Hd | done]|].
    simpl in Hc. by destruct c.
  - split; [done|]. split; [split; [intros Hd; by apply Hdone in Hd | done]|].
    rewrite <- app_assoc. simpl. simpl in Hc. by destruct c.
  - split; [done|]. split; [done|].
    simpl in Hc. destruct c; try done. by destruct Hc.
Qed.

Lemma inv_step_consumer total (st st' : State) :
  inv total st -> step_consumer st = Some st' -> inv total st'.
Proof.
  destruct st as [f p [mx items] d c y]. unfold inv, step_consumer, pending. simpl.
  intros (Hmax & Hdone & Hc).
  destruct c as [| | | |e]; [| | |done|done].
  - intros [= <-]. simpl. split; [done|]. split; [done|].
    destruct d; simpl; [by split | done].
  - destruct Hc as [Hd Hc]. intros [= <-]. simpl. split; [done|]. split; [done|].
    destruct items as [|item rest]; simpl; [|done].
    apply Hdone in Hd. subst p. unfold future in Hc. simpl in Hc.
    by rewrite app_nil_r in Hc.
  - destruct items as [|item rest].
    + intros [= <-]. simpl. by repeat split; try apply Hdone.
    + simpl in Hc. destruct item as [chunk|e].
      * destruct (_map_response_to_chunk chunk) as [mapped|e] eqn:Hmap;
          intros [= <-]; simpl; (split; [done|]); (split; [done|]).
        -- unfold future in *. simpl in *.
           destruct (drain (rest ++ _)) as [ms e]. simpl in *.
           by rewrite <- app_assoc.
        -- simpl in Hc. by rewrite app_nil_r in Hc.
      * intros [= <-]. simpl. split; [done|]. split; [done|].
        by rewrite app_nil_r in Hc.
Qed.

Lemma inv_run total (schedule : list Thread) (st : State) :
  inv total st -> inv total (run schedule st).
Proof.
  revert st. induction schedule as [|t rest IH]; intros st Hinv; simpl; [done|].
  apply IH. destruct (step t st) as [st'|] eqn:Hstep; simpl; [|done].
  destruct t; [by eapply inv_step_producer | by eapply inv_step_consumer].
Qed.

Lemma run_app (s1 s2 : list Thread) (st : State) :
  run (s1 ++ s2) st = run s2 (run s1 st).
Proof. revert st. induction s1 as [|t s1 IH]; intros st; simpl; [done | apply IH]. Qed.

Lemma producer_runs_to_exit (st : State) :
  maxsize (q st) = 0 ->
  producer (run (repeat Producer (producer_steps_left st)) st) = P_exit.
Proof.
  destruct st as [f p [mx items] d c y]. unfold producer_steps_left. simpl.
  intros ->. destruct p as [rest| |]; simpl; [|done|done].
  revert items. induction rest as [|chunk rest IH]; intros items; simpl.
  - by destruct f.
  - apply IH.
Qed.

(** run the scheduled consumer steps, using the outcome of the mapping *)
Ltac take_steps Hmap :=
  cbn -[_map_response_to_chunk]; rewrite Hmap; cbn -[_map_response_to_chunk]; done.

Lemma consumer_drains_from_test f p mx (items : list QItem) (y : list LLMChunk) :
  exists m,
    finished (run (repeat Consumer m) (mkState f p (mkQueue mx items) true C_test y)) = true.
Proof.
  revert y. induction items as [|item rest IH]; intros y.
  - by exists 2%nat.
  - destruct item as [chunk|e].
    + destruct (_map_response_to_chunk chunk) as [mapped|e] eqn:Hmap.
      * destruct (IH (y ++ [mapped])) as [m Hm]. exists (3 + m)%nat.
        take_steps Hmap.
      * exists 3%nat. take_steps Hmap.
    + by exists 3%nat.
Qed.

Lemma consumer_finishes (st : State) :
  done st = true -> exists m, finished (run (repeat Consumer m) st) = true.
Proof.
  destruct st as [f p [mx items] d c y]. simpl. intros ->.
  destruct c as [| | | |e].
  - apply consumer_drains_from_test.
  - destruct items as [|item rest]; [by exists 1%nat|].
    destruct item as [chunk|e].
    + destruct (_map_response_to_chunk chunk) as [mapped|e] eqn:Hmap.
      * destruct (consumer_drains_from_test f p mx rest (y ++ [mapped])) as [m Hm].
        exists (2 + m)%nat. take_steps Hmap.
      * exists 2%nat. take_steps Hmap.
    + by exists 2%nat.
  - destruct items as [|item rest].
    + destruct (consumer_drains_from_test f p mx [] y) as [m Hm].
      by exists (1 + m)%nat.
    + destruct item as [chunk|e].
      * destruct (_map_response_to_chunk chunk) as [mapped|e] eqn:Hmap.
        -- destruct (consumer_drains_from_test f p mx rest (y ++ [mapped])) as [m Hm].
           exists (1 + m)%nat. take_steps Hmap.
        -- exists 1%nat. take_steps Hmap.
      * by exists 1%nat.
  - by exists 0%nat.
  - by exists 0%nat.
Qed.

Lemma some_continuation_finishes total (st : State) :
  inv total st -> exists more, finished (run more st) = true.
Proof.
  intros Hinv.
  set (st1 := run (repeat Producer (producer_steps_left st)) st).
  assert (inv total st1) as Hinv1 by by apply inv_run.
  assert (done st1 = true) as Hdone.
  { destruct Hinv1 as (_ & Hd & _). apply Hd.
    apply producer_runs_to_exit. by destruct Hinv. }
  destruct (consumer_finishes st1 Hdone) as [m Hm].
  exists (repeat Producer (producer_steps_left st) ++ repeat Consumer m).
  by rewrite run_app.
Qed.

(** *** The queue *)
Lemma producer_fills_queue (chunks rest : list Response) f (items : list QItem) d c y :
  q_items (q (run (repeat Producer (length chunks))
                  (mkState f (P_stream (chunks ++ rest)) (mkQueue 0 items) d c y)))
  = items ++ map QChunk chunks.
Proof.
  revert items. induction chunks as [|chunk chunks IH]; intros items; simpl.
  - by rewrite app_nil_r.
  - unfold Queue_put. simpl. rewrite IH. by rewrite <- app_assoc.
Qed.

(** C2 (counterexample): the queue is created without a maximum size, so
    [put] never waits: when the producer runs ahead of the consumer on a
    stream of [bound + 1] chunks, the queue holds [bound + 1] items. *)
Lemma streaming_queue_counterexample : ~ stated_queue_bound.
Proof.
  intros [bound Hbound].
  specialize (Hbound (mkNetStream (repeat (mkResponse None None) (S bound)) None)
                     (repeat Producer (S bound))).
  unfold start in Hbound. cbn [ns_chunks ns_failure] in Hbound.
  pose proof (producer_fills_queue (repeat (mkResponse None None) (S bound)) []
                None [] false C_test []) as Hfill.
  rewrite app_nil_r, repeat_length in Hfill. rewrite Hfill in Hbound.
  rewrite app_nil_l, length_map, repeat_length in Hbound. lia.
Qed.

Lemma delivery_all_mapped (chunks : list Response) (mapped : list LLMChunk)
    (ending : option exn) :
  Forall2 (fun chunk m => _map_response_to_chunk chunk = Ok m) chunks mapped ->
  delivery chunks ending = (mapped, ending).
Proof.
  induction 1 as [|chunk m chunks mapped Hm _ IH]; cbn -[_map_response_to_chunk].
  - done.
  - by rewrite Hm, IH.
Qed.

(** C2 (amended): for every stream and every interleaving of the producer
    thread with the consumer loop, what the generator has yielded so far is
    an initial part of the stream's delivery: one mapped chunk per stream
    item, in stream order, up to the first item whose mapping raises. When
    the generator is exhausted it has yielded the whole delivery and the
    stream ended without an exception; when it has raised, it has yielded the
    whole delivery first and the exception is the one that ended the stream
    (or the one the mapping raised). Some continuation of every interleaving
    finishes. The queue has no maximum size and is never full. In particular,
    when every item maps, a finished generator has yielded exactly the mapped
    items in order and has raised exactly when the stream ended with an
    exception, that exception. *)
Theorem complete_streaming_delivers_in_order
    (stream : NetStream) (schedule : list Thread) :
  let st := run schedule (start stream) in
  let expected := delivery (ns_chunks stream) (ns_failure stream) in
  (exists later, expected.1 = yielded st ++ later)
  /\ (consumer st = C_return -> expected = (yielded st, None))
  /\ (forall e, consumer st = C_raised e -> expected = (yielded st, Some e))
  /\ (exists more, finished (run more st) = true)
  /\ maxsize (q st) = 0
  /\ Queue_full (q st) = false
  /\ (forall mapped,
        Forall2 (fun chunk m => _map_response_to_chunk chunk = Ok m)
                (ns_chunks stream) mapped ->
        finished st = true ->
        yielded st = mapped
        /\ consumer st = match ns_failure stream with
                         | Some e => C_raised e
                         | None => C_return
                         end).
Proof.
  intros st expected.
  assert (inv expected st) as Hinv by apply inv_run, inv_start.
  pose proof Hinv as (Hmax & _ & Hc).
  split; [|split; [|split; [|split; [|split; [|split]]]]].
  - destruct (consumer st) as [| | | |e].
    + rewrite Hc. simpl. eauto.
    + destruct Hc as [_ ->]. simpl. eauto.
    + rewrite Hc. simpl. eauto.
    + rewrite Hc. exists []. by rewrite app_nil_r.
    + rewrite Hc. exists []. by rewrite app_nil_r.
  - intros Hret. by rewrite Hret in Hc.
  - intros e Hraised. by rewrite Hraised in Hc.
  - by apply (some_continuation_finishes expected).
  - exact Hmax.
  - by apply queue_never_full.
  - intros mapped Hall Hfin.
    pose proof (delivery_all_mapped _ _ (ns_failure stream) Hall) as Hdel.
    fold expected in Hdel. unfold finished in Hfin.
    destruct (consumer st) as [| | | |e]; try done; rewrite Hdel in Hc.
    + injection Hc as -> ->. done.
    + injection Hc as -> ->. done.
Qed.

(** The producer puts both chunks and the exception before the consumer
    wakes up; the consumer yields both chunks and then raises. *)
Example two_chunks_then_error :
  let st := run (repeat Producer 4 ++ repeat Consumer 9) (start two_chunk_stream) in
  yielded st
    = [mkLLMChunk (mkLLMMessage assistant (Some "Hel") None None None None) None;
       mkLLMChunk (mkLLMMessage assistant (Some "lo") None None None None) None]
  /\ consumer st = C_raised (Exn APIError "connection reset").
Proof. by vm_compute. Qed.

(** The same with the two threads taking turns. *)
Example two_chunks_then_error_alternating :
  let st := run (concat (repeat [Producer; Consumer; Consumer] 6))
                (start two_chunk_stream) in
  yielded st
    = [mkLLMChunk (mkLLMMessage assistant (Some "Hel") None None None None) None;
       mkLLMChunk (mkLLMMessage assistant (Some "lo") None None None None) None]
  /\ consumer st = C_raised (Exn APIError "connection reset").
Proof. by vm_compute. Qed.

End StreamingFacts.

(** ** Binary64 arithmetic *)

Module Float64Facts.
Import Float64.
Local Open Scope Q_scope.

Lemma pow2_pos (e : Z) : 0 < pow2 e.
Proof. apply Qpower_0_lt. reflexivity. Qed.

Lemma pow2_add (a b : Z) : pow2 (a + b) == pow2 a * pow2 b.
Proof. apply Qpower_plus. discriminate. Qed.

Lemma pow2_le (a b : Z) : (a <= b)%Z -> pow2 a <= pow2 b.
Proof. intros H. apply Qpower_le_compat_l; [done|]. discriminate. Qed.

Lemma pow2_lt (a b : Z) : (a < b)%Z -> pow2 a < pow2 b.
Proof. intros H. apply Qpower_lt_compat_l; [done|]. reflexivity. Qed.

Lemma pow2_lt_inv (a b : Z) : pow2 a < pow2 b -> (a < b)%Z.
Proof. intros H. eapply Qpower_lt_compat_l_inv; [exact H|]. reflexivity. Qed.

Lemma pow2_Z (n : Z) : (0 <= n)%Z -> pow2 n == inject_Z (2 ^ n).
Proof. intros H. unfold pow2. by rewrite Zpower_Qpower. Qed.

Lemma pow2_S (e : Z) : pow2 (e + 1) == 2 * pow2 e.
Proof. rewrite pow2_add. change (pow2 1) with 2. ring. Qed.

Lemma pow2_opp (e : Z) : pow2 (- e) == / pow2 e.
Proof. apply Qpower_opp. Qed.

Lemma pow2_sub (a b : Z) : pow2 (a - b) == pow2 a / pow2 b.
Proof.
  unfold Z.sub. rewrite pow2_add, pow2_opp. reflexivity.
Qed.

Lemma Qabs_as_fraction (x : Q) :
  Qabs x == inject_Z (Z.abs (Qnum x)) / inject_Z (Zpos (Qden x)).
Proof.
  destruct x as [n d]. unfold Qabs. simpl Qnum. simpl Qden.
  rewrite (Qmake_Qdiv (Z.abs n) d). reflexivity.
Qed.

(** [ilog2] is the position of the leading bit. *)
Lemma ilog2_spec (x : Q) :
  ~ x == 0 -> pow2 (ilog2 x) <= Qabs x /\ Qabs x < pow2 (ilog2 x + 1).
Proof.
  intros Hx.
  set (n := Z.abs (Qnum x)). set (d := Zpos (Qden x)).
  assert (0 < n)%Z as Hn.
  { unfold n. destruct x as [[|p|p] q]; simpl; try lia. exfalso. apply Hx. reflexivity. }
  assert (0 < d)%Z as Hd by (unfold d; lia).
  pose proof (Z.log2_spec n Hn) as [Hn1 Hn2].
  pose proof (Z.log2_spec d Hd) as [Hd1 Hd2].
  pose proof (Z.log2_nonneg n) as Hln. pose proof (Z.log2_nonneg d) as Hld.
  set (A := pow2 (Z.log2 n)). set (B := pow2 (Z.log2 d)).
  assert (A <= inject_Z n /\ inject_Z n < 2 * A) as [HA1 HA2].
  { unfold A. split.
    - rewrite pow2_Z by done. by rewrite <- Zle_Qle.
    - rewrite <- pow2_S, pow2_Z by lia. by rewrite <- Zlt_Qlt. }
  assert (B <= inject_Z d /\ inject_Z d < 2 * B) as [HB1 HB2].
  { unfold B. split.
    - rewrite pow2_Z by done. by rewrite <- Zle_Qle.
    - rewrite <- pow2_S, pow2_Z by lia. by rewrite <- Zlt_Qlt. }
  assert (0 < A) as HA0 by apply pow2_pos.
  assert (0 < B) as HB0 by apply pow2_pos.
  assert (0 < inject_Z d) as Hd0 by (by rewrite <- (Zlt_Qlt 0)).
  pose proof (Qabs_as_fraction x) as Habs. fold n d in Habs.
  set (e := (Z.log2 n - Z.log2 d)%Z).
  assert (pow2 e == A / B) as He by (unfold e; apply pow2_sub).
  assert (Qabs x < pow2 (e + 1)) as Hup.
  { rewrite pow2_S, He, Habs. apply Qlt_shift_div_r; [done|].
    assert (2 * (A / B) * inject_Z d == (2 * A * inject_Z d) / B) as -> by (field; lra).
    apply Qlt_shift_div_l; [done|]. nra. }
  assert (pow2 (e - 1) < Qabs x) as Hlow.
  { rewrite pow2_sub, He, Habs. change (pow2 1) with 2.
    apply Qlt_shift_div_l; [done|].
    assert (A / B / 2 * inject_Z d == (A * inject_Z d) / (2 * B)) as -> by (field; lra).
    apply Qlt_shift_div_r; [lra|]. nra. }
  unfold ilog2. fold n d e.
  destruct (Qle_bool (pow2 e) (Qabs x)) eqn:Hcmp.
  - apply Qle_bool_iff in Hcmp. done.
  - assert (Qabs x < pow2 e) as Hlt.
    { apply Qnot_le_lt. intros Hle. apply Qle_bool_iff in Hle. congruence. }
    split; [lra|]. by replace (e - 1 + 1)%Z with e by lia.
Qed.

Lemma ilog2_lt (x : Q) (e : Z) : ~ x == 0 -> Qabs x < pow2 e -> (ilog2 x < e)%Z.
Proof.
  intros Hx Hlt. destruct (ilog2_spec x Hx) as [Hlow _].
  apply pow2_lt_inv. lra.
Qed.

Lemma ilog2_ge (x : Q) (e : Z) : ~ x == 0 -> pow2 e <= Qabs x -> (e <= ilog2 x)%Z.
Proof.
  intros Hx Hle. destruct (ilog2_spec x Hx) as [_ Hup].
  assert (e < ilog2 x + 1)%Z; [|lia]. apply pow2_lt_inv. lra.
Qed.

Lemma nearest_even_near (x : Q) :
  x - (1 # 2) <= inject_Z (nearest_even x) /\ inject_Z (nearest_even x) <= x + (1 # 2).
Proof.
  unfold nearest_even.
  pose proof (Qfloor_le x) as Hlow. pose proof (Qlt_floor x) as Hup.
  rewrite inject_Z_plus in Hup. change (inject_Z 1) with 1 in Hup.
  destruct (x - inject_Z (Qfloor x) ?= 1 # 2) eqn:Hcmp.
  - apply Qeq_alt in Hcmp. destruct (Z.even (Qfloor x)).
    + lra.
    + rewrite inject_Z_plus. change (inject_Z 1) with 1. lra.
  - apply Qlt_alt in Hcmp. lra.
  - apply Qgt_alt in Hcmp. rewrite inject_Z_plus. change (inject_Z 1) with 1. lra.
Qed.

Lemma nearest_even_Z (k : Z) (x : Q) : x == inject_Z k -> nearest_even x = k.
Proof.
  intros Hx. unfold nearest_even.
  assert (Qfloor x = k) as -> by (rewrite Hx; apply Qfloor_Z).
  assert ((x - inject_Z k ?= 1 # 2) = Lt) as ->; [|done].
  change (x - inject_Z k < 1 # 2). rewrite Hx. lra.
Qed.

Lemma nearest_even_nonneg (x : Q) : 0 <= x -> (0 <= nearest_even x)%Z.
Proof.
  intros Hx. unfold nearest_even.
  assert (0 <= Qfloor x)%Z as Hf.
  { change 0%Z with (Qfloor 0). by apply Qfloor_resp_le. }
  destruct (_ ?= _); [destruct (Z.even _)| |]; lia.
Qed.

Lemma round_0 (x : Q) : x == 0 -> round x == 0.
Proof.
  intros Hx. unfold round.
  assert (Qeq_bool x 0 = true) as -> by (by apply Qeq_bool_iff). reflexivity.
Qed.

Lemma round_unfold (x : Q) :
  ~ x == 0 ->
  round x == inject_Z (nearest_even (x / pow2 (exponent x))) * pow2 (exponent x).
Proof.
  intros Hx. unfold round.
  destruct (Qeq_bool x 0) eqn:H0; [apply Qeq_bool_iff in H0; done|].
  apply Qred_correct.
Qed.

(** The error of rounding is at most half a unit in the last place. *)
Lemma round_error (x : Q) :
  Qabs (round x - x) <= (1 # 2) * pow2 (exponent x).
Proof.
  destruct (Qeq_dec x 0) as [Hx|Hx].
  - rewrite (round_0 x Hx). pose proof (pow2_pos (exponent x)).
    apply Qabs_Qle_condition. lra.
  - rewrite (round_unfold x Hx).
    pose proof (pow2_pos (exponent x)) as Hp.
    set (p := pow2 (exponent x)) in *.
    destruct (nearest_even_near (x / p)) as [H1 H2].
    set (k := inject_Z (nearest_even (x / p))) in *.
    assert (x == (x / p) * p) as Hxp by (field; lra).
    apply Qabs_Qle_condition. split.
    + assert ((x / p - (1 # 2)) * p <= k * p) by nra. nra.
    + assert (k * p <= (x / p + (1 # 2)) * p) by nra. nra.
Qed.

Lemma round_nonneg (x : Q) : 0 <= x -> 0 <= round x.
Proof.
  intros Hx. destruct (Qeq_dec x 0) as [H0|H0]; [by rewrite round_0|].
  rewrite (round_unfold x H0). pose proof (pow2_pos (exponent x)) as Hp.
  assert (0 <= x / pow2 (exponent x)) as Hq.
  { apply Qle_shift_div_l; [done|]. lra. }
  apply nearest_even_nonneg in Hq. rewrite Zle_Qle in Hq.
  change (inject_Z 0) with 0 in Hq. nra.
Qed.

(** Above the subnormal range the error is at most [2^-53] of the value. *)
Lemma round_relative (x : Q) :
  pow2 (-1022) <= Qabs x -> Qabs (round x - x) <= pow2 (-53) * Qabs x.
Proof.
  intros Hnormal.
  assert (~ x == 0) as Hx.
  { intros H0. rewrite H0 in Hnormal. pose proof (pow2_pos (-1022)).
    change (Qabs 0) with 0 in Hnormal. lra. }
  pose proof (round_error x) as Herr.
  destruct (ilog2_spec x Hx) as [Hlow Hup].
  pose proof (ilog2_ge x (-1022) Hx Hnormal) as Hge.
  assert (exponent x = (ilog2 x - 52)%Z) as Hexp by (unfold exponent; lia).
  rewrite Hexp in Herr.
  assert (pow2 (ilog2 x - 52) == 2 * (pow2 (-53) * pow2 (ilog2 x))) as Hp.
  { replace (ilog2 x - 52)%Z with (1 + (-53 + ilog2 x))%Z by lia.
    rewrite !pow2_add. reflexivity. }
  rewrite Hp in Herr.
  pose proof (pow2_pos (-53)). nra.
Qed.

(** A number with at most 53 significant bits and no place below
    [2^-1074] is not changed. *)
Lemma round_exact (x : Q) (m e : Z) :
  x == inject_Z m * pow2 e -> (Z.abs m < 2 ^ 53)%Z -> (-1074 <= e)%Z -> round x == x.
Proof.
  intros Hx Hm He.
  destruct (Qeq_dec x 0) as [H0|H0]; [by rewrite round_0|].
  rewrite (round_unfold x H0).
  assert (Qabs x < pow2 (53 + e)) as Hlt.
  { rewrite Hx, Qabs_Qmult, (Qabs_pos (pow2 e)) by (apply Qlt_le_weak, pow2_pos).
    rewrite pow2_add, (pow2_Z 53) by lia.
    assert (Qabs (inject_Z m) < inject_Z (2 ^ 53)) as Hq.
    { change (Qabs (inject_Z m)) with (inject_Z (Z.abs m)). by rewrite <- Zlt_Qlt. }
    pose proof (pow2_pos e). nra. }
  pose proof (ilog2_lt x (53 + e) H0 Hlt) as Hlog.
  assert (exponent x <= e)%Z as Hexp by (unfold exponent; lia).
  set (ex := exponent x) in *.
  assert (x / pow2 ex == inject_Z (m * 2 ^ (e - ex))) as Hq.
  { rewrite Hx, inject_Z_mult, <- pow2_Z by lia. rewrite pow2_sub.
    pose proof (pow2_pos ex). field. lra. }
  rewrite (nearest_even_Z _ _ Hq), inject_Z_mult, <- pow2_Z by lia.
  rewrite Hx, pow2_sub. pose proof (pow2_pos ex). field. lra.
Qed.

(** Every rounded number is a multiple of [2^-1074]. *)
Lemma round_on_grid (x : Q) : on_grid (round x).
Proof.
  destruct (Qeq_dec x 0) as [H0|H0].
  - exists 0%Z. rewrite round_0 by done. ring.
  - set (ex := exponent x).
    assert (-1074 <= ex)%Z as Hex by (unfold ex, exponent; lia).
    exists (nearest_even (x / pow2 ex) * 2 ^ (ex + 1074))%Z.
    rewrite (round_unfold x H0). fold ex.
    rewrite inject_Z_mult, <- pow2_Z by lia.
    replace ex with ((ex + 1074) + -1074)%Z at 2 by lia.
    rewrite pow2_add. ring.
Qed.

Lemma on_grid_sub (x y : Q) : on_grid x -> on_grid y -> on_grid (x - y).
Proof.
  intros [k Hk] [l Hl]. exists (k - l)%Z.
  rewrite Hk, Hl. unfold Z.sub. rewrite inject_Z_plus, inject_Z_opp. ring.
Qed.

(** The difference of two binary64 numbers is rounded with an error of at
    most [2^-53] of it: a difference in the subnormal range is exact. *)
Lemma round_sub_relative (x y : Q) :
  on_grid x -> on_grid y ->
  Qabs (round (x - y) - (x - y)) <= pow2 (-53) * Qabs (x - y).
Proof.
  intros Hgx Hgy.
  destruct (Qlt_le_dec (Qabs (x - y)) (pow2 (-1022))) as [Hsmall|Hnormal];
    [|by apply round_relative].
  destruct (on_grid_sub x y Hgx Hgy) as [k Hk].
  assert (round (x - y) == x - y) as ->.
  { apply (round_exact _ k (-1074)); [done| |lia].
    rewrite Hk, Qabs_Qmult, (Qabs_pos (pow2 (-1074))) in Hsmall
      by (apply Qlt_le_weak, pow2_pos).
    change (Qabs (inject_Z k)) with (inject_Z (Z.abs k)) in Hsmall.
    assert (pow2 (-1022) == inject_Z (2 ^ 52) * pow2 (-1074)) as Hp.
    { rewrite <- pow2_Z, <- pow2_add by lia. reflexivity. }
    rewrite Hp in Hsmall. pose proof (pow2_pos (-1074)) as Hpos.
    assert (inject_Z (Z.abs k) < inject_Z (2 ^ 52)) as Hlt by nra.
    rewrite <- Zlt_Qlt in Hlt. lia. }
  assert (x - y - (x - y) == 0) as -> by ring.
  pose proof (pow2_pos (-53)). pose proof (Qabs_nonneg (x - y)).
  change (Qabs 0) with 0. nra.
Qed.

Lemma on_grid_eq (x y : Q) : x == y -> on_grid x -> on_grid y.
Proof. intros Hxy [k Hk]. exists k. by rewrite <- Hxy. Qed.

Lemma rounded_Fin (x : Q) : Qabs (round x) < pow2 1024 -> rounded x = Fin (round x).
Proof.
  intros Hlt. unfold rounded.
  destruct (Qle_bool (pow2 1024) (Qabs (round x))) eqn:Hcmp; [|done].
  apply Qle_bool_iff in Hcmp. lra.
Qed.

Lemma rounded_Inf (x : Q) : pow2 1024 <= Qabs (round x) -> exists s, rounded x = Inf s.
Proof.
  intros Hle. unfold rounded. apply Qle_bool_iff in Hle. rewrite Hle. eauto.
Qed.

(** the constants of the format, as fractions *)
Lemma pow2_m53 : pow2 (-53) == 1 # 9007199254740992.
Proof. reflexivity. Qed.

Lemma pow2_m52 : pow2 (-52) == 1 # 4503599627370496.
Proof. reflexivity. Qed.

Lemma pow2_m51 : pow2 (-51) == 1 # 2251799813685248.
Proof. reflexivity. Qed.

Lemma max_float_below : max_float * (1 + pow2 (-53)) < pow2 1024.
Proof. reflexivity. Qed.

Lemma pow2_m1022_small : pow2 (-1022) <= 60 * pow2 (-1024).
Proof. vm_compute. discriminate. Qed.

(** Rounding a number above the subnormal range does not take it below
    the power of two under it. *)
Lemma round_above_power (x : Q) : pow2 (-1022) <= x -> pow2 (ilog2 x) <= round x.
Proof.
  intros Hnormal. pose proof (pow2_pos (-1022)) as Hp.
  assert (~ x == 0) as Hx by lra.
  assert (pow2 (-1022) <= Qabs x) as Habs by (rewrite Qabs_pos; lra).
  pose proof (ilog2_ge x (-1022) Hx Habs) as Hge.
  destruct (ilog2_spec x Hx) as [Hlow _]. rewrite Qabs_pos in Hlow by lra.
  rewrite (round_unfold x Hx).
  assert (exponent x = (ilog2 x - 52)%Z) as -> by (unfold exponent; lia).
  set (ex := (ilog2 x - 52)%Z). pose proof (pow2_pos ex) as Hex.
  assert (pow2 (ilog2 x) == inject_Z (2 ^ 52) * pow2 ex) as Hsplit.
  { unfold ex. replace (ilog2 x) with (52 + (ilog2 x - 52))%Z at 1 by lia.
    rewrite pow2_add, (pow2_Z 52) by lia. reflexivity. }
  destruct (nearest_even_near (x / pow2 ex)) as [Hnear _].
  assert (inject_Z (2 ^ 52) <= x / pow2 ex) as Hq.
  { apply Qle_shift_div_l; [done|]. lra. }
  assert (2 ^ 52 <= nearest_even (x / pow2 ex))%Z as Hk.
  { assert (inject_Z (2 ^ 52 - 1) < inject_Z (nearest_even (x / pow2 ex))) as Hlt.
    { change (inject_Z (2 ^ 52 - 1)) with 4503599627370495.
      change (inject_Z (2 ^ 52)) with 4503599627370496 in Hq. lra. }
    rewrite <- Zlt_Qlt in Hlt. lia. }
  rewrite Zle_Qle in Hk. rewrite Hsplit. nra.
Qed.

End Float64Facts.

(** ** Request pacing *)

Module PacingFacts.
Import Float64 Float64Facts Pacing.

Lemma reading_on_grid (t : Q) : reading t -> on_grid t.
Proof. intros [Ht _]. apply (on_grid_eq (round t)); [done|]. apply round_on_grid. Qed.

Lemma reading_0 : reading 0.
Proof. split; [reflexivity|]. split; [done|]. vm_compute. discriminate. Qed.

(** [now - last] for two readings, the later first: a number not below 0,
    off by at most [2^-53] of the difference. *)
Lemma sub_readings (now last : Q) :
  reading now -> reading last -> (last <= now)%Q ->
  exists elapsed,
    sub (Fin now) (Fin last) = Fin elapsed
    /\ on_grid elapsed
    /\ (0 <= elapsed)%Q
    /\ (Qabs (elapsed - (now - last)) <= pow2 (-53) * (now - last))%Q.
Proof.
  intros Hnow Hlast Hle. exists (round (now - last)).
  pose proof (round_sub_relative now last (reading_on_grid _ Hnow) (reading_on_grid _ Hlast))
    as Herr.
  rewrite (Qabs_pos (now - last)) in Herr by lra.
  pose proof (round_nonneg (now - last)) as Hpos.
  destruct Hnow as (_ & _ & Hmax), Hlast as (_ & Hl0 & _).
  split; [|split; [apply round_on_grid|split; [apply Hpos; lra|done]]].
  simpl. apply rounded_Fin.
  rewrite Qabs_pos by (apply Hpos; lra).
  apply Qabs_Qle_condition in Herr. pose proof max_float_below as Hbelow.
  pose proof pow2_m53 as Hu. rewrite Hu in *.
  assert (now - last <= max_float)%Q by lra. nra.
Qed.

(** [float(rpm)] for a positive int that converts: off by at most [2^-53]
    of it. *)
Lemma of_int_close (rpm : Z) (y : Q) :
  (0 < rpm)%Z -> of_int rpm = Some y ->
  (Qabs (y - inject_Z rpm) <= pow2 (-53) * inject_Z rpm)%Q
  /\ (y < pow2 1024)%Q /\ (0 < y)%Q.
Proof.
  intros Hrpm. unfold of_int, rounded.
  destruct (Qle_bool (pow2 1024) (Qabs (round (inject_Z rpm)))) eqn:Hcmp; [done|].
  intros [= <-].
  assert (1 <= inject_Z rpm)%Q as H1 by (rewrite <- (Zle_Qle 1); lia).
  pose proof (round_relative (inject_Z rpm)) as Herr.
  rewrite (Qabs_pos (inject_Z rpm)) in Herr by lra.
  assert (pow2 (-1022) <= 1)%Q as Hsmall by (vm_compute; discriminate).
  specialize (Herr ltac:(lra)).
  assert (~ Qle_bool (pow2 1024) (Qabs (round (inject_Z rpm))) = true) as Hnot
    by (rewrite Hcmp; discriminate).
  rewrite Qle_bool_iff in Hnot. apply Qnot_le_lt in Hnot.
  pose proof (round_nonneg (inject_Z rpm) ltac:(lra)) as Hpos.
  rewrite Qabs_pos in Hnot by done.
  split; [done|]. split; [done|].
  apply Qabs_Qle_condition in Herr. pose proof pow2_m53 as Hu. rewrite Hu in Herr. lra.
Qed.

Lemma of_int_small (rpm : Z) :
  (0 <= rpm < 2 ^ 53)%Z -> exists y, of_int rpm = Some y /\ (y == inject_Z rpm)%Q.
Proof.
  intros Hrpm.
  assert (round (inject_Z rpm) == inject_Z rpm)%Q as Hexact.
  { apply (round_exact _ rpm 0); [|lia|lia]. change (pow2 0) with 1%Q. ring. }
  exists (round (inject_Z rpm)). split; [|done].
  unfold of_int. rewrite rounded_Fin; [done|].
  rewrite Hexact, Qabs_pos by (rewrite <- (Zle_Qle 0); lia).
  assert (inject_Z rpm < inject_Z (2 ^ 53))%Q as Hlt by (rewrite <- Zlt_Qlt; lia).
  assert (inject_Z (2 ^ 53) < pow2 1024)%Q by reflexivity. lra.
Qed.

(** An int up to the largest float converts, one of [2^1024] or more does
    not. *)
Lemma of_int_converts (rpm : Z) :
  (0 < rpm)%Z -> (inject_Z rpm <= max_float)%Q -> is_Some (of_int rpm).
Proof.
  intros Hrpm Hmax.
  assert (1 <= inject_Z rpm)%Q as H1 by (rewrite <- (Zle_Qle 1); lia).
  pose proof (round_relative (inject_Z rpm)) as Herr.
  rewrite (Qabs_pos (inject_Z rpm)) in Herr by lra.
  assert (pow2 (-1022) <= 1)%Q as Hsmall by (vm_compute; discriminate).
  specialize (Herr ltac:(lra)). apply Qabs_Qle_condition in Herr.
  unfold of_int. rewrite rounded_Fin; [eauto|].
  rewrite Qabs_pos by (apply round_nonneg; lra).
  pose proof max_float_below as Hbelow. pose proof pow2_m53 as Hu. rewrite Hu in *.
  nra.
Qed.

Lemma of_int_overflows (rpm : Z) : (2 ^ 1024 <= rpm)%Z -> of_int rpm = None.
Proof.
  intros Hbig.
  assert (pow2 1024 <= inject_Z rpm)%Q as Hq.
  { rewrite (pow2_Z 1024) by lia. by rewrite <- Zle_Qle. }
  assert (0 < pow2 1024)%Q as Hpos by apply pow2_pos.
  assert (pow2 (-1022) <= pow2 1024)%Q as Hsmall by (apply pow2_le; lia).
  assert (~ inject_Z rpm == 0)%Q as Hx by lra.
  pose proof (round_above_power (inject_Z rpm) ltac:(lra)) as Hround.
  assert (1024 <= ilog2 (inject_Z rpm))%Z as Hlog.
  { apply ilog2_ge; [done|]. rewrite Qabs_pos by lra. done. }
  pose proof (pow2_le 1024 (ilog2 (inject_Z rpm)) Hlog) as Hle.
  unfold of_int.
  destruct (rounded_Inf (inject_Z rpm)) as [s ->]; [|done].
  rewrite Qabs_pos by lra. lra.
Qed.

(** [60.0 / rpm] for a positive int that converts: a positive number, off
    from [60 / rpm] by at most [2^-51] of it. *)
Lemma interval_close (rpm : Z) :
  (0 < rpm)%Z -> is_Some (of_int rpm) ->
  exists interval,
    interval_of rpm = Value (Fin interval)
    /\ on_grid interval
    /\ (0 < interval)%Q /\ (interval <= 61)%Q
    /\ (60 / inject_Z rpm * (1 - pow2 (-52)) <= interval)%Q
    /\ (interval <= 60 / inject_Z rpm * (1 + pow2 (-51)))%Q.
Proof.
  intros Hrpm [y Hy]. unfold interval_of, truediv_int. rewrite Hy.
  destruct (of_int_close rpm y Hrpm Hy) as (Hclose & Hbig & Hy0).
  assert (Qeq_bool y 0 = false) as ->.
  { destruct (Qeq_bool y 0) eqn:H0; [|done]. apply Qeq_bool_iff in H0. lra. }
  assert (1 <= inject_Z rpm)%Q as H1 by (rewrite <- (Zle_Qle 1); lia).
  set (r := inject_Z rpm) in *.
  set (x := (60 / y)%Q). set (q := (60 / r)%Q).
  assert (x * y == 60)%Q as Hxy by (unfold x; field; lra).
  assert (q * r == 60)%Q as Hqr by (unfold q; field; lra).
  assert (0 < x)%Q as Hx0 by (apply Qlt_shift_div_l; lra).
  assert (0 < q)%Q as Hq0 by (apply Qlt_shift_div_l; lra).
  apply Qabs_Qle_condition in Hclose.
  pose proof pow2_m53 as Hu. pose proof pow2_m51 as Hu'. pose proof pow2_m52 as Hu''.
  rewrite Hu in Hclose.
  assert (pow2 (-1022) <= Qabs x)%Q as Hnormal.
  { rewrite Qabs_pos by lra. pose proof pow2_m1022_small as Hs.
    assert (60 * pow2 (-1024) <= x)%Q; [|lra].
    assert (pow2 (-1024) * pow2 1024 == 1)%Q as Hinv by reflexivity.
    pose proof (pow2_pos (-1024)). pose proof (pow2_pos 1024). nra. }
  pose proof (round_relative x Hnormal) as Herr.
  rewrite (Qabs_pos x) in Herr by lra. rewrite Hu in Herr.
  apply Qabs_Qle_condition in Herr.
  assert (q <= 60)%Q as Hq60 by nra.
  assert (x * (1 - (1 # 9007199254740992)) <= q)%Q as Hxq1 by nra.
  assert (q <= x * (1 + (1 # 9007199254740992)))%Q as Hxq2 by nra.
  exists (round x). split.
  { rewrite rounded_Fin; [done|].
    rewrite Qabs_pos by (apply round_nonneg; lra).
    assert (62 < pow2 1024)%Q by reflexivity. lra. }
  split; [apply round_on_grid|]. split; [lra|]. split; [lra|].
  fold q. rewrite Hu', Hu''. split; lra.
Qed.

Lemma getattr_lock (w : World) (self : nat) :
  sound w -> is_Some (instances w !! self) ->
  getattr w self "_request_lock" = Some (VLock 0).
Proof.
  intros Hs [d Hd]. unfold getattr. rewrite Hd.
  rewrite (sound_no_lock w Hs self d Hd), (sound_class w Hs). reflexivity.
Qed.

Lemma getattr_stamp (w : World) (self : nat) :
  sound w -> is_Some (instances w !! self) ->
  exists last,
    getattr w self "_last_request_time" = Some (VFloat last)
    /\ reading last /\ (last <= clock w)%Q.
Proof.
  intros Hs [d Hd]. unfold getattr. rewrite Hd.
  destruct (d !! "_last_request_time") as [v|] eqn:Hv.
  - destruct (sound_stamp w Hs self d v Hd Hv) as (t & -> & Ht & Hle). eauto.
  - rewrite (sound_class w Hs). exists 0%Q. split; [done|]. split; [apply reading_0|].
    by destruct (sound_clock w Hs) as (_ & H0 & _).
Qed.

Lemma enter_free (w : World) (rpm : Z) (self : nat) (interval : float) (last : Q) :
  sound w -> is_Some (instances w !! self) -> (0 < rpm)%Z ->
  interval_of rpm = Value interval ->
  getattr w self "_last_request_time" = Some (VFloat last) ->
  enter rpm self w = Holding 0 (pause_for interval (clock w) last) (acquire 0 w).
Proof.
  intros Hs Hself Hrpm Hint Hlast. unfold enter.
  apply Z.leb_gt in Hrpm. rewrite Hrpm, Hint.
  rewrite (getattr_lock w self Hs Hself).
  rewrite (sound_held w Hs).
  destruct (decide (0%nat ∈ (∅ : gset nat))) as [Hin|_]; [set_solver|].
  change (getattr (acquire 0 w) self "_last_request_time")
    with (getattr w self "_last_request_time").
  rewrite Hlast. reflexivity.
Qed.

Lemma enter_while_held (w : World) (rpm : Z) (self : nat) :
  class_dict w = the_class_dict ->
  (forall d, instances w !! self = Some d -> d !! "_request_lock" = None) ->
  is_Some (instances w !! self) -> (0 < rpm)%Z -> is_Some (of_int rpm) ->
  0%nat ∈ held w ->
  enter rpm self w = Waiting 0.
Proof.
  intros Hc Hno [d Hd] Hrpm Hconv Hheld.
  destruct (interval_close rpm Hrpm Hconv) as (interval & Hint & _).
  unfold enter, getattr.
  apply Z.leb_gt in Hrpm. rewrite Hrpm, Hint, Hd, (Hno d Hd), Hc.
  change (the_class_dict !! "_request_lock") with (Some (VLock 0)).
  cbv beta iota. by destruct (decide (0%nat ∈ held w)).
Qed.

Lemma enter_overflow (w : World) (rpm : Z) (self : nat) :
  (0 < rpm)%Z -> of_int rpm = None -> enter rpm self w = Raised "OverflowError".
Proof.
  intros Hrpm Hnone. unfold enter, interval_of, truediv_int.
  apply Z.leb_gt in Hrpm. by rewrite Hrpm, Hnone.
Qed.

(** What a call asks for: nothing when the rounded elapsed time has reached
    the interval, and else their rounded difference. *)
Lemma pause_for_cases (interval now last : Q) :
  on_grid interval -> (0 < interval)%Q -> (interval <= 61)%Q ->
  reading now -> reading last -> (last <= now)%Q ->
  exists elapsed,
    sub (Fin now) (Fin last) = Fin elapsed
    /\ (0 <= elapsed)%Q
    /\ (Qabs (elapsed - (now - last)) <= pow2 (-53) * (now - last))%Q
    /\ ((interval <= elapsed)%Q /\ pause_for (Fin interval) now last = None
        \/ (elapsed < interval)%Q
           /\ exists p,
                pause_for (Fin interval) now last = Some (Fin p)
                /\ (0 <= p)%Q
                /\ (Qabs (p - (interval - elapsed)) <= pow2 (-53) * (interval - elapsed))%Q).
Proof.
  intros Hgrid Hi0 Hi61 Hnow Hlast Hle.
  destruct (sub_readings now last Hnow Hlast Hle) as (elapsed & Hsub & Hg & He0 & Herr).
  exists elapsed. split; [done|]. split; [done|]. split; [done|].
  unfold pause_for. rewrite Hsub. simpl.
  destruct (Qle_bool interval elapsed) eqn:Hcmp; simpl.
  - apply Qle_bool_iff in Hcmp. by left.
  - assert (elapsed < interval)%Q as Hlt.
    { apply Qnot_le_lt. intros H. apply Qle_bool_iff in H. congruence. }
    right. split; [done|]. exists (round (interval - elapsed)).
    pose proof (round_sub_relative interval elapsed Hgrid Hg) as Hperr.
    rewrite (Qabs_pos (interval - elapsed)) in Hperr by lra.
    pose proof (round_nonneg (interval - elapsed) ltac:(lra)) as Hp0.
    split; [|done].
    rewrite rounded_Fin; [done|]. rewrite Qabs_pos by done.
    apply Qabs_Qle_condition in Hperr. pose proof pow2_m53 as Hu. rewrite Hu in Hperr.
    assert (123 < pow2 1024)%Q by reflexivity. lra.
Qed.

(** The timestamp taken after the sleep lies an interval after the one
    read, but for the rounding of the two subtractions. *)
Lemma wake_after_interval (interval now last wake : Q) :
  on_grid interval -> (0 < interval)%Q -> (interval <= 61)%Q ->
  reading now -> reading last -> (last <= now)%Q ->
  slept (pause_for (Fin interval) now last) now wake ->
  (interval * (1 - pow2 (-53)) <= wake - last)%Q.
Proof.
  intros Hgrid Hi0 Hi61 Hnow Hlast Hle (_ & Hlate & Hslept).
  destruct (pause_for_cases interval now last Hgrid Hi0 Hi61 Hnow Hlast Hle)
    as (elapsed & _ & He0 & Herr & [[Hreached Hnone]|(Hshort & p & Hsome & Hp0 & Hperr)]).
  - apply Qabs_Qle_condition in Herr. pose proof pow2_m53 as Hu. rewrite Hu in *. lra.
  - specialize (Hslept p Hsome).
    apply Qabs_Qle_condition in Herr, Hperr. pose proof pow2_m53 as Hu. rewrite Hu in *. lra.
Qed.

Lemma call_free (w : World) (rpm : Z) (self : nat) (interval last wake : Q) :
  sound w -> is_Some (instances w !! self) -> (0 < rpm)%Z ->
  interval_of rpm = Value (Fin interval) ->
  on_grid interval -> (0 < interval)%Q -> (interval <= 61)%Q ->
  getattr w self "_last_request_time" = Some (VFloat last) ->
  reading last -> (last <= clock w)%Q ->
  _apply_rate_limit rpm self wake w = Some (leave self 0 wake (acquire 0 w)).
Proof.
  intros Hs Hself Hrpm Hint Hgrid Hi0 Hi61 Hlast Hread Hle. unfold _apply_rate_limit.
  rewrite (enter_free w rpm self (Fin interval) last) by done.
  destruct (pause_for_cases interval (clock w) last Hgrid Hi0 Hi61
              (sound_clock w Hs) Hread Hle)
    as (elapsed & _ & _ & _ & [[_ ->]|(_ & p & -> & _)]); done.
Qed.

Lemma call_skipped (w : World) (rpm : Z) (self : nat) (wake : Q) :
  (rpm <= 0)%Z -> _apply_rate_limit rpm self wake w = Some w.
Proof.
  intros Hrpm. unfold _apply_rate_limit, enter.
  apply Z.leb_le in Hrpm. by rewrite Hrpm.
Qed.

Lemma tick_sound (w : World) (t : Q) :
  sound w -> reading t -> (clock w <= t)%Q -> sound (tick t w).
Proof.
  intros [Hk Hc Hh Hl Ht] Hread Hle. constructor; simpl; try done.
  intros self d v Hd Hv. destruct (Ht self d v Hd Hv) as (t' & -> & Hr & Hle').
  exists t'. split; [done|]. split; [done|]. lra.
Qed.

Lemma leave_sound (w : World) (self : nat) (wake : Q) :
  sound w -> reading wake -> (clock w <= wake)%Q ->
  sound (leave self 0 wake (acquire 0 w)).
Proof.
  intros Hs Hread Hle. constructor; simpl.
  - done.
  - apply (sound_class w Hs).
  - rewrite (sound_held w Hs). set_solver.
  - intros other d. destruct (decide (self = other)) as [<-|Hne].
    + rewrite lookup_alter_eq.
      destruct (instances w !! self) as [d0|] eqn:Hd0; simpl; [|done].
      intros [= <-]. rewrite lookup_insert_ne by done.
      by apply (sound_no_lock w Hs self).
    + rewrite lookup_alter_ne by done. apply (sound_no_lock w Hs).
  - intros other d v. destruct (decide (self = other)) as [<-|Hne].
    + rewrite lookup_alter_eq.
      destruct (instances w !! self) as [d0|] eqn:Hd0; simpl; [|done].
      intros [= <-]. rewrite lookup_insert_eq. intros [= <-].
      exists wake. split; [done|]. split; [done|]. lra.
    + rewrite lookup_alter_ne by done. intros Hd Hv.
      destruct (sound_stamp w Hs other d v Hd Hv) as (t & -> & Hr & Hle').
      exists t. split; [done|]. split; [done|]. lra.
Qed.

Lemma leave_stamp (w : World) (self lock : nat) (wake : Q) :
  is_Some (instances w !! self) ->
  getattr (leave self lock wake w) self "_last_request_time" = Some (VFloat wake).
Proof.
  intros [d Hd]. unfold getattr. simpl.
  rewrite lookup_alter_eq, Hd. simpl. by rewrite lookup_insert_eq.
Qed.

Lemma leave_other (w : World) (self lock other : nat) (wake : Q) (attr : string) :
  other <> self ->
  getattr (leave self lock wake w) other attr = getattr w other attr.
Proof.
  intros Hne. unfold getattr. simpl. by rewrite lookup_alter_ne.
Qed.

Lemma leave_instances (w : World) (self lock other : nat) (wake : Q) :
  is_Some (instances w !! other) ->
  is_Some (instances (leave self lock wake w) !! other).
Proof.
  intros [d Hd]. simpl. destruct (decide (self = other)) as [<-|Hne].
  - rewrite lookup_alter_eq, Hd. simpl. eauto.
  - rewrite lookup_alter_ne by done. eauto.
Qed.

Lemma call_sound (w w' : World) (rpm : Z) (self : nat) (wake : Q) :
  sound w -> on_time rpm self wake w ->
  _apply_rate_limit rpm self wake w = Some w' -> sound w'.
Proof.
  intros Hs Hon. unfold _apply_rate_limit.
  destruct (enter rpm self w) as [w1|err|lock pause w1| |] eqn:He; try done.
  - intros [= <-]. unfold enter in He.
    destruct (rpm <=? 0)%Z; [by injection He as <-|].
    destruct (interval_of rpm); try done.
    destruct (getattr w self "_request_lock") as [[]|]; try done.
    destruct (decide _); [done|]. by destruct (getattr _ _ _) as [[]|].
  - destruct (Hon lock pause w1 He) as (Hread & Hle & _).
    assert (w1 = acquire 0 w /\ lock = 0%nat) as [-> ->].
    { unfold enter in He.
      destruct (rpm <=? 0)%Z; [done|].
      destruct (interval_of rpm); try done.
      destruct (getattr w self "_request_lock") as [[| |l|]|] eqn:Hl; try done.
      destruct (decide _); [done|].
      destruct (getattr (acquire l w) self "_last_request_time") as [[]|]; try done.
      injection He as <- _ <-.
      unfold getattr in Hl. destruct (instances w !! self) as [d|] eqn:Hd; [|done].
      rewrite (sound_no_lock w Hs self d Hd), (sound_class w Hs) in Hl.
      by injection Hl as <-. }
    destruct pause as [[p| |]|]; intros [= <-]; by apply leave_sound.
Qed.

Lemma built_sound (w : World) : built w -> sound w.
Proof.
  induction 1 as [t0 Ht0|w self Hb IH Hnew|w t Hb IH Ht Hle|w w' rpm self wake Hb IH Hon Hcall].
  - constructor; simpl; try done; intros self d; by rewrite lookup_empty.
  - destruct IH as [Hk Hc Hh Hl Ht]. constructor; simpl; try done.
    + intros other d. destruct (decide (self = other)) as [<-|Hne].
      * rewrite lookup_insert_eq. by intros [= <-].
      * rewrite lookup_insert_ne by done. apply Hl.
    + intros other d v. destruct (decide (self = other)) as [<-|Hne].
      * rewrite lookup_insert_eq. by intros [= <-].
      * rewrite lookup_insert_ne by done. apply Ht.
  - by apply tick_sound.
  - by eapply call_sound.
Qed.

Lemma advance_Qn (n : nat) : (Qn (S n) == Qn n + 1)%Q.
Proof.
  unfold Qn. rewrite Nat2Z.inj_succ, <- Z.add_1_r, inject_Z_plus. reflexivity.
Qed.

(** A reading of at least one second is a multiple of [2^-52]. *)
Lemma reading_grid52 (t : Q) :
  reading t -> (1 <= t)%Q -> exists k : Z, (t == inject_Z k * pow2 (-52))%Q.
Proof.
  intros (Hround & _) H1.
  assert (~ t == 0)%Q as H0 by lra.
  rewrite (round_unfold t H0) in Hround.
  assert (0 <= ilog2 t)%Z as Hlog.
  { apply ilog2_ge; [done|]. rewrite Qabs_pos by lra. by change (pow2 0) with 1%Q. }
  set (ex := exponent t) in *.
  assert (-52 <= ex)%Z as Hex by (unfold ex, exponent; lia).
  exists (nearest_even (t / pow2 ex) * 2 ^ (ex + 52))%Z.
  rewrite <- Hround at 1. rewrite inject_Z_mult, <- pow2_Z by lia.
  replace ex with ((ex + 52) + -52)%Z at 2 by lia. rewrite pow2_add. ring.
Qed.

Lemma sub_is_round (x y e : Q) : sub (Fin x) (Fin y) = Fin e -> e = round (x - y).
Proof.
  simpl. unfold rounded. destruct (Qle_bool _ _); [done|]. by intros [= <-].
Qed.

(** At 60 requests per minute and with readings of at least one second the
    arithmetic is exact: the timestamp taken after the sleep lies at least
    one second after the one read. *)
Lemma wake_after_one_second (now last wake : Q) :
  reading now -> reading last -> (1 <= last)%Q -> (last <= now)%Q ->
  slept (pause_for (Fin 1) now last) now wake ->
  (last + 1 <= wake)%Q.
Proof.
  intros Hnow Hlast H1 Hle (_ & Hlate & Hslept).
  destruct (sub_readings now last Hnow Hlast Hle) as (elapsed & Hsub & _ & He0 & Herr).
  pose proof (sub_is_round _ _ _ Hsub) as Hround.
  unfold pause_for in Hslept. rewrite Hsub in Hslept. simpl in Hslept.
  destruct (Qlt_le_dec (now - last) 2) as [Hnear|Hfar].
  - destruct (reading_grid52 now Hnow ltac:(lra)) as [k1 Hk1].
    destruct (reading_grid52 last Hlast H1) as [k2 Hk2].
    assert (now - last == inject_Z (k1 - k2) * pow2 (-52))%Q as Hdiff.
    { rewrite Hk1, Hk2. unfold Z.sub. rewrite inject_Z_plus, inject_Z_opp. ring. }
    pose proof pow2_m52 as Hu.
    assert (0 <= k1 - k2 < 2 ^ 53)%Z as Hrange.
    { assert (0 <= inject_Z (k1 - k2) < inject_Z (2 ^ 53))%Q as [Ha Hb].
      { rewrite Hdiff, Hu in Hnear. assert (0 <= now - last)%Q as Hd by lra.
        rewrite Hdiff, Hu in Hd. change (inject_Z (2 ^ 53)) with 9007199254740992%Q.
        split; lra. }
      change 0%Q with (inject_Z 0) in Ha.
      rewrite <- Zle_Qle in Ha. rewrite <- Zlt_Qlt in Hb. lia. }
    assert (elapsed == now - last)%Q as Hexact.
    { rewrite Hround. apply (round_exact _ (k1 - k2) (-52)); [done|lia|lia]. }
    destruct (Qle_bool 1 elapsed) eqn:Hcmp; simpl in Hslept.
    + apply Qle_bool_iff in Hcmp. lra.
    + assert (elapsed < 1)%Q as Hlt.
      { apply Qnot_le_lt. intros H. apply Qle_bool_iff in H. congruence. }
      assert (round (1 - elapsed) == 1 - elapsed)%Q as Hpause.
      { apply (round_exact _ (2 ^ 52 - (k1 - k2)) (-52)); [|lia|lia].
        assert (inject_Z (2 ^ 52 - (k1 - k2))
                == 4503599627370496 - inject_Z (k1 - k2))%Q as ->.
        { unfold Z.sub at 1. rewrite inject_Z_plus, inject_Z_opp. reflexivity. }
        rewrite Hu in Hdiff |- *. lra. }
      assert (rounded (1 - elapsed) = Fin (round (1 - elapsed))) as Hfin.
      { apply rounded_Fin. rewrite Hpause, Qabs_pos by lra.
        assert (1 < pow2 1024)%Q by reflexivity. lra. }
      rewrite Hfin in Hslept. specialize (Hslept _ eq_refl). lra.
  - apply Qabs_Qle_condition in Herr. pose proof pow2_m53 as Hu. rewrite Hu in Herr.
    destruct (Qle_bool 1 elapsed) eqn:Hcmp; simpl in Hslept; [lra|].
    exfalso. assert (1 <= elapsed)%Q as Hge by lra.
    apply Qle_bool_iff in Hge. congruence.
Qed.

Lemma interval_60 : interval_of 60 = Value (Fin 1).
Proof. vm_compute. reflexivity. Qed.

Lemma on_grid_1 : on_grid 1.
Proof. exists (2 ^ 1074)%Z. rewrite <- pow2_Z by lia. reflexivity. Qed.

(** One call at 60 requests per minute, made when the clock reads [arrival]. *)
Lemma call_60 (w : World) (self : nat) (last arrival wake : Q) :
  sound w -> is_Some (instances w !! self) ->
  getattr w self "_last_request_time" = Some (VFloat last) ->
  reading last -> (last <= clock w)%Q ->
  reading arrival -> (clock w <= arrival)%Q ->
  on_time 60 self wake (tick arrival w) ->
  let w' := leave self 0 wake (acquire 0 (tick arrival w)) in
  _apply_rate_limit 60 self wake (tick arrival w) = Some w'
  /\ sound w' /\ is_Some (instances w' !! self)
  /\ getattr w' self "_last_request_time" = Some (VFloat wake)
  /\ reading wake /\ (arrival <= wake)%Q
  /\ ((1 <= last)%Q -> (last + 1 <= wake)%Q).
Proof.
  intros Hs Hself Hlast Hread Hle Harr Hlate Hon w'.
  pose proof (tick_sound w arrival Hs Harr Hlate) as Hs0.
  assert (enter 60 self (tick arrival w)
          = Holding 0 (pause_for (Fin 1) arrival last) (acquire 0 (tick arrival w))) as He.
  { by apply (enter_free (tick arrival w) 60 self (Fin 1) last); [| | |apply interval_60|]. }
  destruct (Hon _ _ _ He) as (Hwake & Hge & Hslept). simpl in Hge.
  split.
  { apply (call_free (tick arrival w) 60 self 1 last wake Hs0 Hself ltac:(lia)
             interval_60 on_grid_1 ltac:(lra) ltac:(lra) Hlast Hread).
    simpl. lra. }
  split; [by apply leave_sound|]. split; [by apply leave_instances|].
  split; [by apply leave_stamp|]. split; [done|]. split; [done|].
  intros H1. apply (wake_after_one_second arrival last wake Harr Hread H1 ltac:(lra)).
  split; [done|]. split; done.
Qed.

Lemma sequential_bound (self : nat) (timings : list Timing) (w : World) (last : Q) :
  sound w -> is_Some (instances w !! self) ->
  getattr w self "_last_request_time" = Some (VFloat last) ->
  reading last -> (1 <= last)%Q -> (last <= clock w)%Q ->
  timely 60 self timings w ->
  exists w',
    sequential_calls 60 self timings w = Some w'
    /\ (last + Qn (length timings) <= clock w')%Q.
Proof.
  revert w last.
  induction timings as [|t rest IH]; intros w last Hs Hself Hlast Hread H1 Hle Htimely.
  - exists w. split; [done|]. change (Qn (length [])) with 0%Q. lra.
  - destruct Htimely as (Harr & Hlate & Hon & Hrest).
    destruct (call_60 w self last (arrival t) (wake t) Hs Hself Hlast Hread Hle Harr Hlate Hon)
      as (Hcall & Hs1 & Hself1 & Hlast1 & Hwake & Hge & Hsec).
    cbn [sequential_calls]. rewrite Hcall in Hrest |- *.
    specialize (Hsec H1).
    destruct (IH _ (wake t) Hs1 Hself1 Hlast1 Hwake ltac:(lra) ltac:(simpl; lra) Hrest)
      as (w' & Hrun & Hbound).
    exists w'. split; [done|]. cbn [length]. rewrite advance_Qn. lra.
Qed.

Lemma reading_1700000000 : reading 1700000000.
Proof. split; [reflexivity|]. split; vm_compute; discriminate. Qed.

Lemma two_backends_built : built two_backends.
Proof. repeat constructor; try apply reading_1700000000. Defined.

(** C1 (counterexample): [_request_lock] is an attribute of the class and
    is never assigned on an instance, so for two backends constructed one
    after the other [self._request_lock] is the same lock object. *)
Lemma pacing_lock_counterexample : ~ stated_pacing_ownership.
Proof.
  intros H.
  apply (H two_backends 0%nat 1%nat 0%nat 0%nat); try done.
  apply two_backends_built.
Qed.

(** C1 (amended): between calls, for every backend instance: its
    [_request_lock] is the one lock of the class, the same for all instances,
    and while one instance pauses inside it a call on any instance waits.
    With [rate_limit_rpm = r > 0] too large to convert to a float, as every
    [r] from [2^1024] on is and no [r] up to the largest float, the
    division raises an [OverflowError] before the lock is taken. Otherwise
    the call computes in binary64: the interval [60.0 / r], which lies
    within [2^-51] of [60/r]; the elapsed time since the timestamp it
    read, rounded; and, when that is smaller than the interval, a sleep
    of their rounded difference (no sleep otherwise). With a clock that
    does not run backwards and sleeps that last as long as asked, the call
    returns, and the timestamp it records lies at least [60/r] after the
    one it read, less a rounding error of at most [2^-51] of it; the
    timestamp is written to the instance, and what any other instance
    reads as its timestamp is unchanged. With [r <= 0] the call returns at
    once and changes nothing. At [r = 60] the interval is exactly one second
    and, with clock readings of at least one second, N calls one after the
    other on the instance take at least N-1 seconds. *)
Theorem pacing_interval_and_ownership (w : World) (self : nat) :
  built w -> is_Some (instances w !! self) ->
  getattr w self "_request_lock" = Some (VLock 0)
  /\ (forall rpm rpm' other,
        (0 < rpm)%Z -> is_Some (of_int rpm) ->
        (0 < rpm')%Z -> is_Some (of_int rpm') ->
        is_Some (instances w !! other) ->
        exists pause w1,
          enter rpm self w = Holding 0 pause w1 /\ enter rpm' other w1 = Waiting 0)
  /\ (forall rpm wake,
        (0 < rpm)%Z -> of_int rpm = None ->
        enter rpm self w = Raised "OverflowError"
        /\ _apply_rate_limit rpm self wake w = None)
  /\ (forall rpm,
        ((0 < rpm)%Z -> (inject_Z rpm <= max_float)%Q -> is_Some (of_int rpm))
        /\ ((2 ^ 1024 <= rpm)%Z -> of_int rpm = None))
  /\ (forall rpm,
        (0 < rpm)%Z -> is_Some (of_int rpm) ->
        exists last interval elapsed pause,
          getattr w self "_last_request_time" = Some (VFloat last)
          /\ interval_of rpm = Value (Fin interval)
          /\ (60 / inject_Z rpm * (1 - pow2 (-52)) <= interval)%Q
          /\ (interval <= 60 / inject_Z rpm * (1 + pow2 (-51)))%Q
          /\ sub (Fin (clock w)) (Fin last) = Fin elapsed
          /\ (Qabs (elapsed - (clock w - last)) <= pow2 (-53) * (clock w - last))%Q
          /\ enter rpm self w = Holding 0 pause (acquire 0 w)
          /\ ((interval <= elapsed)%Q /\ pause = None
              \/ (elapsed < interval)%Q
                 /\ exists p,
                      pause = Some (Fin p) /\ (0 <= p)%Q
                      /\ (Qabs (p - (interval - elapsed))
                          <= pow2 (-53) * (interval - elapsed))%Q)
          /\ forall wake,
               slept pause (clock w) wake ->
               exists w',
                 _apply_rate_limit rpm self wake w = Some w'
                 /\ clock w' = wake
                 /\ getattr w' self "_last_request_time" = Some (VFloat wake)
                 /\ (60 / inject_Z rpm * (1 - pow2 (-51)) <= wake - last)%Q
                 /\ (forall other, other <> self ->
                       getattr w' other "_last_request_time"
                       = getattr w other "_last_request_time"))
  /\ (forall rpm wake,
        (rpm <= 0)%Z -> _apply_rate_limit rpm self wake w = Some w)
  /\ interval_of 60 = Value (Fin 1)
  /\ (forall timings,
        (1 <= clock w)%Q -> timely 60 self timings w ->
        exists w',
          sequential_calls 60 self timings w = Some w'
          /\ (Qn (length timings) - 1 <= clock w' - clock w)%Q).
Proof.
  intros Hb Hself. pose proof (built_sound w Hb) as Hs.
  destruct (getattr_stamp w self Hs Hself) as (last & Hlast & Hread & Hle).
  split; [by apply getattr_lock|].
  split; [|split; [|split; [|split; [|split; [|split]]]]].
  - intros rpm rpm' other Hrpm Hconv Hrpm' Hconv' Hother.
    destruct (interval_close rpm Hrpm Hconv) as (interval & Hint & _).
    exists (pause_for (Fin interval) (clock w) last), (acquire 0 w).
    split; [by apply enter_free|].
    apply enter_while_held; try done.
    + apply (sound_class w Hs).
    + intros d. apply (sound_no_lock w Hs).
    + simpl. set_solver.
  - intros rpm wake Hrpm Hnone.
    pose proof (enter_overflow w rpm self Hrpm Hnone) as He.
    split; [done|]. unfold _apply_rate_limit. by rewrite He.
  - intros rpm. split; [apply of_int_converts|apply of_int_overflows].
  - intros rpm Hrpm Hconv.
    destruct (interval_close rpm Hrpm Hconv)
      as (interval & Hint & Hgrid & Hi0 & Hi61 & Hlow & Hup).
    destruct (pause_for_cases interval (clock w) last Hgrid Hi0 Hi61
                (sound_clock w Hs) Hread Hle)
      as (elapsed & Hsub & He0 & Herr & Hcases).
    exists last, interval, elapsed, (pause_for (Fin interval) (clock w) last).
    split; [done|]. split; [done|]. split; [done|]. split; [done|].
    split; [done|]. split; [done|]. split; [by apply enter_free|].
    split; [exact Hcases|].
    intros wake Hslept. exists (leave self 0 wake (acquire 0 w)).
    split; [by apply (call_free w rpm self interval last)|].
    split; [done|]. split; [by apply leave_stamp|]. split.
    + pose proof (wake_after_interval interval (clock w) last wake Hgrid Hi0 Hi61
                    (sound_clock w Hs) Hread Hle Hslept) as Hwake.
      assert (0 < 60 / inject_Z rpm)%Q as Hq.
      { apply Qlt_shift_div_l; [rewrite <- (Zlt_Qlt 0); lia|lra]. }
      pose proof pow2_m53 as H53. pose proof pow2_m52 as H52. pose proof pow2_m51 as H51.
      rewrite H53 in Hwake. rewrite H52 in Hlow. rewrite H51.
      set (q := (60 / inject_Z rpm)%Q) in *. lra.
    + intros other Hne. by rewrite leave_other.
  - intros rpm wake. apply call_skipped.
  - apply interval_60.
  - intros timings Hclock Htimely.
    destruct timings as [|t rest].
    { exists w. split; [done|]. change (Qn (length [])) with 0%Q. lra. }
    destruct Htimely as (Harr & Hlate & Hon & Hrest).
    destruct (call_60 w self last (arrival t) (wake t) Hs Hself Hlast Hread Hle Harr Hlate Hon)
      as (Hcall & Hs1 & Hself1 & Hlast1 & Hwake & Hge & _).
    cbn [sequential_calls]. rewrite Hcall in Hrest |- *.
    destruct (sequential_bound self rest _ (wake t) Hs1 Hself1 Hlast1 Hwake
                ltac:(lra) ltac:(simpl; lra) Hrest)
      as (w' & Hrun & Hbound).
    exists w'. split; [done|]. cbn [length]. rewrite advance_Qn. lra.
Qed.

(** a sample timing is checked by evaluation *)
Ltac a_reading := split; [reflexivity|split; vm_compute; discriminate].

Ltac a_sleep :=
  let lock := fresh in
  let pause := fresh in
  let w1 := fresh in
  let He := fresh in
  intros lock pause w1 He; vm_compute in He; injection He as <- <- <-;
  split; [a_reading|split; [vm_compute; discriminate|]];
  let p := fresh in
  let Hp := fresh in
  intros p Hp; try discriminate Hp; injection Hp as <-; vm_compute; discriminate.

Ltac a_call :=
  split; [a_reading|]; split; [vm_compute; discriminate|]; split; [a_sleep|];
  match goal with
  | |- match ?c with _ => _ end =>
      let v := eval vm_compute in c in change c with v; cbv beta iota
  end.

Lemma pacing_witness :
  built two_backends /\ is_Some (instances two_backends !! 0%nat)
  /\ exists w',
       sequential_calls 60 0
         [mkTiming 1700000000 1700000000; mkTiming (6800000001 # 4) 1700000001;
          mkTiming 1700000003 1700000003] two_backends
         = Some w'
       /\ (Qn 3 - 1 <= clock w' - clock two_backends)%Q.
Proof.
  assert (is_Some (instances two_backends !! 0%nat)) as Hself.
  { exists {[ "_provider" := VObj "ProviderConfig"; "_timeout" := VFloat 720;
              "_client" := VNone ]}. reflexivity. }
  split; [exact two_backends_built|]. split; [exact Hself|].
  apply (pacing_interval_and_ownership two_backends 0%nat two_backends_built Hself).
  - vm_compute. discriminate.
  - a_call. a_call. a_call. exact I.
Defined.

(** Three calls at 60 requests per minute, the second a quarter of a second
    after the first, the third two seconds after the second: the clock ends
    three seconds later. *)
Example three_paced_calls :
  match sequential_calls 60 0
          [mkTiming 1700000000 1700000000; mkTiming (6800000001 # 4) 1700000001;
           mkTiming 1700000003 1700000003] two_backends with
  | Some w' =>
      (clock w' == 1700000003)%Q
      /\ getattr w' 0%nat "_last_request_time" = Some (VFloat (clock w'))
      /\ getattr w' 1%nat "_last_request_time" = Some (VFloat 0)
  | None => False
  end.
Proof. by vm_compute. Qed.

(** The second of these calls asks for three quarters of a second. *)
Example pause_at_sixty :
  pause_for (Fin 1) (6800000001 # 4) 1700000000 = Some (Fin (3 # 4)).
Proof. vm_compute. reflexivity. Qed.

(** At 7 requests per minute the arithmetic rounds: one second after the
    last request the call asks for less than [60/7 - 1] seconds, so that a
    sleep of just that length ends before [60/7] seconds have passed. *)
Example pause_at_seven :
  enter 7 0 one_second_later
  = Holding 0 (Some (Fin (4262335361618505 # 562949953421312))) (acquire 0 one_second_later)
  /\ (4262335361618505 # 562949953421312 < 60 / 7 - 1)%Q.
Proof. split; [vm_compute; reflexivity|reflexivity]. Qed.

(** An int of 1024 bits does not convert, the largest float does. *)
Example of_int_limits :
  of_int (2 ^ 1024 - 2 ^ 970) = None
  /\ is_Some (of_int (2 ^ 1024 - 2 ^ 970 - 1))
  /\ enter (2 ^ 1024) 0 two_backends = Raised "OverflowError".
Proof.
  split; [vm_compute; reflexivity|]. split; [vm_compute; eauto|vm_compute; reflexivity].
Qed.

(** The operations agree with the machine's binary64 arithmetic on these
    values. *)
Example machine_arithmetic :
  same (value (60 / 7)%float) (rounded (60 / 7)) = true
  /\ same (value (60 / 60)%float) (rounded (60 / 60)) = true
  /\ same (value (60 / 9007199254740992)%float)
          (match interval_of 9007199254740993 with Value f => f | _ => NaN end) = true
  /\ same (value (1700000001 - 1700000000)%float)
          (sub (Fin 1700000001) (Fin 1700000000)) = true
  /\ same (value (60 / 7 - (1700000001 - 1700000000))%float)
          (sub (rounded (60 / 7)) (sub (Fin 1700000001) (Fin 1700000000))) = true
  /\ same (value (1700000000.25 - 1700000000)%float)
          (sub (Fin (6800000001 # 4)) (Fin 1700000000)) = true
  /\ same (value (0x1p-1074 - 0x1.8p-1073)%float)
          (sub (Fin (pow2 (-1074))) (Fin (3 * pow2 (-1074)))) = true
  /\ same (value (0x1.fffffffffffffp+1023 - (- 0x1.fffffffffffffp+1023))%float)
          (sub (Fin max_float) (Fin (- max_float))) = true.
Proof. vm_compute. repeat split. Qed.

(** For every rate from 1 to 2000 the interval is the machine's, and for
    the rates up to 60 and every eighth of a second up to eight seconds so
    is the pause. *)
Example machine_intervals_and_pauses :
  forallb same_interval (upto 2000) = true
  /\ forallb (fun r => forallb (same_pause r) (upto 64)) (upto 60) = true.
Proof. split; vm_compute; reflexivity. Qed.

End PacingFacts.

(** ** Built-in tools *)

Module ToolsFacts.
Import Tools.







Example list_work_directory :
  trace (ListDirectory_run demo_fs (mkListDirectoryArgs "/work"))
  = ([mkListDirectoryResult "/work" [mkFileInfo "notes.txt" "file" 16 1700000000]], None).
Proof. reflexivity. Qed.

Example list_unknown_home :
  trace (ListDirectory_run demo_fs (mkListDirectoryArgs "~nosuchuser"))
  = ([], Some (Exn RuntimeError "Could not determine home directory.")).
Proof. reflexivity. Qed.

Example read_second_line :
  trace (ReadLines_run (mkReadLinesConfig 64000) demo_fs (mkReadLinesArgs "notes.txt" 2 2))
  = ([mkReadLinesResult "/work/notes.txt" ("beta" +:+ String newline "") 1 3], None).
Proof. by vm_compute. Qed.

Example read_beyond_limit :
  trace (ReadLines_run (mkReadLinesConfig 4) demo_fs (mkReadLinesArgs "notes.txt" 1 3))
  = ([], Some (Exn ToolError
                 "Error reading lines: Read operation exceeds max_read_bytes (4)")).
Proof. by vm_compute. Qed.

(** An end line below zero counts from the end of the file, as Python
    slices do. *)
Example read_up_to_last_line :
  trace (ReadLines_run (mkReadLinesConfig 64000) demo_fs
           (mkReadLinesArgs "notes.txt" 1 (-1)))
  = ([mkReadLinesResult "/work/notes.txt"
        ("alpha" +:+ String newline "" +:+ "beta" +:+ String newline "") 2 3], None).
Proof. by vm_compute. Qed.

End ToolsFacts.

(** ** Preparing messages and mapping well-shaped responses *)

Module ExchangeFacts.
Import Backend Prepared.

#[local] Set Warnings "-clear-no-such-hyp".

Lemma Role_of_string_ok (s : string) :
  is_ok (Role_of_string s) = true <-> s ∈ role_values.
Proof.
  unfold role_values. rewrite !elem_of_cons, elem_of_nil. unfold Role_of_string.
  repeat (destruct (decide _) as [->|?]; [simpl; naive_solver|]).
  simpl. naive_solver.
Qed.

Lemma Role_of_string_value (r : Role) : Role_of_string (Role_value r) = Ok r.
Proof. by destruct r. Qed.

Lemma Role_of_string_raises (s : string) (e : exn) :
  Role_of_string s = Raise e -> exn_class e = ValueError.
Proof.
  unfold Role_of_string. repeat (destruct (decide _); [done|]). by intros [= <-].
Qed.

(** [_prepare_messages] keeps the number and the order of the messages; each
    prepared message is a dict whose [role] is the value of the message's role
    and whose [content] is a string, the empty one when the message has none;
    it has a [tool_calls] entry exactly for an assistant message with at least
    one tool call, listing as many calls as the message has; and it has the
    [tool_call_id] and [name] entries exactly for a tool message. *)
Theorem prepare_messages_shape (messages : list LLMMessage) :
  Forall2
    (fun msg prepared =>
       exists d,
         prepared = JDict d
         /\ dict_get d "role" = Some (JStr (Role_value (role msg)))
         /\ (exists text, dict_get d "content" = Some (JStr text)
               /\ text = default "" (content msg))
         /\ (is_Some (dict_get d "tool_calls") <->
               role msg = assistant
               /\ exists tc tcs, tool_calls msg = Some (tc :: tcs))
         /\ (forall calls, tool_calls msg = Some calls -> role msg = assistant ->
               calls <> [] ->
               exists prepared_calls,
                 dict_get d "tool_calls" = Some (JList prepared_calls)
                 /\ length prepared_calls = length calls)
         /\ (is_Some (dict_get d "tool_call_id") <-> role msg = tool)
         /\ (is_Some (dict_get d "name") <-> role msg = tool))
    messages (_prepare_messages messages).
Proof.
  unfold _prepare_messages. induction messages as [|msg rest IH]; simpl; constructor;
    [|exact IH].
  assert (PyStr.or_else (default "" (content msg)) "" = default "" (content msg)) as Hc.
  { unfold PyStr.or_else. destruct (PyStr.truthy _) eqn:Ht; [done|].
    by apply ConfigFacts.truthy_false in Ht. }
  unfold prepare_message. rewrite Hc. clear Hc IH.
  destruct msg as [r c rc tcs id nm]. simpl.
  destruct r; [| |destruct tcs as [[|tc tcs]|]|];
    (eexists; split; [reflexivity|]); simpl; unfold is_Some;
    repeat split; try naive_solver.
  intros calls [= <-] _ _. eexists. split; [reflexivity|]. simpl. by rewrite length_map.
Qed.

(** [_map_response_to_chunk] raises exactly when the first choice has a
    message (or, without one, a delta) whose role is a non-empty string that
    is not the value of a [Role]; what it raises is then a [ValueError]. When
    it returns, the message has a content string (never [None]), its role is
    the one named, [assistant] when none is, its tool calls are either absent
    or a non-empty list as long as the response's, it carries no
    [tool_call_id] and no [name], and the usage is the response's. *)
Theorem map_response_raises_on_unknown_role_only (response : Response) :
  (is_ok (_map_response_to_chunk response) = false <->
     exists choice rest message_data role_str,
       resp_choices response = Some (choice :: rest)
       /\ message_data_of choice = Some message_data
       /\ md_role message_data = Some role_str
       /\ role_str <> "" /\ role_str ∉ role_values)
  /\ (forall e, _map_response_to_chunk response = Raise e -> exn_class e = ValueError)
  /\ (forall chunk,
        _map_response_to_chunk response = Ok chunk ->
        is_Some (content (message chunk))
        /\ tool_calls (message chunk) <> Some []
        /\ tool_call_id (message chunk) = None
        /\ Types.name (message chunk) = None
        /\ usage chunk = map_usage response
        /\ (forall choice rest message_data,
              resp_choices response = Some (choice :: rest) ->
              message_data_of choice = Some message_data ->
              Role_of_string
                (PyStr.or_else (default "assistant" (md_role message_data)) "assistant")
                = Ok (role (message chunk))
              /\ content (message chunk) = Some (default "" (md_content message_data))
              /\ (forall calls, md_tool_calls message_data = Some calls ->
                    calls <> [] ->
                    exists mapped, tool_calls (message chunk) = Some mapped
                                   /\ length mapped = length calls))).
Proof.
  unfold _map_response_to_chunk, message_data_of.
  destruct (resp_choices response) as [[|choice rest]|] eqn:Hch.
  1: { simpl. split. { split; [done|naive_solver]. } split; [done|].
       intros chunk Hk. injection Hk as <-. simpl.
       split; [eauto|]. do 4 (split; [done|]). intros c r m Hno. discriminate Hno. }
  2: { simpl. split. { split; [done|naive_solver]. } split; [done|].
       intros chunk Hk. injection Hk as <-. simpl.
       split; [eauto|]. do 4 (split; [done|]). intros c r m Hno. discriminate Hno. }
  destruct (match ch_message choice with Some m => Some m | None => ch_delta choice end)
    as [md|] eqn:Hmd.
  2: { simpl. split; [split; [done|]|].
       - intros (c & r & m & s & [= <- <-] & Hm & _). congruence.
       - split; [done|]. intros chunk [= <-]. simpl.
         split; [eauto|]. do 4 (split; [done|]).
         intros c r m [= <- <-] Hm. congruence. }
  set (role_str := PyStr.or_else (default "assistant" (md_role md)) "assistant").
  assert (PyStr.or_else (default "" (md_content md)) "" = default "" (md_content md)) as Hc.
  { unfold PyStr.or_else. destruct (PyStr.truthy _) eqn:Ht; [done|].
    by apply ConfigFacts.truthy_false in Ht. }
  rewrite Hc.
  assert (role_str ∉ role_values <->
          exists s, md_role md = Some s /\ s <> "" /\ s ∉ role_values) as Hrole.
  { unfold role_str, PyStr.or_else. destruct (md_role md) as [s|]; simpl.
    - destruct (PyStr.truthy s) eqn:Ht.
      + apply ConfigFacts.truthy_true in Ht. naive_solver.
      + apply ConfigFacts.truthy_false in Ht. subst. split; [|naive_solver].
        intros H. destruct H. unfold role_values. set_solver.
    - split; [|naive_solver]. intros H. destruct H. unfold role_values. set_solver. }
  destruct (Role_of_string role_str) as [r|e] eqn:Hr; simpl.
  - assert (role_str ∈ role_values) as Hin by (apply Role_of_string_ok; by rewrite Hr).
    split; [split; [done|]|].
    { intros (c & rs & m & s & [= <- <-] & Hm & Hs & Hne & Hout).
      rewrite Hmd in Hm. injection Hm as <-.
      assert (role_str ∉ role_values) as Hno by (apply Hrole; eauto). done. }
    split; [done|]. intros chunk [= <-]. simpl.
    split; [eauto|]. split; [by destruct (md_tool_calls md) as [[|]|]|].
    do 3 (split; [done|]).
    intros c rs m [= <- <-] Hm. rewrite Hmd in Hm. injection Hm as <-.
    split; [done|]. split; [done|].
    intros calls Hcalls Hne. rewrite Hcalls. destruct calls as [|tc tcs]; [done|].
    eexists. split; [done|]. simpl. by rewrite length_map.
  - assert (role_str ∉ role_values) as Hout.
    { intros Hin. apply Role_of_string_ok in Hin. by rewrite Hr in Hin. }
    split; [split; [intros _|done]|].
    { apply Hrole in Hout as (s & Hs & Hne & Hno). by exists choice, rest, md, s. }
    split; [|done]. intros e' [= <-]. by eapply Role_of_string_raises.
Qed.

End ExchangeFacts.

(** ** The provider and the API key of a loaded configuration *)

Module ProviderFacts.
Import Config.

#[local] Set Warnings "-clear-no-such-hyp".

Lemma get_provider_for_model_ok (self : HacxgentConfig) (model : ModelConfig)
    (provider : ProviderConfig) :
  get_provider_for_model self model = Ok provider <->
  exists before after,
    providers self = before ++ provider :: after
    /\ pc_name provider = mc_provider model
    /\ Forall (fun p => pc_name p <> mc_provider model) before.
Proof.
  unfold get_provider_for_model.
  destruct (List.find _ _) as [p|] eqn:Hf.
  - split.
    + intros [= <-]. apply ConfigFacts.find_first in Hf as (b & t & Hl & Hp & Hb).
      exists b, t. split; [done|]. split; [by apply bool_decide_eq_true in Hp|].
      eapply Forall_impl; [exact Hb|]. intros x Hx. by apply bool_decide_eq_false in Hx.
    + intros (b & t & Hl & Hp & Hb).
      assert (List.find (fun q => bool_decide (pc_name q = mc_provider model))
                (providers self) = Some provider) as Hf'.
      { apply ConfigFacts.find_first. exists b, t. split; [done|].
        split; [by apply bool_decide_eq_true|].
        eapply Forall_impl; [exact Hb|]. intros x Hx. by apply bool_decide_eq_false. }
      congruence.
  - split; [done|]. intros (b & t & Hl & Hp & Hb).
    rewrite ConfigFacts.find_none_iff in Hf.
    assert (provider ∈ providers self) as Hin by (rewrite Hl; set_solver).
    specialize (Hf provider Hin). by apply bool_decide_eq_false in Hf.
Qed.

Lemma check_api_key_ok (env : Env) (self cfg : HacxgentConfig) :
  _check_api_key env self = Ok cfg ->
  cfg = self
  /\ exists model provider,
       get_active_model self = Ok model
       /\ get_provider_for_model self model = Ok provider
       /\ (pc_api_key_env_var provider = ""
           \/ exists key,
                environ env !! pc_api_key_env_var provider = Some key /\ key <> "").
Proof.
  unfold _check_api_key, getenv.
  destruct (get_active_model self) as [model|e0] eqn:Hm; simpl; [|done].
  destruct (get_provider_for_model self model) as [provider|e0] eqn:Hp; simpl; [|done].
  destruct (PyStr.truthy (pc_api_key_env_var provider)) eqn:Hvar; simpl.
  - destruct (environ env !! pc_api_key_env_var provider) as [key|] eqn:Hkey; simpl; [|done].
    destruct (PyStr.truthy key) eqn:Hk; simpl; [|done].
    apply ConfigFacts.truthy_true in Hk. intros [= <-]. split; [done|].
    exists model, provider. eauto 8.
  - apply ConfigFacts.truthy_false in Hvar. intros [= <-]. split; [done|].
    exists model, provider. eauto.
Qed.

(** [_check_api_key] has three outcomes. It returns the configuration
    unchanged exactly when the active model resolves, the first provider named
    by that model exists, and this provider either names no key variable or
    names one that is set to a non-empty value. It raises
    [MissingAPIKeyError], naming the variable and the provider, exactly when
    model and provider resolve and the variable named is unset or empty. In
    every other case it raises the [ValueError] of [get_active_model] or of
    [get_provider_for_model]. *)
Theorem check_api_key_outcomes (env : Env) (self : HacxgentConfig) :
  let usable model provider :=
    get_active_model self = Ok model
    /\ get_provider_for_model self model = Ok provider in
  let key_present provider :=
    exists key, environ env !! pc_api_key_env_var provider = Some key /\ key <> "" in
  (forall cfg, _check_api_key env self = Ok cfg <->
     cfg = self
     /\ exists model provider,
          usable model provider
          /\ (pc_api_key_env_var provider = "" \/ key_present provider))
  /\ (forall e, _check_api_key env self = Raise e ->
        exn_class e = MissingAPIKeyError \/ exn_class e = ValueError)
  /\ (forall e, _check_api_key env self = Raise e ->
        (exn_class e = MissingAPIKeyError <->
         exists model provider,
           usable model provider
           /\ pc_api_key_env_var provider <> "" /\ ~ key_present provider
           /\ exn_msg e = "Missing " +:+ pc_api_key_env_var provider
                          +:+ " environment variable for " +:+ pc_name provider
                          +:+ " provider")).
Proof.
  intros usable key_present. unfold usable, key_present, _check_api_key, getenv.
  destruct (get_active_model self) as [model|e0] eqn:Hm; simpl.
  2: { split; [|split].
       - intros cfg. split; [done|]. intros (_ & m & p & [? _] & _). done.
       - intros e [= <-]. right. unfold get_active_model in Hm.
         destruct (if PyStr.truthy _ then _ else _); [done|].
         destruct (List.find _ _); [done|]. destruct (models self); by injection Hm as <-.
       - intros e [= <-]. split.
         + intros Hcls. unfold get_active_model in Hm.
           destruct (if PyStr.truthy _ then _ else _); [done|].
           destruct (List.find _ _); [done|].
           destruct (models self); injection Hm as <-; done.
         + intros (m & p & [? _] & _). done. }
  destruct (get_provider_for_model self model) as [provider|e0] eqn:Hp; simpl.
  2: { split; [|split].
       - intros cfg. split; [done|]. intros (_ & m & p & [[= <-] Hp'] & _). congruence.
       - intros e [= <-]. right. unfold get_provider_for_model in Hp.
         destruct (List.find _ _); [done|]. by injection Hp as <-.
       - intros e [= <-]. split.
         + intros Hcls. unfold get_provider_for_model in Hp.
           destruct (List.find _ _); [done|]. by injection Hp as <-.
         + intros (m & p & [[= <-] Hp'] & _). congruence. }
  destruct (PyStr.truthy (pc_api_key_env_var provider)) eqn:Hvar; simpl.
  - apply ConfigFacts.truthy_true in Hvar.
    destruct (environ env !! pc_api_key_env_var provider) as [key|] eqn:Hkey; simpl.
    + destruct (PyStr.truthy key) eqn:Hk; simpl.
      * apply ConfigFacts.truthy_true in Hk. split; [|split]; [|done|done].
        intros cfg. split.
        -- intros [= <-]. split; [done|]. exists model, provider. eauto 8.
        -- by intros [-> _].
      * apply ConfigFacts.truthy_false in Hk. subst key. split; [|split].
        -- intros cfg. split; [done|].
           intros (_ & m & p & [[= <-] Hp2] & Hor).
           rewrite Hp in Hp2. injection Hp2 as <-.
           destruct Hor as [?|(k & Hk1 & Hk2)]; [done|].
           rewrite Hkey in Hk1. by injection Hk1 as <-.
        -- intros e [= <-]. by left.
        -- intros e [= <-]. split; [intros _|done].
           exists model, provider. repeat split; try done.
           intros (k & Hk1 & Hk2). rewrite Hkey in Hk1. by injection Hk1 as <-.
    + split; [|split].
      * intros cfg. split; [done|].
        intros (_ & m & p & [[= <-] Hp2] & Hor).
        rewrite Hp in Hp2. injection Hp2 as <-.
        destruct Hor as [?|(k & Hk1 & Hk2)]; [done|].
        by rewrite Hkey in Hk1.
      * intros e [= <-]. by left.
      * intros e [= <-]. split; [intros _|done].
        exists model, provider. repeat split; try done.
        intros (k & Hk1 & Hk2). by rewrite Hkey in Hk1.
  - apply ConfigFacts.truthy_false in Hvar. split; [|split]; [|done|done].
    intros cfg. split.
    + intros [= <-]. split; [done|]. exists model, provider. eauto.
    + by intros [-> _].
Qed.

(** A configuration that [load] returns is usable: its active model resolves
    to one of its models, the first provider with that model's provider name
    is among its providers, the key variable that provider names, if any, is
    set to a non-empty value, and its system prompt can be read. *)
Theorem loaded_config_is_usable (env : Env) (raw : RawConfig) (cfg : HacxgentConfig) :
  load env raw = Ok cfg ->
  exists model provider,
    get_active_model cfg = Ok model
    /\ model ∈ models cfg
    /\ get_provider_for_model cfg model = Ok provider
    /\ provider ∈ providers cfg
    /\ pc_name provider = mc_provider model
    /\ (pc_api_key_env_var provider <> "" ->
        exists key, environ env !! pc_api_key_env_var provider = Some key /\ key <> "")
    /\ is_ok (system_prompt env cfg) = true.
Proof.
  intros (_ & _ & Hkey & _ & Hprompt)%ConfigFacts.load_ok_inv.
  apply check_api_key_ok in Hkey as (_ & model & provider & Hm & Hp & Hk).
  exists model, provider. split; [done|].
  pose proof Hp as (b & t & Hl & Hname & _)%get_provider_for_model_ok.
  split.
  { unfold get_active_model in Hm.
    destruct (if PyStr.truthy _ then _ else _) as [first|] eqn:Hfirst.
    - injection Hm as <-. destruct (PyStr.truthy _); [done|].
      destruct (models cfg); [done|]. injection Hfirst as <-. left.
    - destruct (List.find _ _) as [m|] eqn:Hf; [|by destruct (models cfg)].
      injection Hm as <-. apply find_some in Hf as [Hin _]. by apply list_elem_of_In. }
  split; [done|]. split; [rewrite Hl; set_solver|]. split; [done|].
  split; [intros Hne; by destruct Hk|].
  unfold _check_system_prompt in Hprompt. by destruct (system_prompt env cfg).
Qed.

Lemma loaded_config_witness :
  load sample_env sample_raw
    = Ok (mkHacxgentConfig "hacxgent-cli-latest" "cli"
            [mkProviderConfig "hacxgent" "https://api.hacxgent.ai/v1" "MISTRAL_API_KEY"]
            [mkModelConfig "hacxgent-cli-latest" "hacxgent" "hacxgent-cli-latest" 0 0])
  /\ exists model provider,
       get_active_model
         (mkHacxgentConfig "hacxgent-cli-latest" "cli"
            [mkProviderConfig "hacxgent" "https://api.hacxgent.ai/v1" "MISTRAL_API_KEY"]
            [mkModelConfig "hacxgent-cli-latest" "hacxgent" "hacxgent-cli-latest" 0 0])
         = Ok model
       /\ pc_name provider = mc_provider model.
Proof.
  assert (load sample_env sample_raw
    = Ok (mkHacxgentConfig "hacxgent-cli-latest" "cli"
            [mkProviderConfig "hacxgent" "https://api.hacxgent.ai/v1" "MISTRAL_API_KEY"]
            [mkModelConfig "hacxgent-cli-latest" "hacxgent" "hacxgent-cli-latest" 0 0]))
    as Hload by (vm_compute; reflexivity).
  split; [exact Hload|].
  destruct (loaded_config_is_usable sample_env sample_raw _ Hload)
    as (model & provider & Hm & _ & _ & _ & Hname & _).
  exists model, provider. split; [exact Hm | exact Hname].
Defined.

End ProviderFacts.

(** ** What a validated server entry always satisfies *)

Module ServerFacts.
Import MCP.

(** An [_MCPBase] entry validates exactly when both timeouts are positive.
    The validated entry keeps prompt and timeouts and carries the normalized
    name: every character of it is a letter, a digit, an underscore or a
    hyphen, it has at most 256 characters, it does not begin with an
    underscore or a hyphen, and it does not end with one either as long as the
    configured name, with its excluded characters replaced and its ends
    stripped, has at most 256 characters. *)
Theorem validated_server_shape (raw : MCPBase) :
  (is_ok (MCPBase_validate raw) = true <->
     (0 < startup_timeout_sec raw)%Q /\ (0 < tool_timeout_sec raw)%Q)
  /\ (forall e, MCPBase_validate raw = Raise e -> exn_class e = ValidationError)
  /\ (forall srv,
        MCPBase_validate raw = Ok srv ->
        prompt srv = prompt raw
        /\ startup_timeout_sec srv = startup_timeout_sec raw
        /\ tool_timeout_sec srv = tool_timeout_sec raw
        /\ name srv = normalize_name (name raw)
        /\ Forall (fun c => is_name_char c = true) (PyStr.chars (name srv))
        /\ (String.length (name srv) <= 256)%nat
        /\ (forall c, PyStr.first_char (name srv) = Some c -> is_separator c = false)
        /\ ((String.length (PyStr.strip_by is_separator (re_sub_name (name raw))) <= 256)%nat ->
            forall c, PyStr.last_char (name srv) = Some c -> is_separator c = false)).
Proof.
  unfold MCPBase_validate.
  destruct (Qlt_le_dec 0 (startup_timeout_sec raw)) as [Hs|Hs];
    [destruct (Qlt_le_dec 0 (tool_timeout_sec raw)) as [Ht|Ht]|]; simpl.
  - split; [done|]. split; [done|]. intros srv [= <-]. simpl.
    do 4 (split; [done|]).
    split; [apply NameFacts.normalize_name_charset|].
    split; [apply NameFacts.normalize_name_length|].
    split; [apply NameFacts.normalize_name_first|].
    intros Hlen c. by apply NameFacts.normalize_name_last_when_short.
  - split; [split; [done|]|split; [by intros e [= <-]|done]].
    intros [_ Hpos]. exfalso. lra.
  - split; [split; [done|]|split; [by intros e [= <-]|done]].
    intros [Hpos _]. exfalso. lra.
Qed.

End ServerFacts.

(** ** Lines of a file: reading a range and replacing a range *)

Module LinesFacts.
Import Tools.

Lemma str_app_cons (c : ascii) (r s : string) : String c r +:+ s = String c (r +:+ s).
Proof. reflexivity. Qed.

Lemma str_app_nil_r (s : string) : s +:+ "" = s.
Proof. induction s as [|c r IH]; [done|]. by rewrite str_app_cons, IH. Qed.

Lemma str_app_assoc (a b c : string) : (a +:+ b) +:+ c = a +:+ (b +:+ c).
Proof. induction a as [|x a IH]; [done|]. by rewrite !str_app_cons, IH. Qed.

Lemma join_cons (l : string) (ls : list string) : join (l :: ls) = l +:+ join ls.
Proof. reflexivity. Qed.

Lemma join_app (l1 l2 : list string) : join (l1 ++ l2) = join l1 +:+ join l2.
Proof.
  induction l1 as [|l l1 IH]; [done|].
  by rewrite <- app_comm_cons, !join_cons, IH, str_app_assoc.
Qed.

(** Cutting a text into lines loses nothing: the lines, joined, are the
    text again (after what had been read of the current line). *)
Lemma join_split_keepends (boundary : ascii -> bool) (universal : bool) (n : nat) :
  forall (s cur : string),
    (String.length s <= n)%nat ->
    join (split_keepends boundary universal cur s) = cur +:+ s.
Proof.
  induction n as [|n IH]; intros s cur Hlen.
  - destruct s; [|simpl in Hlen; lia]. simpl.
    destruct (PyStr.truthy cur) eqn:Ht; simpl.
    + by rewrite !str_app_nil_r.
    + apply ConfigFacts.truthy_false in Ht. by subst.
  - destruct s as [|c rest]; simpl.
    + destruct (PyStr.truthy cur) eqn:Ht; simpl.
      * by rewrite !str_app_nil_r.
      * apply ConfigFacts.truthy_false in Ht. by subst.
    + simpl in Hlen.
      destruct (universal && Ascii.eqb c carriage_return).
      * destruct rest as [|d rest'].
        -- simpl. by rewrite str_app_nil_r.
        -- destruct (Ascii.eqb d newline).
           ++ rewrite join_cons, (IH rest' "") by (simpl in Hlen; lia).
              rewrite str_app_assoc. reflexivity.
           ++ rewrite join_cons, (IH (String d rest') "") by (simpl in *; lia).
              rewrite str_app_assoc. reflexivity.
      * destruct (boundary c).
        -- rewrite join_cons, (IH rest "") by lia. rewrite str_app_assoc. reflexivity.
        -- rewrite (IH rest) by lia. rewrite str_app_assoc. reflexivity.
Qed.

Lemma join_readlines (text : string) : join (readlines text) = text.
Proof. unfold readlines. by rewrite (join_split_keepends _ _ (String.length text)). Qed.

Lemma clamp_index_in_range (len i : Z) :
  0 <= i <= len -> clamp_index len i = Z.to_nat i.
Proof.
  intros H. unfold clamp_index.
  destruct (i <? 0)%Z eqn:Hneg; [apply Z.ltb_lt in Hneg; lia|]. f_equal. lia.
Qed.

Lemma clamp_index_bound (len i : Z) : 0 <= len -> (clamp_index len i <= Z.to_nat len)%nat.
Proof.
  intros H. unfold clamp_index.
  destruct (i <? 0)%Z eqn:Hneg; [apply Z.ltb_lt in Hneg|]; lia.
Qed.

Lemma py_slice_length {A} (l : list A) (lo hi : Z) :
  (length (py_slice l lo hi) <= length l)%nat.
Proof.
  unfold py_slice. rewrite length_take, length_drop. lia.
Qed.

Lemma py_slice_in_range {A} (l : list A) (lo hi : Z) :
  0 <= lo <= Z.of_nat (length l) -> 0 <= hi <= Z.of_nat (length l) ->
  length (py_slice l lo hi) = Z.to_nat (hi - lo)
  /\ l = take (Z.to_nat lo) l ++ py_slice l lo hi ++ drop (Z.to_nat (Z.max lo hi)) l.
Proof.
  intros Hlo Hhi. unfold py_slice.
  rewrite !clamp_index_in_range by lia.
  split.
  - rewrite length_take, length_drop. lia.
  - rewrite <- (take_drop (Z.to_nat lo) l) at 1. f_equal.
    rewrite <- (take_drop (Z.to_nat hi - Z.to_nat lo) (drop (Z.to_nat lo) l)) at 1. f_equal.
    rewrite drop_drop. f_equal. lia.
Qed.

(** A slice that starts inside the list cuts it in three, wherever its end
    is put: below zero it counts from the end of the list. *)
Lemma py_slice_cut {A} (l : list A) (lo hi : Z) :
  0 <= lo <= Z.of_nat (length l) ->
  let stop := if (hi <? 0)%Z then Z.max 0 (Z.of_nat (length l) + hi)
              else Z.min hi (Z.of_nat (length l)) in
  Z.of_nat (length (py_slice l lo hi)) = Z.max 0 (stop - lo)
  /\ l = take (Z.to_nat lo) l ++ py_slice l lo hi ++ drop (Z.to_nat (Z.max lo stop)) l.
Proof.
  intros Hlo stop. unfold py_slice.
  rewrite (clamp_index_in_range _ lo) by lia.
  assert (clamp_index (Z.of_nat (length l)) hi = Z.to_nat stop) as ->.
  { unfold clamp_index, stop. destruct (hi <? 0)%Z; f_equal; lia. }
  assert (0 <= stop <= Z.of_nat (length l)) as Hstop.
  { unfold stop. destruct (hi <? 0)%Z eqn:Hneg;
      [apply Z.ltb_lt in Hneg|apply Z.ltb_ge in Hneg]; lia. }
  split.
  - rewrite length_take, length_drop. lia.
  - rewrite <- (take_drop (Z.to_nat lo) l) at 1. f_equal.
    rewrite <- (take_drop (Z.to_nat stop - Z.to_nat lo) (drop (Z.to_nat lo) l)) at 1.
    f_equal. rewrite drop_drop. f_equal. lia.
Qed.

Lemma utf8_len_nonneg (s : string) : 0 <= utf8_len s.
Proof. induction s as [|c r IH]; simpl; [lia|]. destruct (_ <? _)%N; lia. Qed.

(** [sync_read] hands out a contiguous piece of the file, for every line
    range: the text of the file is the lines before the piece, then the
    returned content, then the lines after it. The piece starts at the
    first line asked for (at line 1 when that is lower) and stops at the
    end line, at the last line of the file when the end line lies beyond
    it, and, when the end line is below zero, that many lines before the
    end of the file, as a Python slice does. The number of lines read and the
    total are those of that cut, a start beyond the end gives an empty
    result, and the content never exceeds the configured number of bytes. *)
Theorem read_lines_returns_a_piece_of_the_file
    (config : ReadLinesConfig) (fs : FS) (path : string) (args : ReadLinesArgs)
    (r : ReadLinesResult) :
  sync_read config fs path args = Ok r ->
  exists text,
    read_text fs path = Ok text
    /\ let lines := readlines text in
       let total := Z.of_nat (length lines) in
       let first := Z.max 1 (rl_start_line args) in
       let stop := if (rl_end_line args <? 0)%Z
                   then Z.max 0 (total + rl_end_line args)
                   else Z.min total (rl_end_line args) in
       rlr_file_path r = path
       /\ rlr_total_lines r = total
       /\ 0 <= rlr_lines_read r <= total
       /\ utf8_len (rlr_content r) <= Z.max 0 (max_read_bytes config)
       /\ (total < first -> rlr_content r = "" /\ rlr_lines_read r = 0)
       /\ (first <= total ->
           rlr_lines_read r = Z.max 0 (stop - first + 1)
           /\ rlr_content r
              = join (take (Z.to_nat (stop - first + 1)) (drop (Z.to_nat (first - 1)) lines))
           /\ text = join (take (Z.to_nat (first - 1)) lines)
                     +:+ rlr_content r
                     +:+ join (drop (Z.to_nat (Z.max (first - 1) stop)) lines)).
Proof.
  unfold sync_read, sync_read_body. intros H.
  destruct (read_text fs path) as [text|e] eqn:Hread; simpl in H; [|done].
  exists text. split; [done|]. cbv zeta.
  set (lines := readlines text) in *.
  set (total := Z.of_nat (length lines)) in *.
  set (first := Z.max 1 (rl_start_line args)) in *.
  set (last := Z.min total (rl_end_line args)) in *.
  set (stop := if (rl_end_line args <? 0)%Z then Z.max 0 (total + rl_end_line args)
               else last).
  destruct (total <? first)%Z eqn:Hcmp.
  - apply Z.ltb_lt in Hcmp. injection H as <-. simpl.
    split; [done|]. split; [done|]. split; [lia|].
    split; [lia|]. split; [done|]. intros; lia.
  - apply Z.ltb_ge in Hcmp.
    destruct (max_read_bytes config <? utf8_len (join (py_slice lines (first - 1) last)))%Z
      eqn:Hbytes; [done|].
    apply Z.ltb_ge in Hbytes. injection H as <-. simpl.
    pose proof (py_slice_length lines (first - 1) last) as Hlen.
    split; [done|]. split; [done|]. split; [lia|]. split; [lia|].
    split; [intros; lia|]. intros _.
    destruct (py_slice_cut lines (first - 1) last) as [Hl Hcut]; [lia|].
    assert ((if (last <? 0)%Z then Z.max 0 (Z.of_nat (length lines) + last)
             else Z.min last (Z.of_nat (length lines))) = stop) as Hstop.
    { unfold stop. fold total.
      destruct (rl_end_line args <? 0)%Z eqn:Hneg;
        [apply Z.ltb_lt in Hneg|apply Z.ltb_ge in Hneg].
      - assert (last = rl_end_line args) as -> by (unfold last; lia).
        apply Z.ltb_lt in Hneg. by rewrite Hneg.
      - assert ((last <? 0)%Z = false) as -> by (apply Z.ltb_ge; unfold last; lia).
        unfold last. lia. }
    rewrite Hstop in Hl, Hcut.
    split; [lia|]. split.
    { f_equal. unfold py_slice. rewrite (clamp_index_in_range _ (first - 1)) by lia.
      f_equal.
      assert (clamp_index (Z.of_nat (length lines)) last = Z.to_nat stop) as ->.
      { unfold clamp_index. rewrite <- Hstop. destruct (last <? 0)%Z; f_equal; lia. }
      assert (1 <= first) by (unfold first; lia). lia. }
    rewrite <- (join_readlines text) at 1. fold lines.
    rewrite Hcut at 1. by rewrite !join_app.
Qed.

Lemma read_lines_piece_witness :
  exists r text,
    sync_read (mkReadLinesConfig 64000) demo_fs "/work/notes.txt"
              (mkReadLinesArgs "notes.txt" 2 (-1)) = Ok r
    /\ read_text demo_fs "/work/notes.txt" = Ok text
    /\ rlr_lines_read r = 1
    /\ text = join (take 1 (readlines text)) +:+ rlr_content r
              +:+ join (drop 2 (readlines text)).
Proof.
  eexists.
  destruct (read_lines_returns_a_piece_of_the_file
              (mkReadLinesConfig 64000) demo_fs "/work/notes.txt"
              (mkReadLinesArgs "notes.txt" 2 (-1)) _ eq_refl)
    as (text & Hread & _ & _ & _ & _ & _ & Hcut).
  exists text. split; [reflexivity|]. split; [exact Hread|].
  injection Hread as <-.
  destruct Hcut as (Hn & _ & Hcut); [vm_compute; discriminate|].
  split; [exact Hn|exact Hcut].
Defined.

End LinesFacts.

(** ** Slash commands *)

Module CommandFacts.
Import Commands.

#[local] Set Warnings "-clear-no-such-hyp".

Lemma NoDup_fst_functional {A B} (l : list (A * B)) : NoDup l.*1 -> functional l.
Proof.
  induction l as [|[k0 v0] l IH]; intros Hnd k v v' H1 H2.
  - by apply elem_of_nil in H1.
  - apply NoDup_cons in Hnd as [Hnotin Hnd].
    apply elem_of_cons in H1 as [[= -> ->]|H1]; apply elem_of_cons in H2 as [[= ->]|H2].
    + done.
    + exfalso. apply Hnotin. apply list_elem_of_fmap. by exists (k0, v').
    + exfalso. apply Hnotin. apply list_elem_of_fmap. by exists (k0, v).
    + by apply (IH Hnd k).
Qed.

Lemma functional_subseteq {A B} (l l' : list (A * B)) :
  l ⊆ l' -> functional l' -> functional l.
Proof. intros Hsub Hf k v v' H1 H2. apply (Hf k); by apply Hsub. Qed.

Lemma fill_alias_map_items (commands : list (string * Command)) :
  fill_alias_map commands
  = foldl (fun m p => <[p.1 := p.2]> m) ∅ (alias_items commands).
Proof.
  unfold fill_alias_map, alias_items. generalize (∅ : gmap string string).
  induction commands as [|item rest IH]; intros m; [done|].
  simpl. rewrite foldl_app, IH. f_equal.
  generalize (elements (aliases item.2)). clear. intros l. revert m.
  induction l as [|a l IH]; intros m; [done|]. simpl. by rewrite IH.
Qed.

Lemma foldl_insert_lookup (l : list (string * string)) (k v : string) :
  functional l ->
  foldl (fun m p => <[p.1 := p.2]> m) (∅ : gmap string string) l !! k = Some v
  <-> (k, v) ∈ l.
Proof.
  induction l as [|[k0 v0] l IH] using rev_ind; intros Hf.
  - simpl. rewrite lookup_empty. split; [done|]. by intros ?%elem_of_nil.
  - rewrite foldl_app. simpl.
    destruct (decide (k0 = k)) as [->|Hne].
    + rewrite lookup_insert_eq. split.
      * intros [= ->]. apply elem_of_app. right. by apply list_elem_of_singleton.
      * intros Hin. f_equal. apply (Hf k); [|done].
        apply elem_of_app. right. by apply list_elem_of_singleton.
    + rewrite lookup_insert_ne by done. rewrite IH.
      * rewrite elem_of_app, list_elem_of_singleton. naive_solver.
      * eapply functional_subseteq; [|exact Hf]. intros x Hx. apply elem_of_app. by left.
Qed.

Lemma elem_of_alias_items (commands : list (string * Command)) (alias name : string) :
  (alias, name) ∈ alias_items commands
  <-> exists cmd, (name, cmd) ∈ commands /\ alias ∈ aliases cmd.
Proof.
  unfold alias_items. rewrite list_elem_of_bind. split.
  - intros ([n cmd] & Hin & Hitem). apply list_elem_of_fmap in Hin as (a & [= -> ->] & Ha).
    exists cmd. split; [done|]. by apply elem_of_elements in Ha.
  - intros (cmd & Hitem & Ha). exists (name, cmd). split; [|done].
    apply list_elem_of_fmap. exists alias. split; [done|]. by apply elem_of_elements.
Qed.

Lemma get_functional (commands : list (string * Command)) (name : string) (cmd : Command) :
  functional commands -> get commands name = Some cmd <-> (name, cmd) ∈ commands.
Proof.
  induction commands as [|[n c] rest IH]; intros Hf; simpl.
  - split; [done|]. by intros ?%elem_of_nil.
  - destruct (decide (n = name)) as [->|Hne].
    + split.
      * intros [= ->]. by left.
      * intros Hin. f_equal. apply (Hf name); [by left|done].
    + rewrite IH.
      * rewrite elem_of_cons. naive_solver.
      * eapply functional_subseteq; [|exact Hf]. intros x Hx. by right.
Qed.

Lemma elem_of_excluded (excluded : list string) (commands : list (string * Command))
    (item : string * Command) :
  item ∈ foldl (fun cmds command => pop command cmds) commands excluded
  <-> item ∈ commands /\ item.1 ∉ excluded.
Proof.
  revert commands. induction excluded as [|x rest IH]; intros commands; simpl.
  - split; [|naive_solver]. intros H. split; [done|]. by intros ?%elem_of_nil.
  - rewrite IH. unfold pop. rewrite list_elem_of_filter, not_elem_of_cons. naive_solver.
Qed.

Lemma builtin_names_distinct : NoDup builtin_commands.*1.
Proof. apply (bool_decide_unpack _). vm_compute. exact I. Qed.

Lemma builtin_aliases_distinct : NoDup (alias_items builtin_commands).*1.
Proof.
  apply (bool_decide_unpack _). vm_compute. exact I.
Qed.

(** an alias is one word, and no command has the empty name *)
Lemma builtin_aliases_one_word :
  Forall (fun p => PyStr.strip p.1 = p.1 /\ split p.1 = [p.1] /\ PyStr.truthy p.2 = true)
         (alias_items builtin_commands).
Proof.
  apply (bool_decide_unpack _). vm_compute. exact I.
Qed.

Lemma split_from_rstrip (s cur : string) :
  split_from cur (PyStr.rstrip_by PyStr.isspace s) = split_from cur s.
Proof.
  revert cur. induction s as [|c r IH]; intros cur; [done|].
  simpl. destruct (PyStr.rstrip_by PyStr.isspace r) as [|d r'] eqn:Hr.
  - destruct (PyStr.isspace c) eqn:Hc.
    + simpl. rewrite <- (IH ""). simpl. by destruct (PyStr.truthy cur).
    + simpl. rewrite Hc. by rewrite <- IH.
  - simpl. destruct (PyStr.isspace c); [|by rewrite <- IH].
    rewrite <- (IH ""). done.
Qed.

Lemma split_lstrip (s : string) :
  split_from "" (PyStr.lstrip_by PyStr.isspace s) = split_from "" s.
Proof.
  induction s as [|c r IH]; [done|]. simpl.
  destruct (PyStr.isspace c) eqn:Hc; [done|]. simpl. by rewrite Hc.
Qed.

Lemma split_strip (s : string) : split (PyStr.strip s) = split s.
Proof.
  unfold split, PyStr.strip, PyStr.strip_by. by rewrite split_from_rstrip, split_lstrip.
Qed.

Section Registry.
Variable excluded_commands : option (list string).

Lemma registry_commands (name : string) (cmd : Command) :
  (name, cmd) ∈ commands (__init__ excluded_commands)
  <-> (name, cmd) ∈ builtin_commands /\ (name ∉ default [] excluded_commands).
Proof. unfold __init__. simpl. by rewrite elem_of_excluded. Qed.

Lemma registry_commands_functional : functional (commands (__init__ excluded_commands)).
Proof.
  eapply functional_subseteq; [|exact (NoDup_fst_functional _ builtin_names_distinct)].
  intros [name cmd] Hin. by apply registry_commands in Hin as [? _].
Qed.

Lemma registry_alias_items_subseteq :
  alias_items (commands (__init__ excluded_commands)) ⊆ alias_items builtin_commands.
Proof.
  intros [alias name] Hin. apply elem_of_alias_items in Hin as (cmd & Hcmd & Ha).
  apply elem_of_alias_items. exists cmd. split; [|done].
  by apply registry_commands in Hcmd as [? _].
Qed.

Lemma registry_alias_map (alias name : string) :
  _alias_map (__init__ excluded_commands) !! alias = Some name
  <-> exists cmd, (name, cmd) ∈ commands (__init__ excluded_commands) /\ alias ∈ aliases cmd.
Proof.
  unfold __init__ at 1. simpl. rewrite fill_alias_map_items.
  rewrite foldl_insert_lookup; [apply elem_of_alias_items|].
  eapply functional_subseteq; [exact registry_alias_items_subseteq|].
  exact (NoDup_fst_functional _ builtin_aliases_distinct).
Qed.

Lemma registry_alias_one_word (alias name : string) :
  _alias_map (__init__ excluded_commands) !! alias = Some name ->
  split alias = [alias] /\ PyStr.truthy name = true.
Proof.
  intros Hin. apply registry_alias_map in Hin.
  apply elem_of_alias_items, registry_alias_items_subseteq in Hin.
  pose proof builtin_aliases_one_word as Hall.
  rewrite Forall_forall in Hall. by destruct (Hall _ Hin) as (_ & ? & ?).
Qed.

Lemma resolve_Some (key : string) (cmd : Command) :
  resolve (__init__ excluded_commands) key = Some cmd
  <-> exists name, (name, cmd) ∈ commands (__init__ excluded_commands) /\ key ∈ aliases cmd.
Proof.
  unfold resolve. split.
  - destruct (_alias_map (__init__ excluded_commands) !! key) as [name|] eqn:Hmap; [|done].
    destruct (registry_alias_one_word _ _ Hmap) as [_ ->].
    intros Hget. apply get_functional in Hget; [|exact registry_commands_functional].
    apply registry_alias_map in Hmap as (cmd' & Hcmd' & Ha).
    rewrite (registry_commands_functional _ _ _ Hget Hcmd'). by exists name.
  - intros (name & Hcmd & Ha).
    assert (_alias_map (__init__ excluded_commands) !! key = Some name) as Hmap
      by (apply registry_alias_map; by exists cmd).
    rewrite Hmap. destruct (registry_alias_one_word _ _ Hmap) as [_ ->].
    apply get_functional; [exact registry_commands_functional|done].
Qed.

Lemma find_command_resolve (user_input : string) :
  find_command (__init__ excluded_commands) user_input
  = match split (PyStr.lower user_input) with
    | [] => None
    | first_part :: _ => resolve (__init__ excluded_commands) first_part
    end.
Proof.
  unfold find_command. cbv zeta.
  pose proof (split_strip (PyStr.lower user_input)) as Hparts.
  destruct (split (PyStr.strip (PyStr.lower user_input))) as [|first_part rest] eqn:Hsplit;
    rewrite <- Hparts; [done|].
  fold (resolve (__init__ excluded_commands) first_part).
  destruct (_alias_map (__init__ excluded_commands) !! PyStr.strip (PyStr.lower user_input))
    as [name|] eqn:Hmap; [|by destruct (resolve (__init__ excluded_commands) first_part)].
  destruct (registry_alias_one_word _ _ Hmap) as [Hone Htruthy].
  rewrite Hsplit in Hone. injection Hone as -> ->.
  unfold resolve. by rewrite Hmap, Htruthy.
Qed.

End Registry.

(** [find_command] answers with a command exactly when the first word of
    the input, in lower case, is an alias of a command of the registry that
    was not excluded; what follows the first word plays no part. A blank
    input and the alias of an excluded command find nothing. *)
Theorem find_command_matches_first_word
    (excluded_commands : option (list string)) (user_input : string) (cmd : Command) :
  find_command (__init__ excluded_commands) user_input = Some cmd
  <-> exists name word,
        (name, cmd) ∈ builtin_commands
        /\ (name ∉ default [] excluded_commands)
        /\ head (split (PyStr.lower user_input)) = Some word
        /\ word ∈ aliases cmd.
Proof.
  rewrite find_command_resolve. split.
  - destruct (split (PyStr.lower user_input)) as [|word rest]; [done|].
    intros Hres. apply resolve_Some in Hres as (name & Hcmd & Ha).
    apply registry_commands in Hcmd as [Hb Hex].
    by exists name, word.
  - intros (name & word & Hb & Hex & Hhead & Ha).
    destruct (split (PyStr.lower user_input)) as [|first_part rest]; [done|].
    injection Hhead as ->. apply resolve_Some. exists name. split; [|done].
    by apply registry_commands.
Qed.

End CommandFacts.

(** ** The file management tool *)

Module FileOpsFacts.
Import Tools FileOps.

#[local] Set Warnings "-clear-no-such-hyp".

(** the destination path is left out exactly when no destination, or an
    empty one, is given *)
Lemma paths_destination (os : OS) (args : FileOperationArgs) (source_path : string)
    (dest_path : option string) :
  paths os args = Ok (source_path, dest_path) ->
  dest_path = None <-> (fo_destination args = None \/ fo_destination args = Some "").
Proof.
  unfold paths. destruct (resolve os (fo_source args)); simpl; [|done].
  destruct (fo_destination args) as [d|]; simpl.
  - destruct (PyStr.truthy d) eqn:Ht.
    + destruct (resolve os d); simpl; [|done]. intros [= <- <-].
      split; [done|]. intros [?|[= ->]]; done.
    + apply ConfigFacts.truthy_false in Ht as ->. intros [= <- <-]. naive_solver.
  - intros [= <- <-]. naive_solver.
Qed.

(** [FileOperations.run], once both paths are absolute: it attempts at most
    two operations and ends once, with one result that repeats the action,
    or with a [ToolError] whose message starts with [File operation failed: ];
    the tool's own complaints (an unknown action, a missing destination, a
    missing source) are reported in that wrapping too, and they are made
    before any operation is attempted. A result means that the action is one
    of the four known ones and that no attempted operation failed. A failure
    to make a path absolute leaves the generator as it is, with nothing
    attempted. *)
Theorem file_operations_checks_before_acting (os : OS) (args : FileOperationArgs) :
  let log := (run os args).1 in
  let ending := trace (run os args).2 in
  let failed msg := ([], Some (Exn ToolError ("File operation failed: " +:+ msg))) in
  match paths os args with
  | Raise e => log = [] /\ ending = ([], Some e)
  | Ok (source_path, dest_path) =>
      (length log <= 2)%nat
      /\ ((exists res,
             ending = ([res], None)
             /\ fr_action res = fo_action args
             /\ fo_action args ∈ known_actions
             /\ log <> []
             /\ forall before op rest,
                  log = before ++ op :: rest -> os_error os before op = None)
          \/ (exists msg, ending = failed msg))
      /\ (fo_action args ∉ known_actions ->
          log = [] /\ ending = failed ("Unknown action: " +:+ fo_action args))
      /\ (fo_action args ∈ ["move"; "copy"] ->
          fo_destination args = None \/ fo_destination args = Some "" ->
          log = []
          /\ ending = failed ("Destination required for " +:+ fo_action args))
      /\ (fo_action args ∈ ["delete"; "move"; "copy"] ->
          (fo_action args = "delete"
           \/ exists destination,
                fo_destination args = Some destination /\ destination <> "") ->
          os_exists os [] source_path = Ok false ->
          log = [] /\ ending = failed ("Source not found: " +:+ fo_source args))
  end.
Proof.
  intros log ending failed. subst log ending failed. unfold run.
  destruct (paths os args) as [[source_path dest_path]|e] eqn:Hpaths; [|done].
  apply paths_destination in Hpaths.
  unfold run_body, known_actions, mbind, probe, perform, ret, raise.
  destruct (String.eqb (fo_action args) "delete") eqn:Ha1;
    [apply String.eqb_eq in Ha1
    |apply String.eqb_neq in Ha1;
     destruct (String.eqb (fo_action args) "move") eqn:Ha2;
       [apply String.eqb_eq in Ha2
       |apply String.eqb_neq in Ha2;
        destruct (String.eqb (fo_action args) "copy") eqn:Ha3;
          [apply String.eqb_eq in Ha3
          |apply String.eqb_neq in Ha3;
           destruct (String.eqb (fo_action args) "mkdir") eqn:Ha4;
             [apply String.eqb_eq in Ha4|apply String.eqb_neq in Ha4]]]];
    simpl;
    repeat match goal with
           | |- context [match ?d with Some _ => _ | None => _ end] =>
               is_var d; destruct d; simpl
           | |- context [match os_exists ?o ?l ?p with _ => _ end] =>
               destruct (os_exists o l p) as [[|]|?] eqn:?; simpl
           | |- context [match os_is_dir ?o ?l ?p with _ => _ end] =>
               destruct (os_is_dir o l p) as [[|]|?] eqn:?; simpl
           | |- context [match os_error ?o ?l ?op with _ => _ end] =>
               destruct (os_error o l op) eqn:?; simpl
           end;
    set_unfold.
  all: (split; [simpl; lia|]).
  all: (split;
     [first
        [ right; eexists; reflexivity
        | left; eexists; split; [reflexivity|]; split; [reflexivity|];
          split; [tauto|]; split; [done|];
          intros before op rest Hlog;
          destruct before as [|? [|? [|? ?]]]; simplify_eq/=; done ]
     |]).
  all: try match goal with H : fo_action _ = _ |- _ => rewrite !H end.
  all: (split; [naive_solver|]). all: (split; naive_solver).
Qed.

(** the two operations of a move, on a machine where nothing fails *)
Example file_operations_move :
  run plain_os (mkFileOperationArgs "move" "a.txt" (Some "b/c.txt"))
  = ([MkdirParents "/work/b/c.txt/.."; Move "/work/a.txt" "/work/b/c.txt"],
     Yield (mkFileOperationResult "move" "Moved 'a.txt' to 'b/c.txt'") Stop).
Proof. reflexivity. Qed.

End FileOpsFacts.

(** ** Values from the [.env] file *)

Module DotenvFacts.
Import Config Dotenv.

Lemma update_loop_ok (refuses : string -> string -> option exn)
    (items : list (string * option string)) :
  forall (environ environ' : gmap string string),
    update_loop refuses items environ = (environ', None) ->
    forall key,
      environ' !! key = match last_value items key with
                        | Some v => Some v
                        | None => environ !! key
                        end.
Proof.
  induction items as [|[k value] rest IH]; intros environ environ' Hloop key; simpl in *.
  - by injection Hloop as <-.
  - destruct (PyStr.truthy (default "" value)) eqn:Ht; simpl in Hloop.
    + destruct (refuses k (default "" value)); [done|].
      rewrite (IH _ _ Hloop key).
      destruct (last_value rest key); [done|].
      destruct (decide (k = key)) as [->|Hne].
      * rewrite bool_decide_eq_true_2 by done. simpl.
        rewrite lookup_insert_eq. destruct value; [done|]. done.
      * rewrite bool_decide_eq_false_2 by done. simpl. by rewrite lookup_insert_ne.
    + rewrite (IH _ _ Hloop key). destruct (last_value rest key); [done|].
      by rewrite andb_false_r.
Qed.

Lemma update_loop_changes (refuses : string -> string -> option exn)
    (items : list (string * option string)) :
  forall (environ environ' : gmap string string) (err : option exn),
    update_loop refuses items environ = (environ', err) ->
    (forall key,
       environ' !! key = environ !! key
       \/ exists v, environ' !! key = Some v /\ v <> "" /\ (key, Some v) ∈ items)
    /\ (forall e, err = Some e -> exists key v, refuses key v = Some e).
Proof.
  induction items as [|[k value] rest IH]; intros environ environ' err Hloop; simpl in *.
  - injection Hloop as <- <-. split; [by left|done].
  - destruct (PyStr.truthy (default "" value)) eqn:Ht; simpl in Hloop.
    + destruct (refuses k (default "" value)) as [e0|] eqn:Hr.
      * injection Hloop as <- <-. split; [by left|]. intros e [= <-]. eauto.
      * destruct (IH _ _ _ Hloop) as [Hkeys Herr]. split; [|done].
        intros key. destruct (Hkeys key) as [Heq|(v & Hv & Hne & Hin)].
        -- destruct (decide (k = key)) as [->|Hk].
           ++ rewrite lookup_insert_eq in Heq. right. exists (default "" value).
              split; [done|]. apply ConfigFacts.truthy_true in Ht. split; [done|].
              destruct value as [v|]; [left|done].
           ++ rewrite lookup_insert_ne in Heq by done. by left.
        -- right. exists v. split; [done|]. split; [done|]. by right.
    + destruct (IH _ _ _ Hloop) as [Hkeys Herr]. split; [|done].
      intros key. destruct (Hkeys key) as [Heq|(v & Hv & Hne & Hin)]; [by left|].
      right. exists v. split; [done|]. split; [done|]. by right.
Qed.

(** [load_dotenv_values] only ever sets variables, and only to non-empty
    values that the file gives: a variable that was set stays set, and a
    variable whose value differs afterwards has a non-empty value of an item
    of the file. When the path is neither a file nor a FIFO nothing is read
    and nothing changes. When the loop runs to its end, each variable holds
    the last non-empty value the file gives it, or what it held before. An
    exception comes from reading the file or from the mapping. *)
Theorem dotenv_sets_only_nonempty_values (outside : Outside)
    (environ : gmap string string) :
  let environ' := (load_dotenv_values outside environ).1 in
  let err := (load_dotenv_values outside environ).2 in
  (forall key, is_Some (environ !! key) -> is_Some (environ' !! key))
  /\ (forall key,
        environ' !! key = environ !! key
        \/ exists v items,
             environ' !! key = Some v /\ v <> ""
             /\ dotenv_values outside = Ok items /\ (key, Some v) ∈ items)
  /\ (is_file outside = false -> is_fifo outside = false ->
      environ' = environ /\ err = None)
  /\ (forall items,
        is_file outside = true \/ is_fifo outside = true ->
        dotenv_values outside = Ok items -> err = None ->
        forall key,
          environ' !! key = match last_value items key with
                            | Some v => Some v
                            | None => environ !! key
                            end)
  /\ (forall e, err = Some e ->
        dotenv_values outside = Raise e \/ exists key v, refuses outside key v = Some e).
Proof.
  intros environ' err.
  assert (forall key,
            environ' !! key = environ !! key
            \/ exists v items,
                 environ' !! key = Some v /\ v <> ""
                 /\ dotenv_values outside = Ok items /\ (key, Some v) ∈ items) as Hkeys.
  { subst environ'. unfold load_dotenv_values.
    destruct (negb (is_file outside) && negb (is_fifo outside)); [by left|].
    destruct (dotenv_values outside) as [items|e]; [|by left].
    destruct (update_loop (refuses outside) items environ) as [env1 err1] eqn:Hloop.
    intros key. destruct (update_loop_changes _ _ _ _ _ Hloop) as [Hk _].
    destruct (Hk key) as [?|(v & ? & ? & ?)]; [by left|]. right. by exists v, items. }
  split.
  { intros key Hset. destruct (Hkeys key) as [->|(v & _ & -> & _)]; [done|by eexists]. }
  split; [exact Hkeys|]. subst environ' err. unfold load_dotenv_values. split.
  { by intros -> ->. }
  split.
  { intros items Hkind Hitems. rewrite Hitems.
    destruct (negb (is_file outside) && negb (is_fifo outside)) eqn:Hneg.
    { apply andb_true_iff in Hneg as [H1 H2]. apply negb_true_iff in H1, H2.
      destruct Hkind; congruence. }
    destruct (update_loop (refuses outside) items environ) as [env1 err1] eqn:Hloop.
    simpl. intros ->. by apply (update_loop_ok _ _ _ _ Hloop). }
  intros e. destruct (negb (is_file outside) && negb (is_fifo outside)); [done|].
  destruct (dotenv_values outside) as [items|e0]; simpl; [|intros [= <-]; by left].
  destruct (update_loop (refuses outside) items environ) as [env1 err1] eqn:Hloop.
  simpl. intros ->. right. by apply (update_loop_changes _ _ _ _ _ Hloop).
Qed.

(** A key in the [.env] file satisfies the key check: when the file is read
    to its end and gives the key variable of the active model's provider a
    non-empty value, [_check_api_key] accepts the configuration in the
    environment that [load_dotenv_values] leaves. *)
Theorem dotenv_key_passes_api_key_check (outside : Outside) (env : Env)
    (cfg : HacxgentConfig) (model : ModelConfig) (provider : ProviderConfig)
    (items : list (string * option string)) (v : string) :
  is_file outside = true \/ is_fifo outside = true ->
  dotenv_values outside = Ok items ->
  (load_dotenv_values outside (environ env)).2 = None ->
  get_active_model cfg = Ok model ->
  get_provider_for_model cfg model = Ok provider ->
  last_value items (pc_api_key_env_var provider) = Some v ->
  _check_api_key (mkEnv (load_dotenv_values outside (environ env)).1
                        (builtin_prompt env) (prompt_file env)) cfg = Ok cfg.
Proof.
  intros Hkind Hitems Herr Hmodel Hprovider Hlast.
  assert ((load_dotenv_values outside (environ env)).1
          !! pc_api_key_env_var provider = Some v) as Hend.
  { unfold load_dotenv_values in *. rewrite Hitems in *.
    destruct (negb (is_file outside) && negb (is_fifo outside)) eqn:Hneg.
    { apply andb_true_iff in Hneg as [H1 H2]. apply negb_true_iff in H1, H2.
      destruct Hkind; congruence. }
    destruct (update_loop (refuses outside) items (environ env)) as [env1 err1] eqn:Hloop.
    simpl in *. subst err1.
    rewrite (update_loop_ok _ _ _ _ Hloop). by rewrite Hlast. }
  assert (v <> "") as Hv.
  { clear -Hlast. induction items as [|[k value] rest IH]; [done|]. simpl in Hlast.
    destruct (last_value rest (pc_api_key_env_var provider)); [by apply IH|].
    destruct (bool_decide _ && PyStr.truthy (default "" value)) eqn:Hc; [|done].
    apply andb_true_iff in Hc as [_ Ht]. apply ConfigFacts.truthy_true in Ht.
    by subst value. }
  unfold _check_api_key, getenv. rewrite Hmodel. simpl. rewrite Hprovider. simpl.
  rewrite Hend. simpl.
  assert (PyStr.truthy v = true) as ->; [|by rewrite andb_false_r].
  unfold PyStr.truthy. by rewrite bool_decide_eq_false_2.
Qed.

Lemma dotenv_key_witness :
  is_ok (_check_api_key bare_env sample_cfg) = false
  /\ _check_api_key (mkEnv (load_dotenv_values sample_outside (environ bare_env)).1
                           (builtin_prompt bare_env) (prompt_file bare_env))
                    sample_cfg
     = Ok sample_cfg.
Proof.
  split; [reflexivity|].
  apply (dotenv_key_passes_api_key_check
           sample_outside bare_env sample_cfg
           (mkModelConfig "hacxgent-cli-latest" "hacxgent" "hacxgent-cli-latest" 0 0)
           (mkProviderConfig "hacxgent" "https://api.hacxgent.ai/v1" "MISTRAL_API_KEY")
           [("MISTRAL_API_KEY", Some "mock"); ("EMPTY", Some ""); ("BARE", None)]
           "mock");
    [left; reflexivity|reflexivity|reflexivity|reflexivity|reflexivity|reflexivity].
Defined.

End DotenvFacts.

(** ** The file map tool *)

Module FileMetaFacts.
Import Tools Text FileMeta.

Lemma drop_prefix_nth (kw s t : string) :
  drop_prefix kw s = Some t ->
  forall n c, nth_char n kw = Some c -> nth_char n s = Some c.
Proof.
  revert s. induction kw as [|a kw IH]; intros s Hdrop n c Hn; [by destruct n|].
  destruct s as [|b s]; [done|]. simpl in Hdrop.
  destruct (Ascii.eqb a b) eqn:Hab; [|done]. apply Ascii.eqb_eq in Hab as <-.
  destruct n as [|n]; [done|]. simpl in *. by apply (IH s).
Qed.

Lemma keyword_nth (kw s r : string) :
  keyword kw s = Some r ->
  forall n c, nth_char n kw = Some c -> nth_char n s = Some c.
Proof.
  unfold keyword. destruct (drop_prefix kw s) as [t|] eqn:Hdrop; [|done].
  intros _. by apply (drop_prefix_nth kw s t).
Qed.

Lemma group_1_Some (rest : option string) (name : string) :
  group_1 rest = Some name ->
  exists r, rest = Some r /\ name = take_word r /\ name <> "".
Proof.
  destruct rest as [r|]; [|done]. simpl.
  destruct (PyStr.truthy (take_word r)) eqn:Ht; [|done].
  intros [= <-]. exists r. split; [done|]. split; [done|].
  by apply ConfigFacts.truthy_true.
Qed.

Lemma take_word_chars (s : string) : Forall (fun c => is_word_char c = true) (PyStr.chars (take_word s)).
Proof.
  induction s as [|c r IH]; simpl; [constructor|].
  destruct (is_word_char c) eqn:Hc; simpl; [by constructor|constructor].
Qed.

(** no line matches two of the four patterns *)
Lemma patterns_exclusive (line : string) (p1 p2 : string -> option string)
    (t1 t2 : string) :
  (p1, t1) ∈ patterns -> (p2, t2) ∈ patterns ->
  is_Some (p1 line) -> is_Some (p2 line) ->
  p1 = p2 /\ t1 = t2.
Proof.
  unfold patterns. rewrite !elem_of_cons, !elem_of_nil.
  unfold function_pattern, class_pattern, fn_pattern, def_pattern, optional.
  set (r0 := skip_ws line).
  intros H1 H2 [n1 Hm1] [n2 Hm2].
  destruct H1 as [[= -> ->]|[[= -> ->]|[[= -> ->]|[[= -> ->]|[]]]]];
    destruct H2 as [[= -> ->]|[[= -> ->]|[[= -> ->]|[[= -> ->]|[]]]]];
    try done;
    apply group_1_Some in Hm1 as (x1 & Hk1 & _ & _);
    apply group_1_Some in Hm2 as (x2 & Hk2 & _ & _);
    exfalso;
    repeat match goal with
           | H : context [keyword ?kw ?s] |- _ =>
               lazymatch goal with
               | _ : keyword kw s = _ |- _ => fail
               | _ => destruct (keyword kw s) eqn:?; simpl in *
               end
           end;
    repeat match goal with
           | H : keyword ?kw ?s = Some _ |- _ =>
               pose proof (keyword_nth _ _ _ H 0%nat _ eq_refl);
               pose proof (keyword_nth _ _ _ H 1%nat _ eq_refl);
               clear H
           end;
    congruence.
Qed.

Lemma pattern_name (pattern : string -> option string) (ty line name : string) :
  (pattern, ty) ∈ patterns -> pattern line = Some name ->
  name <> "" /\ Forall (fun c => is_word_char c = true) (PyStr.chars name)
  /\ (ty = "function" \/ ty = "class").
Proof.
  unfold patterns. rewrite !elem_of_cons, !elem_of_nil.
  intros [[= -> ->]|[[= -> ->]|[[= -> ->]|[[= -> ->]|[]]]]] Hm;
    apply group_1_Some in Hm as (r & _ & -> & Hne);
    (split; [done|]); (split; [apply take_word_chars|]); auto.
Qed.

Lemma first_match_elem (l : list ((string -> option string) * string))
    (line name ty : string) :
  first_match l line = Some (name, ty) ->
  exists pattern, (pattern, ty) ∈ l /\ pattern line = Some name.
Proof.
  induction l as [|[p t] rest IH]; [done|]. simpl.
  destruct (p line) as [n|] eqn:Hp.
  - intros [= <- <-]. exists p. split; [left|done].
  - intros (q & Hin & Hq)%IH. exists q. split; [by right|done].
Qed.

Lemma first_match_Some (line name ty : string) :
  first_match patterns line = Some (name, ty) ->
  exists pattern,
    (pattern, ty) ∈ patterns /\ pattern line = Some name
    /\ name <> "" /\ Forall (fun c => is_word_char c = true) (PyStr.chars name)
    /\ (ty = "function" \/ ty = "class").
Proof.
  intros (pattern & Hin & Hp)%first_match_elem. exists pattern.
  split; [done|]. split; [done|]. by apply (pattern_name pattern ty line).
Qed.

Lemma first_match_None_iff (l : list ((string -> option string) * string))
    (line : string) :
  first_match l line = None <->
  forall pattern ty, (pattern, ty) ∈ l -> pattern line = None.
Proof.
  induction l as [|[p t] rest IH]; simpl.
  - split; [|done]. intros _ pattern ty Hin. by apply elem_of_nil in Hin.
  - destruct (p line) as [n|] eqn:Hp.
    + split; [done|]. intros H. specialize (H p t ltac:(left)). congruence.
    + rewrite IH. split.
      * intros H pattern ty [[= -> ->]|Hin]%elem_of_cons; [done|]. by apply (H _ ty).
      * intros H pattern ty Hin. apply (H _ ty). by right.
Qed.

Lemma parse_generic_from_cons (i : Z) (line : string) (rest : list string) :
  parse_generic_from i (line :: rest)
  = match first_match patterns line with
    | Some (name, sym_type) =>
        mkFileSymbol name sym_type i i [] :: parse_generic_from (i + 1) rest
    | None => parse_generic_from (i + 1) rest
    end.
Proof. reflexivity. Qed.

Lemma parse_generic_from_spec (lines : list string) :
  forall (i : Z),
    let symbols := parse_generic_from i lines in
    Forall (fun s =>
              i <= sym_start_line s < i + Z.of_nat (length lines)
              /\ sym_end_line s = sym_start_line s
              /\ sym_children s = []
              /\ exists line,
                   lines !! Z.to_nat (sym_start_line s - i) = Some line
                   /\ first_match patterns line = Some (sym_name s, sym_type s))
           symbols
    /\ (forall (m n : nat) (a b : FileSymbol),
         symbols !! m = Some a -> symbols !! n = Some b -> (m < n)%nat ->
         sym_start_line a < sym_start_line b)
    /\ forall (k : nat) (line : string),
         lines !! k = Some line ->
         is_Some (first_match patterns line) ->
         exists s, s ∈ symbols /\ sym_start_line s = i + Z.of_nat k.
Proof.
  induction lines as [|line rest IH]; intros i; cbv zeta.
  - simpl. split; [constructor|]. split; [by intros [|m] n a b Ha|]. intros k l Hk. done.
  - destruct (IH (i + 1)) as (Hall & Hsorted & Hfound). cbv zeta in *.
    assert (Forall (fun s =>
              i <= sym_start_line s < i + Z.of_nat (length (line :: rest))
              /\ sym_end_line s = sym_start_line s
              /\ sym_children s = []
              /\ exists l,
                   (line :: rest) !! Z.to_nat (sym_start_line s - i) = Some l
                   /\ first_match patterns l = Some (sym_name s, sym_type s))
              (parse_generic_from (i + 1) rest)) as Hall'.
    { eapply Forall_impl; [exact Hall|]. simpl.
      intros s (Hrange & Hend & Hchildren & l & Hl & Hmatch).
      split; [lia|]. split; [done|]. split; [done|]. exists l. split; [|done].
      replace (Z.to_nat (sym_start_line s - i))
        with (S (Z.to_nat (sym_start_line s - (i + 1)))) by lia.
      done. }
    rewrite parse_generic_from_cons.
    destruct (first_match patterns line) as [[name ty]|] eqn:Hmatch.
    + split; [|split].
      * constructor; [|exact Hall']. simpl. split; [lia|]. split; [done|]. split; [done|].
        exists line. rewrite Z.sub_diag. done.
      * intros [|m] [|n] a b Ha Hb Hlt; [lia| |lia|].
        -- injection Ha as <-. simpl in Hb. apply list_elem_of_lookup_2 in Hb.
           rewrite Forall_forall in Hall. destruct (Hall b Hb) as (Hrange & _).
           simpl. lia.
        -- simpl in Ha, Hb. apply (Hsorted m n a b Ha Hb). lia.
      * intros [|k] l Hk Hsome.
        -- injection Hk as <-. eexists. split; [left|]. simpl. lia.
        -- destruct (Hfound k l Hk Hsome) as (s & Hin & Hline).
           exists s. split; [by right|lia].
    + split; [done|]. split; [done|].
      intros [|k] l Hk Hsome.
      * injection Hk as <-. rewrite Hmatch in Hsome. by destruct Hsome.
      * destruct (Hfound k l Hk Hsome) as (s & Hin & Hline).
        exists s. split; [done|lia].
Qed.

(** [_parse_generic] reports at most one symbol for a line, in the order of
    the lines: the start lines are strictly increasing and lie in the file.
    A symbol stands for a line that one of the four patterns matches, and
    every such line has its symbol; the name is the captured word, which is
    not empty and holds letters, digits and underscores only; the type is
    [function] or [class], the end line is the start line, and there are no
    children. No line matches two patterns, so neither the order of the
    patterns nor the [break] decides anything. *)
Theorem parse_generic_reports_matching_lines (lines : list string) :
  let symbols := _parse_generic lines in
  (forall (m n : nat) (a b : FileSymbol),
         symbols !! m = Some a -> symbols !! n = Some b -> (m < n)%nat ->
         sym_start_line a < sym_start_line b)
  /\ Forall (fun s =>
               1 <= sym_start_line s <= Z.of_nat (length lines)
               /\ sym_end_line s = sym_start_line s
               /\ sym_children s = []
               /\ sym_name s <> ""
               /\ Forall (fun c => is_word_char c = true) (PyStr.chars (sym_name s))
               /\ (sym_type s = "function" \/ sym_type s = "class")
               /\ exists line pattern,
                    lines !! Z.to_nat (sym_start_line s - 1) = Some line
                    /\ (pattern, sym_type s) ∈ patterns
                    /\ pattern line = Some (sym_name s))
            symbols
  /\ (forall (k : nat) (line : string),
        lines !! k = Some line ->
        (exists s, s ∈ symbols /\ sym_start_line s = Z.of_nat k + 1)
        <-> exists pattern ty, (pattern, ty) ∈ patterns /\ is_Some (pattern line))
  /\ (forall line p1 t1 p2 t2,
        (p1, t1) ∈ patterns -> (p2, t2) ∈ patterns ->
        is_Some (p1 line) -> is_Some (p2 line) -> p1 = p2 /\ t1 = t2).
Proof.
  intros symbols. subst symbols. unfold _parse_generic.
  destruct (parse_generic_from_spec lines 1) as (Hall & Hsorted & Hfound).
  cbv zeta in *. split; [done|]. split; [|split].
  - eapply Forall_impl; [exact Hall|]. simpl.
    intros s (Hrange & Hend & Hchildren & line & Hline & Hmatch).
    apply first_match_Some in Hmatch as (pattern & Hin & Hp & Hne & Hchars & Hty).
    split; [lia|]. split; [done|]. split; [done|]. split; [done|]. split; [done|].
    split; [done|]. by exists line, pattern.
  - intros k line Hk. split.
    + intros (s & Hin & Hstart).
      rewrite Forall_forall in Hall.
      destruct (Hall s Hin) as (_ & _ & _ & line' & Hline' & Hmatch).
      replace (Z.to_nat (sym_start_line s - 1)) with k in Hline' by lia.
      rewrite Hk in Hline'. injection Hline' as <-.
      apply first_match_Some in Hmatch as (pattern & Hp & Hm & _).
      exists pattern, (sym_type s). split; [done|]. by rewrite Hm.
    + intros (pattern & ty & Hin & Hsome).
      destruct (Hfound k line Hk) as (s & Hs & Hstart).
      * destruct (first_match patterns line) eqn:Hmatch; [done|].
        rewrite first_match_None_iff in Hmatch. rewrite (Hmatch _ _ Hin) in Hsome.
        by destruct Hsome.
      * exists s. split; [done|lia].
  - intros line p1 t1 p2 t2. apply patterns_exclusive.
Qed.

Lemma get_symbols_elem (node : Node) (s : FileSymbol) :
  s ∈ get_symbols node <-> exists d, d ∈ child_nodes node /\ symbol_of d = Some s.
Proof.
  assert (forall children,
            s ∈ (fix loop (children : list Node) : list FileSymbol :=
                   match children with
                   | [] => []
                   | child :: rest =>
                       match child with
                       | Def kind name lineno end_lineno _ =>
                           mkFileSymbol name (symbol_type kind) lineno
                                        (default lineno end_lineno) (get_symbols child)
                           :: loop rest
                       | Other _ => loop rest
                       end
                   end) children
            <-> exists d, d ∈ children /\ symbol_of d = Some s) as Hloop.
  { induction children as [|child rest IH].
    - split; [by intros ?%elem_of_nil|]. by intros (d & ?%elem_of_nil & _).
    - destruct child as [kind name lineno end_lineno cs|cs].
      + rewrite elem_of_cons, IH. split.
        * intros [->|(d & Hin & Hd)].
          -- eexists. split; [left|]. done.
          -- exists d. split; [by right|done].
        * intros (d & [->|Hin]%elem_of_cons & Hd).
          -- left. simpl in Hd. by injection Hd as <-.
          -- right. by exists d.
      + rewrite IH. split.
        * intros (d & Hin & Hd). exists d. split; [by right|done].
        * intros (d & [->|Hin]%elem_of_cons & Hd); [done|]. by exists d. }
  destruct node; apply Hloop.
Qed.

Lemma symbol_of_Some (d : Node) (s : FileSymbol) :
  symbol_of d = Some s ->
  is_def d = true /\ sym_children s = get_symbols d
  /\ (sym_type s = "function" \/ sym_type s = "class").
Proof.
  destruct d as [kind name lineno end_lineno cs|cs]; [|done].
  intros [= <-]. split; [done|]. split; [done|]. destruct kind; simpl; auto.
Qed.

Lemma within_reaches (root : Node) (s : FileSymbol) :
  within s (get_symbols root) <-> exists d, reaches root d /\ symbol_of d = Some s.
Proof.
  split.
  - intros H. remember (get_symbols root) as l eqn:Hl. revert root Hl.
    induction H as [s l Hin|s parent l Hin Hbelow IH]; intros root ->.
    + apply get_symbols_elem in Hin as (d & Hd & Hs). exists d. split; [|done].
      apply reaches_child; [done|]. by apply symbol_of_Some in Hs as [? _].
    + apply get_symbols_elem in Hin as (mid & Hmid & Hparent).
      apply symbol_of_Some in Hparent as (Hdef & Hchildren & _).
      destruct (IH mid Hchildren) as (d & Hreach & Hs).
      exists d. split; [|done]. by apply (reaches_below root mid).
  - intros (d & Hreach & Hs).
    induction Hreach as [root d Hin Hdef|root mid d Hin Hdef Hreach IH].
    + apply within_here. apply get_symbols_elem. by exists d.
    + destruct mid as [kind name lineno end_lineno cs|cs]; [|done].
      eapply within_below.
      * apply get_symbols_elem. eexists. split; [exact Hin|]. reflexivity.
      * by apply IH.
Qed.

(** [FileMeta.run]: the result counts the lines of the text. For a file
    whose suffix is not [.py] the symbols are those of [_parse_generic]. For
    a [.py] file that does not parse they are none, and for one that parses
    the symbols, at every depth, are the definitions that lie below the
    module with nothing but definitions in between: a definition inside
    another statement is not reported. No symbol at any depth has another
    type than [function] or [class]. *)
Theorem file_meta_reports_definitions
    (ast_parse : string -> Parsed) (suffix : string -> string) (fs : FS)
    (args : FileMetaArgs) (r : FileMetaResult) :
  trace (run ast_parse suffix fs args) = ([r], None) ->
  exists path content,
    resolve_path fs (fm_file_path args) = Ok path
    /\ read_text fs path = Ok content
    /\ fmr_file_path r = path
    /\ fmr_total_lines r = Z.of_nat (length (splitlines content))
    /\ (suffix path <> ".py" -> fmr_symbols r = _parse_generic (splitlines content))
    /\ (suffix path = ".py" -> ast_parse content = SyntaxError -> fmr_symbols r = [])
    /\ (suffix path = ".py" ->
        forall tree, ast_parse content = Tree tree ->
        forall s, within s (fmr_symbols r)
                  <-> exists d, reaches tree d /\ symbol_of d = Some s)
    /\ (forall s, within s (fmr_symbols r) ->
                  sym_type s = "function" \/ sym_type s = "class").
Proof.
  unfold run. intros Hrun.
  destruct (resolve_path fs (fm_file_path args)) as [path|e] eqn:Hpath; simpl in Hrun; [|done].
  destruct (path_exists fs path) as [[|]|e]; simpl in Hrun; [|done|done].
  destruct (path_is_file fs path) as [[|]|e]; simpl in Hrun; [|done|done].
  destruct (read_text fs path) as [content|e] eqn:Hread; simpl in Hrun; [|done].
  exists path, content. split; [done|]. split; [done|].
  destruct (String.eqb (suffix path) ".py") eqn:Hsuffix;
    [apply String.eqb_eq in Hsuffix|apply String.eqb_neq in Hsuffix].
  - unfold _parse_python in Hrun.
    destruct (ast_parse content) as [tree| |e] eqn:Hparse; simpl in Hrun; [| |done].
    + injection Hrun as <-. simpl.
      split; [done|]. split; [done|]. split; [done|]. split; [done|]. split.
      * intros _ tree' [= <-] s. apply within_reaches.
      * intros s (d & _ & Hs)%within_reaches. by apply symbol_of_Some in Hs as (_ & _ & ?).
    + injection Hrun as <-. simpl.
      split; [done|]. split; [done|]. split; [done|]. split; [done|]. split; [done|].
      intros s Hs. inversion Hs as [? ? Hin|? ? ? Hin]; by apply elem_of_nil in Hin.
  - simpl in Hrun. injection Hrun as <-. simpl.
    split; [done|]. split; [done|]. split; [done|]. split; [done|]. split; [done|].
    intros s Hs.
    destruct (parse_generic_from_spec (splitlines content) 1) as (Hall & _).
    cbv zeta in Hall. rewrite Forall_forall in Hall.
    inversion Hs as [? ? Hin|? parent ? Hin Hbelow]; subst.
    + destruct (Hall s Hin) as (_ & _ & _ & line & _ & Hmatch).
      by apply first_match_Some in Hmatch as (_ & _ & _ & _ & _ & ?).
    + destruct (Hall parent Hin) as (_ & _ & Hnone & _). rewrite Hnone in Hbelow.
      inversion Hbelow as [? ? Hin'|? ? ? Hin']; by apply elem_of_nil in Hin'.
Qed.

Lemma file_meta_witness :
  exists r,
    trace (run sample_parse (fun _ => ".py") demo_fs (mkFileMetaArgs "notes.txt"))
    = ([r], None)
    /\ (forall s, within s (fmr_symbols r)
                  <-> exists d, reaches sample_tree d /\ symbol_of d = Some s).
Proof.
  eexists. split; [reflexivity|].
  destruct (file_meta_reports_definitions
              sample_parse (fun _ => ".py") demo_fs (mkFileMetaArgs "notes.txt") _ eq_refl)
    as (path & content & _ & _ & _ & _ & _ & _ & Htree & _).
  apply Htree; reflexivity.
Defined.

End FileMetaFacts.

(** ** Start-up *)

Module StartupFacts.
Import Config Startup.

Lemma loaded_config_has_active_model (env : Env) (raw : RawConfig) (cfg : HacxgentConfig) :
  load env raw = Ok cfg -> exists model, get_active_model cfg = Ok model.
Proof.
  intros (_ & _ & Hkey & _)%ConfigFacts.load_ok_inv.
  apply ProviderFacts.check_api_key_ok in Hkey as (_ & model & _ & Hm & _). by exists model.
Qed.

Lemma run_onboarding_cases (app_run : World -> World * result (option string))
    (w : World) :
  (run_onboarding app_run w).1 = (app_run w).1
  /\ match (app_run w).2 with
     | Raise e => (run_onboarding app_run w).2 = Raises e
     | Ok None => (run_onboarding app_run w).2 = Exits 0
     | Ok (Some s) =>
         (run_onboarding app_run w).2
         = Returns (if PyStr.starts_with save_error_prefix s
                    then SaveWarning (removeprefix save_error_prefix s)
                    else if String.eqb s "completed" then SetupComplete else Nothing)
     end.
Proof.
  unfold run_onboarding. destruct (app_run w) as [w1 [[s|]|e]]; cbn [fst snd];
    [|done|done].
  destruct (PyStr.starts_with save_error_prefix s); [done|].
  by destruct (String.eqb s "completed").
Qed.

(** [load_config_or_exit] returns only a configuration that a load has
    validated, in the world it leaves behind. It returns the first load's
    configuration whenever that load succeeds: the call of
    [get_active_model] that follows never fails then. It exits with status 1
    exactly when the first load raises something other than a
    [MissingAPIKeyError] or a [ValueError]; otherwise it runs the set-up, exits
    with status 0 exactly when that is cancelled, and afterwards loads once
    more, and an exception of this second load is not handled. *)
Theorem load_config_or_exit_outcomes
    (app_run : World -> World * result (option string)) (w : World) :
  let w' := (load_config_or_exit app_run w).1 in
  let outcome := (load_config_or_exit app_run w).2 in
  let asked e := load_in w = Raise e /\ sent_to_onboarding (exn_class e) = true in
  (forall cfg, load_in w = Ok cfg -> w' = w /\ outcome = Returns cfg)
  /\ (forall cfg, outcome = Returns cfg ->
        load_in w' = Ok cfg
        /\ is_ok (get_active_model cfg) = true
        /\ (w' = w \/ exists e s, asked e /\ app_run w = (w', Ok (Some s))))
  /\ (forall code, outcome = Exits code ->
        (code = 1 /\ w' = w
         /\ exists e, load_in w = Raise e /\ sent_to_onboarding (exn_class e) = false)
        \/ (code = 0 /\ exists e, asked e /\ app_run w = (w', Ok None)))
  /\ (forall e', outcome = Raises e' ->
        exists e, asked e
                  /\ (app_run w = (w', Raise e')
                      \/ exists s, app_run w = (w', Ok (Some s)) /\ load_in w' = Raise e')).
Proof.
  intros w' outcome asked. subst w' outcome asked. unfold load_config_or_exit.
  destruct (load_in w) as [config|e] eqn:Hload; simpl.
  - assert (exists model, get_active_model config = Ok model) as [model Hmodel].
    { unfold load_in in Hload. destruct (w_settings w) as [raw|]; [|done].
      by apply (loaded_config_has_active_model (w_env w) raw). }
    rewrite Hmodel. simpl. split; [by intros cfg [= <-]|]. split; [|split; done].
    intros cfg [= <-]. split; [done|]. split; [by rewrite Hmodel|by left].
  - split; [done|].
    destruct (sent_to_onboarding (exn_class e)) eqn:Hsent; simpl.
    + destruct (run_onboarding_cases app_run w) as [Hworld Hout].
      destruct (run_onboarding app_run w) as [w1 out] eqn:Hrun.
      destruct (app_run w) as [w2 r] eqn:Happ. simpl in Hworld, Hout. subst w2.
      destruct r as [[s|]|e1]; subst out; cbn [fst snd].
      * destruct (load_in w1) as [config|e2] eqn:Hload2.
        -- split; [|split; done]. intros cfg [= <-]. split; [done|]. split.
           ++ unfold load_in in Hload2. destruct (w_settings w1) as [raw|]; [|done].
              destruct (loaded_config_has_active_model _ _ _ Hload2) as [model ->]. done.
           ++ right. by exists e, s.
        -- split; [done|]. split; [done|]. intros e' [= <-]. exists e.
           split; [done|]. right. by exists s.
      * split; [done|]. split; [|done]. intros code [= <-]. right. split; [done|]. by exists e.
      * split; [done|]. split; [done|]. intros e' [= <-]. exists e. split; [done|]. by left.
    + split; [done|]. split; [|done]. intros code [= <-]. left. split; [done|].
      split; [done|]. by exists e.
Qed.

(** a first run without a key: the set-up is asked, and the second load
    gives the configuration *)
Example first_run_asks_for_setup :
  exists cfg,
    (load_config_or_exit setup_supplies_key first_run).2 = Returns cfg
    /\ is_ok (load_in first_run) = false.
Proof. eexists. split; reflexivity. Qed.

End StartupFacts.

(** ** The set-up screen *)

Module OnboardingFacts.
Import Config Onboarding.

Lemma or_else_nonempty (a b : string) : b <> "" -> PyStr.or_else a b <> "".
Proof.
  intros Hb. unfold PyStr.or_else. destruct (PyStr.truthy a) eqn:Ha; [|done].
  by apply ConfigFacts.truthy_true.
Qed.

Lemma append_nonempty (a b : string) : b <> "" -> a +:+ b <> "".
Proof. intros Hb. destruct a; [done|]. done. Qed.

Lemma truthy_nonempty (s : string) : s <> "" -> PyStr.truthy s = true.
Proof. intros H. unfold PyStr.truthy. by rewrite bool_decide_eq_false_2. Qed.

(** a configuration made of the saved provider and model passes the key
    check in the environment that the set-up leaves *)
Lemma saved_model_is_usable (provider : ProviderConfig) (model : ModelConfig)
    (api_key : string) (cfg : HacxgentConfig) (env : Env) :
  mc_alias model <> "" -> mc_provider model = pc_name provider -> api_key <> "" ->
  active_model cfg = mc_alias model -> providers cfg = [provider] ->
  models cfg = [model] ->
  environ env !! pc_api_key_env_var provider = Some api_key ->
  get_active_model cfg = Ok model /\ _check_api_key env cfg = Ok cfg.
Proof.
  intros Halias Hprov Hkey Hactive Hproviders Hmodels Henv.
  assert (get_active_model cfg = Ok model) as Hm.
  { unfold get_active_model. rewrite Hactive, Hmodels.
    rewrite (truthy_nonempty _ Halias). simpl.
    by rewrite bool_decide_eq_true_2. }
  split; [done|].
  unfold _check_api_key, get_provider_for_model, getenv.
  rewrite Hm, Hproviders. simpl. rewrite bool_decide_eq_true_2 by done. simpl.
  rewrite Henv. simpl. rewrite (truthy_nonempty _ Hkey). by rewrite andb_false_r.
Qed.

(** [process_setup] saves nothing and sets nothing when it only gives
    feedback, which it does for a blank key and for numbers that do not
    parse. When it exits the application, with [completed] or with a
    [save_error:] text, it has passed to [save_updates] one provider and one
    model of that provider under a non-empty alias, which is the active
    model, and has put the key, which is not blank, in the environment under
    the provider's key variable: a configuration with this provider, this
    model and this active model passes [get_active_model] and the key check
    there. *)
Theorem process_setup_saves_a_usable_model
    (o : Outside) (inputs : Inputs) (environ : gmap string string) :
  let effects := process_setup o inputs environ in
  let api_key := PyStr.strip (in_api_key inputs) in
  (api_key = "" -> ending effects = Feedback "[red]API Key is required.[/]")
  /\ (forall message,
        ending effects = Feedback message ->
        updates_passed effects = None /\ environ_after effects = environ
        /\ env_file_called effects = false)
  /\ (forall e,
        ending effects = Crash e ->
        environ_after effects = environ \/ env_file_called effects = true)
  /\ (forall result,
        ending effects = AppExit result ->
        (result = "completed" \/ PyStr.starts_with "save_error:" result = true)
        /\ env_file_called effects = true
        /\ exists provider model threshold,
             updates_passed effects
             = Some (mkUpdates (mc_alias model) [provider] [model] threshold)
             /\ 0 < threshold
             /\ api_key <> ""
             /\ environ_after effects
                = <[pc_api_key_env_var provider := api_key]> environ
             /\ forall cfg env,
                  active_model cfg = mc_alias model ->
                  providers cfg = [provider] ->
                  models cfg = [model] ->
                  Config.environ env = environ_after effects ->
                  get_active_model cfg = Ok model /\ _check_api_key env cfg = Ok cfg).
Proof.
  intros effects api_key. subst effects api_key. unfold process_setup.
  set (provider_name := PyStr.or_else (PyStr.strip (in_provider_name inputs)) "OpenAI").
  set (api_base := PyStr.or_else (PyStr.strip (in_api_base inputs)) _).
  set (api_key := PyStr.strip (in_api_key inputs)).
  set (model_name := PyStr.or_else (PyStr.strip (in_model_name inputs)) _).
  set (model_alias := PyStr.or_else (PyStr.strip (in_model_alias inputs)) "default").
  set (rate_limit := PyStr.or_else (PyStr.strip (in_rate_limit inputs)) _).
  set (max_tokens := PyStr.or_else (PyStr.strip (in_max_tokens inputs)) _).
  destruct (PyStr.truthy api_key) eqn:Hkey; cbn [negb].
  2: { cbn. split; [done|]. split; [done|]. split; [by left|done]. }
  apply ConfigFacts.truthy_true in Hkey.
  split; [done|].
  destruct (int_of o rate_limit) as [rl|]; cbn [ending updates_passed environ_after env_file_called].
  2: { split; [done|]. split; [by left|done]. }
  destruct (int_of o max_tokens) as [mt|]; cbn [ending updates_passed environ_after env_file_called].
  2: { split; [done|]. split; [by left|done]. }
  set (api_key_env := upper o provider_name +:+ "_API_KEY").
  set (provider := mkProviderConfig (PyStr.lower provider_name) api_base api_key_env).
  set (model := mkModelConfig model_name (PyStr.lower provider_name) model_alias rl mt).
  set (threshold := if (0 <? mt)%Z then mt else 200000).
  assert (0 < threshold) as Hthreshold.
  { unfold threshold. destruct (0 <? mt)%Z eqn:Hmt; [by apply Z.ltb_lt in Hmt|lia]. }
  assert (exists provider' model' threshold',
            Some (mkUpdates model_alias [provider] [model] threshold)
            = Some (mkUpdates (mc_alias model') [provider'] [model'] threshold')
            /\ 0 < threshold' /\ api_key <> ""
            /\ <[api_key_env := api_key]> environ
               = <[pc_api_key_env_var provider' := api_key]> environ
            /\ forall cfg env,
                 active_model cfg = mc_alias model' ->
                 providers cfg = [provider'] ->
                 models cfg = [model'] ->
                 Config.environ env = <[api_key_env := api_key]> environ ->
                 get_active_model cfg = Ok model' /\ _check_api_key env cfg = Ok cfg)
    as Hsaved.
  { exists provider, model, threshold. split; [done|]. split; [done|]. split; [done|].
    split; [done|]. intros cfg env Hactive Hproviders Hmodels Henv.
    apply (saved_model_is_usable provider model api_key); try done.
    - apply or_else_nonempty. done.
    - rewrite Henv. apply lookup_insert_eq. }
  destruct (save_updates_error o _) as [e|];
    cbn [ending updates_passed environ_after env_file_called].
  { split; [done|]. split; [by left|done]. }
  destruct (setenv_error o api_key_env api_key) as [e|];
    cbn [ending updates_passed environ_after env_file_called].
  { split; [done|]. split; [by left|done]. }
  destruct (save_to_env_file_error o api_key_env api_key) as [err|];
    cbn [ending updates_passed environ_after env_file_called].
  - destruct (is_os_error (exn_class err));
      cbn [ending updates_passed environ_after env_file_called].
    + split; [done|]. split; [done|]. intros result [= <-].
      split; [by right|]. split; [done|]. exact Hsaved.
    + split; [done|]. split; [by right|done].
  - split; [done|]. split; [done|]. intros result [= <-].
    split; [by left|]. split; [done|]. exact Hsaved.
Qed.

(** the defaults of the form, with a key and a rate limit typed in *)
Example setup_with_defaults :
  process_setup plain_outside sample_inputs ∅
  = mkEffects
      (Some (mkUpdates "default"
               [mkProviderConfig "openai" "https://api.openai.com/v1" "OPENAI_API_KEY"]
               [mkModelConfig "gpt-4o" "openai" "default" 30 0] 200000))
      {[ "OPENAI_API_KEY" := "sk-demo" ]} true (AppExit "completed").
Proof. reflexivity. Qed.

End OnboardingFacts.

(** ** Merging updates into the stored settings *)

Module SettingsFacts.
Import Prepared Settings.

#[local] Set Warnings "-clear-no-such-hyp".

Lemma dict_get_set (d : list (string * jval)) (key key' : string) (value : jval) :
  dict_get (dict_set d key value) key'
  = if bool_decide (key = key') then Some value else dict_get d key'.
Proof.
  induction d as [|[k v] rest IH]; simpl.
  - done.
  - destruct (bool_decide (k = key)) eqn:Hk; simpl.
    + apply bool_decide_eq_true in Hk as ->. by destruct (bool_decide (key = key')).
    + apply bool_decide_eq_false in Hk. rewrite IH.
      destruct (bool_decide (k = key')) eqn:Hk'; [|done].
      apply bool_decide_eq_true in Hk' as ->. by rewrite bool_decide_eq_false_2.
Qed.

Lemma dict_set_keys (d : list (string * jval)) (key : string) (value : jval) :
  (dict_set d key value).*1 = if has_key d key then d.*1 else d.*1 ++ [key].
Proof.
  unfold has_key. induction d as [|[k v] rest IH]; csimpl; [done|].
  destruct (bool_decide (k = key)) eqn:Hk; csimpl; [done|].
  rewrite IH. by destruct (dict_get rest key).
Qed.

Lemma dict_get_None (d : list (string * jval)) (key : string) :
  dict_get d key = None <-> key ∉ d.*1.
Proof.
  induction d as [|[k v] rest IH]; csimpl.
  - split; [|done]. intros _. apply not_elem_of_nil.
  - rewrite not_elem_of_cons, <- IH.
    destruct (bool_decide (k = key)) eqn:Hk.
    + apply bool_decide_eq_true in Hk. naive_solver.
    + apply bool_decide_eq_false in Hk. naive_solver.
Qed.

Section Merge.
Variable set_order : list jval -> list jval.

Lemma deep_merge_items (items target : list (string * jval)) :
  deep_merge set_order (JDict items) target
  = merge_items (merge_entry set_order (deep_merge set_order)) items target.
Proof.
  revert target. induction items as [|[key value] rest IH]; intros target; [done|].
  simpl. destruct (merge_entry set_order (deep_merge set_order) target key value); [|done].
  apply IH.
Qed.

(** what one round stores under its key *)
Lemma merge_entry_Some (target target' : list (string * jval)) (key : string)
    (value : jval) :
  merge_entry set_order (deep_merge set_order) target key value = Some target' ->
  exists stored,
    target' = dict_set target key stored
    /\ ((forall old, dict_get target key = Some old -> same_container old value = false) ->
        stored = value)
    /\ (key = "providers" \/ key = "models" ->
        (exists l, value = JList l) -> stored = value)
    /\ (forall t, dict_get target key = Some (JDict t) ->
        (exists d, value = JDict d) ->
        exists t', deep_merge set_order value t = Some t' /\ stored = JDict t')
    /\ (forall tl vl, dict_get target key = Some (JList tl) -> value = JList vl ->
        key <> "providers" -> key <> "models" ->
        forallb hashable (vl ++ tl) = true
        /\ stored = JList (set_order (set_members [] (vl ++ tl)))).
Proof.
  unfold merge_entry.
  destruct (dict_get target key) as [old|] eqn:Hold.
  2: { intros [= <-]. exists value. split; [done|]. split; [done|]. split; [done|].
       split; [by intros ? [=]|by intros ? ? [=]]. }
  destruct old as [| | | |tl|t]; destruct value as [| | | |vl|d];
    try (intros [= <-]; eexists; split; [reflexivity|];
         split; [done|]; split; [done|]; split; [naive_solver|naive_solver]).
  - (* two lists *)
    unfold merge_lists.
    destruct (bool_decide (key = "providers") || bool_decide (key = "models")) eqn:Hkey.
    + intros [= <-]. eexists. split; [reflexivity|]. split; [done|]. split; [done|].
      split; [by intros ? [=]|]. intros ? ? [= <-] [= <-] Hp Hm.
      apply orb_true_iff in Hkey as [?%bool_decide_eq_true|?%bool_decide_eq_true]; done.
    + destruct (forallb hashable (vl ++ tl)) eqn:Hhash; [|done].
      intros [= <-]. eexists. split; [reflexivity|]. split.
      { intros H. by specialize (H _ eq_refl). }
      split.
      { apply orb_false_iff in Hkey as [?%bool_decide_eq_false ?%bool_decide_eq_false].
        intros [?|?]; done. }
      split; [by intros ? [=]|]. by intros ? ? [= <-] [= <-] _ _.
  - (* two dicts *)
    destruct (deep_merge set_order (JDict d) t) as [t'|] eqn:Hnested; [|done].
    intros [= <-]. eexists. split; [reflexivity|]. split.
    { intros H. by specialize (H _ eq_refl). }
    split; [by intros _ [l [=]]|]. split; [|by intros ? ? [=]].
    intros ? [= <-] _. by exists t'.
Qed.

Lemma filter_new_keys (t1 target : list (string * jval)) (keys : list string) :
  (forall k, k ∈ keys -> has_key t1 k = has_key target k) ->
  filter (fun k => has_key t1 k = false) keys
  = filter (fun k => has_key target k = false) keys.
Proof.
  induction keys as [|k keys IH]; intros Hsame; [done|].
  rewrite !filter_cons, (Hsame k) by left.
  rewrite IH by (intros k' Hk'; apply Hsame; by right). done.
Qed.

Lemma merge_items_spec (source : list (string * jval)) :
  forall (target result : list (string * jval)),
    NoDup source.*1 ->
    merge_items (merge_entry set_order (deep_merge set_order)) source target = Some result ->
    result.*1 = target.*1 ++ filter (fun k => has_key target k = false) source.*1
    /\ (forall key, dict_get source key = None -> dict_get result key = dict_get target key)
    /\ (forall key value,
          dict_get source key = Some value ->
          exists target0,
            dict_get target0 key = dict_get target key
            /\ merge_entry set_order (deep_merge set_order) target0 key value
               = Some (dict_set target0 key (default JNull (dict_get result key)))
            /\ is_Some (dict_get result key)).
Proof.
  induction source as [|[k v] rest IH]; intros target result Hnodup Hmerge.
  - injection Hmerge as <-. csimpl. rewrite filter_nil, app_nil_r. done.
  - csimpl in Hnodup. apply NoDup_cons in Hnodup as [Hk Hrest].
    simpl in Hmerge.
    destruct (merge_entry set_order (deep_merge set_order) target k v) as [t1|] eqn:Hentry;
      [|done].
    pose proof Hentry as (stored & -> & _)%merge_entry_Some.
    destruct (IH _ _ Hrest Hmerge) as (Hkeys & Hold & Hnew).
    assert (forall key, key <> k ->
              dict_get (dict_set target k stored) key = dict_get target key) as Hother.
    { intros key Hne. rewrite dict_get_set. by rewrite bool_decide_eq_false_2. }
    split; [|split].
    + rewrite Hkeys, dict_set_keys. csimpl. rewrite filter_cons.
      rewrite (filter_new_keys (dict_set target k stored) target).
      2: { intros k' Hk'. unfold has_key. rewrite Hother; [done|]. by intros ->. }
      destruct (has_key target k) eqn:Hhas.
      * by rewrite decide_False by done.
      * rewrite decide_True by done. by rewrite <- app_assoc.
    + intros key. simpl. destruct (bool_decide (k = key)) eqn:Hkey; [done|].
      apply bool_decide_eq_false in Hkey. intros Hnone.
      rewrite (Hold key Hnone). by apply Hother.
    + intros key value. simpl. destruct (bool_decide (k = key)) eqn:Hkey.
      * apply bool_decide_eq_true in Hkey as <-. intros [= <-].
        assert (dict_get rest k = None) as Hnone by by apply dict_get_None.
        rewrite (Hold k Hnone), dict_get_set, bool_decide_eq_true_2 by done.
        exists target. split; [done|]. split; [exact Hentry|by eexists].
      * apply bool_decide_eq_false in Hkey. intros Hvalue.
        destruct (Hnew key value Hvalue) as (target0 & Hsame & Hentry0 & Hsome).
        exists target0. split; [|done]. rewrite Hsame. by apply Hother.
Qed.

(** [deep_merge(target, source)], when it returns: the keys of the target
    stay where they are and the new keys of the source follow in the order of
    the source; a key that the source does not have keeps its value; a value of
    the source replaces the old one unless both are dicts or both are lists;
    [providers] and [models] lists are replaced as a whole; two dicts are merged
    by the nested call; two other lists become the list of the members of the
    set of both, which needs every member to be hashable. *)
Theorem deep_merge_overrides_and_keeps
    (source target result : list (string * jval)) :
  NoDup source.*1 ->
  deep_merge set_order (JDict source) target = Some result ->
  result.*1 = target.*1 ++ filter (fun k => has_key target k = false) source.*1
  /\ (forall key, dict_get source key = None -> dict_get result key = dict_get target key)
  /\ (forall key value,
        dict_get source key = Some value ->
        (forall old, dict_get target key = Some old -> same_container old value = false) ->
        dict_get result key = Some value)
  /\ (forall key l,
        key = "providers" \/ key = "models" ->
        dict_get source key = Some (JList l) ->
        dict_get result key = Some (JList l))
  /\ (forall key d t,
        dict_get source key = Some (JDict d) ->
        dict_get target key = Some (JDict t) ->
        exists t', deep_merge set_order (JDict d) t = Some t'
                   /\ dict_get result key = Some (JDict t'))
  /\ (forall key vl tl,
        key <> "providers" -> key <> "models" ->
        dict_get source key = Some (JList vl) ->
        dict_get target key = Some (JList tl) ->
        forallb hashable (vl ++ tl) = true
        /\ dict_get result key = Some (JList (set_order (set_members [] (vl ++ tl))))).
Proof.
  intros Hnodup Hmerge. rewrite deep_merge_items in Hmerge.
  destruct (merge_items_spec _ _ _ Hnodup Hmerge) as (Hkeys & Hold & Hnew).
  split; [done|]. split; [done|].
  assert (forall key value,
            dict_get source key = Some value ->
            exists stored,
              dict_get result key = Some stored
              /\ ((forall old, dict_get target key = Some old ->
                               same_container old value = false) -> stored = value)
              /\ (key = "providers" \/ key = "models" ->
                  (exists l, value = JList l) -> stored = value)
              /\ (forall t, dict_get target key = Some (JDict t) ->
                  (exists d, value = JDict d) ->
                  exists t', deep_merge set_order value t = Some t' /\ stored = JDict t')
              /\ (forall tl vl, dict_get target key = Some (JList tl) -> value = JList vl ->
                  key <> "providers" -> key <> "models" ->
                  forallb hashable (vl ++ tl) = true
                  /\ stored = JList (set_order (set_members [] (vl ++ tl))))) as Hstored.
  { intros key value Hvalue.
    destruct (Hnew key value Hvalue) as (target0 & Hsame & Hentry & [stored Hsome]).
    rewrite Hsome in Hentry. simpl in Hentry.
    apply merge_entry_Some in Hentry as (stored' & Heq & H1 & H2 & H3 & H4).
    assert (stored' = stored) as ->.
    { assert (dict_get (dict_set target0 key stored) key
              = dict_get (dict_set target0 key stored') key) as Hget by by rewrite Heq.
      rewrite !dict_get_set, !bool_decide_eq_true_2 in Hget by done. congruence. }
    exists stored. rewrite Hsame in H1, H3, H4. done. }
  split; [|split; [|split]].
  - intros key value Hvalue Hdiff.
    destruct (Hstored key value Hvalue) as (stored & -> & H1 & _). f_equal. by apply H1.
  - intros key l Hkey Hvalue.
    destruct (Hstored key _ Hvalue) as (stored & -> & _ & H2 & _). f_equal.
    apply H2; [done|by exists l].
  - intros key d t Hvalue Htarget.
    destruct (Hstored key _ Hvalue) as (stored & -> & _ & _ & H3 & _).
    destruct (H3 t Htarget) as (t' & Ht' & ->); [by exists d|]. by exists t'.
  - intros key vl tl Hp Hm Hvalue Htarget.
    destruct (Hstored key _ Hvalue) as (stored & -> & _ & _ & _ & H4).
    destruct (H4 tl vl Htarget eq_refl Hp Hm) as [Hhash ->]. done.
Qed.

End Merge.

Lemma deep_merge_witness :
  exists result,
    deep_merge (fun l => l) (JDict setup_updates) stored_settings = Some result
    /\ result.*1 = ["active_model"; "enabled_tools"; "models"; "session_logging";
                    "providers"; "auto_compact_threshold"]
    /\ dict_get result "models" = Some (JList [JDict [("name", JStr "gpt-4o")]]).
Proof.
  eexists. split; [reflexivity|].
  edestruct (deep_merge_overrides_and_keeps (fun l => l) setup_updates stored_settings)
    as (Hkeys & _ & _ & Hlists & _).
  - apply (bool_decide_unpack _). vm_compute. exact I.
  - reflexivity.
  - split; [exact Hkeys|]. apply Hlists; [by right|reflexivity].
Defined.

End SettingsFacts.

(** ** The save-point tool *)

Module SnapshotFacts.
Import Snapshot.

#[local] Set Warnings "-clear-no-such-hyp".

Lemma succeeded_nil (w : World) : succeeded w [].
Proof. intros before op rest H. by destruct before. Qed.

Lemma succeeded_snoc (w : World) (log : list Op) (op : Op) :
  succeeded w log -> op_error w log op = None -> succeeded w (log ++ [op]).
Proof.
  intros Hlog Hop before op' rest Heq.
  destruct rest as [|x rest _] using rev_ind.
  - apply app_inj_tail in Heq as [-> ->]. done.
  - rewrite app_comm_cons, app_assoc in Heq. apply app_inj_tail in Heq as [-> _].
    by apply (Hlog before op' rest).
Qed.

Lemma perform_Go (w : World) (op : Op) (log log' : list Op) :
  perform w op log = (log', Go tt) ->
  log' = log ++ [op] /\ (succeeded w log -> succeeded w log').
Proof.
  unfold perform. destruct (op_error w log op) eqn:Hop; [done|]. intros [= <-].
  split; [done|]. intros Hlog. by apply succeeded_snoc.
Qed.

Lemma probe_Go {A} (answer : list Op -> string -> result A) (path : string)
    (log log' : list Op) (a : A) :
  probe answer path log = (log', Go a) -> log' = log /\ answer log path = Ok a.
Proof. unfold probe. destruct (answer log path); [|done]. by intros [= <- <-]. Qed.

Lemma mbind_Go {A B} (m : M A) (k : A -> M B) (log log' : list Op) (b : B) :
  mbind m k log = (log', Go b) ->
  exists log1 a, m log = (log1, Go a) /\ k a log1 = (log', Go b).
Proof.
  unfold mbind. destruct (m log) as [log1 [a|failure]]; [|done]. intros H. by exists log1, a.
Qed.

Lemma copy_project_Go (w : World) (project_root target_dir : string)
    (names : list string) :
  forall (log log' : list Op),
    copy_project w project_root target_dir names log = (log', Go tt) ->
    exists ops,
      log' = log ++ ops
      /\ (succeeded w log -> succeeded w log')
      /\ omap copied_from ops
         = join w project_root <$> filter (fun name => name ∉ skipped_names) names
      /\ omap removed ops = [].
Proof.
  induction names as [|name rest IH]; intros log log' Hrun; simpl in Hrun.
  - injection Hrun as <-. exists []. by rewrite app_nil_r.
  - rewrite filter_cons. destruct (decide (name ∉ skipped_names)) as [Hkeep|Hskip].
    + rewrite bool_decide_eq_false_2 in Hrun by done.
      apply mbind_Go in Hrun as (log1 & is_dir & Hprobe & Hrun).
      apply probe_Go in Hprobe as [-> Hdir].
      apply mbind_Go in Hrun as (log2 & [] & Hop & Hrun).
      apply perform_Go in Hop as [-> Hok].
      destruct (IH _ _ Hrun) as (ops & -> & Hok' & Hcopied & Hremoved).
      eexists (_ :: ops). split; [by rewrite <- app_assoc|]. split; [auto|].
      split; [|by destruct is_dir].
      csimpl. rewrite <- Hcopied. by destruct is_dir.
    + rewrite bool_decide_eq_true_2 in Hrun by (by apply dec_stable).
      by apply IH.
Qed.

Lemma restore_project_Go (w : World) (project_root target_dir : string)
    (names : list string) :
  forall (log log' : list Op),
    restore_project w project_root target_dir names log = (log', Go tt) ->
    exists ops,
      log' = log ++ ops
      /\ (succeeded w log -> succeeded w log')
      /\ omap copied_from ops = join w target_dir <$> names
      /\ omap removed ops ⊆ join w project_root <$> names.
Proof.
  induction names as [|name rest IH]; intros log log' Hrun; simpl in Hrun.
  - injection Hrun as <-. exists []. by rewrite app_nil_r.
  - apply mbind_Go in Hrun as (log1 & is_dir & Hprobe & Hrun).
    apply probe_Go in Hprobe as [-> Hdir].
    apply mbind_Go in Hrun as (log2 & [] & Hop & Hrun).
    destruct (IH _ _ Hrun) as (ops & -> & Hok' & Hcopied & Hremoved).
    destruct is_dir.
    + apply mbind_Go in Hop as (log3 & [] & Hrm & Hcp).
      apply perform_Go in Hrm as [-> Hok1]. apply perform_Go in Hcp as [-> Hok2].
      eexists (_ :: _ :: ops). split; [by rewrite <- !app_assoc|]. split; [auto|].
      csimpl. rewrite Hcopied. split; [done|]. set_solver.
    + apply perform_Go in Hop as [-> Hok1].
      eexists (_ :: ops). split; [by rewrite <- !app_assoc|]. split; [auto|].
      csimpl. rewrite Hcopied. split; [done|]. set_solver.
Qed.

Lemma directories_Go (w : World) (dir : string) (names : list string) :
  forall (log log' : list Op) (found : list string),
    directories w dir names log = (log', Go found) -> log' = log.
Proof.
  induction names as [|name rest IH]; intros log log' found Hrun; simpl in Hrun.
  - by injection Hrun as <- <-.
  - apply mbind_Go in Hrun as (log1 & is_dir & Hprobe & Hrun).
    apply probe_Go in Hprobe as [-> _].
    apply mbind_Go in Hrun as (log2 & found' & Hrest & Hrun).
    apply IH in Hrest as ->. by injection Hrun as <- _.
Qed.

(** a run that yields, seen through its steps *)
Lemma run_Yields (w : World) (args : SnapshotArgs) (log : list Op) (r : SnapshotResult) :
  run w args = (log, Yields r) <-> run_body w args [] = (log, Go r).
Proof.
  unfold run. destruct (run_body w args []) as [log' [r'|[e|]]]; split; try done.
  - by intros [= <- <-].
  - by intros [= <- <-].
Qed.

Lemma grows_ret {A} (a : A) : grows (ret a).
Proof. intros log log' step [= <- <-]. exists []. by rewrite app_nil_r. Qed.

Lemma grows_finish {A} (failure : Failure) : grows (@finish A failure).
Proof. intros log log' step [= <- <-]. exists []. by rewrite app_nil_r. Qed.

Lemma grows_probe {A} (answer : list Op -> string -> result A) (path : string) :
  grows (probe answer path).
Proof. intros log log' step [= <- <-]. exists []. by rewrite app_nil_r. Qed.

Lemma grows_perform (w : World) (op : Op) : grows (perform w op).
Proof. intros log log' step [= <- <-]. by exists [op]. Qed.

Lemma grows_mbind {A B} (m : M A) (k : A -> M B) :
  grows m -> (forall a, grows (k a)) -> grows (mbind m k).
Proof.
  intros Hm Hk log log' step. unfold mbind.
  destruct (m log) as [log1 [a|failure]] eqn:Hrun.
  - intros Hrest. destruct (Hm _ _ _ Hrun) as [ops1 ->].
    destruct (Hk a _ _ _ Hrest) as [ops2 ->]. exists (ops1 ++ ops2). by rewrite app_assoc.
  - intros [= <- <-]. by apply (Hm _ _ _ Hrun).
Qed.

Lemma grows_copy_project (w : World) (project_root target_dir : string)
    (names : list string) : grows (copy_project w project_root target_dir names).
Proof.
  induction names as [|name rest IH]; simpl; [apply grows_ret|].
  destruct (bool_decide (name ∈ skipped_names)); [done|].
  apply grows_mbind; [apply grows_probe|]. intros is_dir.
  apply grows_mbind; [apply grows_perform|done].
Qed.

Lemma grows_restore_project (w : World) (project_root target_dir : string)
    (names : list string) : grows (restore_project w project_root target_dir names).
Proof.
  induction names as [|name rest IH]; simpl; [apply grows_ret|].
  apply grows_mbind; [apply grows_probe|]. intros is_dir.
  apply grows_mbind; [|done]. destruct is_dir; [|apply grows_perform].
  apply grows_mbind; [apply grows_perform|]. intros _. apply grows_perform.
Qed.

Lemma grows_directories (w : World) (dir : string) (names : list string) :
  grows (directories w dir names).
Proof.
  induction names as [|name rest IH]; simpl; [apply grows_ret|].
  apply grows_mbind; [apply grows_probe|]. intros is_dir.
  apply grows_mbind; [done|]. intros found. apply grows_ret.
Qed.

Lemma grows_with_snapshot_dir (w : World) (args : SnapshotArgs) :
  grows (with_snapshot_dir w args).
Proof.
  unfold with_snapshot_dir.
  destruct (sn_name args) as [name|]; [|apply grows_finish].
  destruct (String.eqb (sn_action args) "create").
  { apply grows_mbind; [apply grows_probe|]. intros found.
    apply grows_mbind; [destruct found; [apply grows_perform|apply grows_ret]|]. intros _.
    apply grows_mbind; [apply grows_perform|]. intros _.
    apply grows_mbind; [apply grows_probe|]. intros names.
    apply grows_mbind; [apply grows_copy_project|]. intros _. apply grows_ret. }
  destruct (String.eqb (sn_action args) "restore").
  { apply grows_mbind; [apply grows_probe|]. intros found.
    destruct (negb found); [apply grows_finish|].
    apply grows_mbind; [apply grows_probe|]. intros names.
    apply grows_mbind; [apply grows_restore_project|]. intros _. apply grows_ret. }
  destruct (String.eqb (sn_action args) "list"); [|apply grows_finish].
  apply grows_mbind; [apply grows_probe|]. intros names.
  apply grows_mbind; [apply grows_directories|]. intros found. apply grows_ret.
Qed.

(** the run, given what its first operation does *)
Lemma run_first (w : World) (args : SnapshotArgs) :
  run w args
  = match op_error w [] (MkdirExistOk (snapshot_dir w)) with
    | Some e => ([MkdirExistOk (snapshot_dir w)], Raises e)
    | None =>
        match with_snapshot_dir w args [MkdirExistOk (snapshot_dir w)] with
        | (log, Go result) => (log, Yields result)
        | (log, End (Raised e)) => (log, Raises e)
        | (log, End TypeError) => (log, RaisesTypeError)
        end
    end.
Proof.
  unfold run, run_body, mbind, perform.
  by destruct (op_error w [] (MkdirExistOk (snapshot_dir w))).
Qed.

(** [ContextSnapshot.run] makes the snapshot directory before it looks at
    its arguments, whatever they are. Without a name it then stops with a
    [TypeError], for every action, [list] included; with a name and an action
    other than [create], [restore] and [list] it raises the [ToolError] of the
    unknown action, and a [restore] of a snapshot that does not exist raises
    a [ToolError]; in all three cases nothing else has been attempted. *)
Theorem snapshot_run_makes_the_directory_first (w : World) (args : SnapshotArgs) :
  let log := (run w args).1 in
  let ending := (run w args).2 in
  let first := MkdirExistOk (snapshot_dir w) in
  let unless_mkdir_fails e :=
    match op_error w [] first with Some e' => Raises e' | None => e end in
  (exists rest, log = first :: rest)
  /\ (sn_name args = None ->
      log = [first] /\ ending = unless_mkdir_fails RaisesTypeError)
  /\ (forall name,
        sn_name args = Some name ->
        sn_action args ∉ ["create"; "restore"; "list"] ->
        log = [first]
        /\ ending = unless_mkdir_fails
                      (Raises (Exn ToolError ("Unknown action: " +:+ sn_action args))))
  /\ (forall name,
        sn_name args = Some name ->
        sn_action args = "restore" ->
        path_exists w [first] (join w (snapshot_dir w) name) = Ok false ->
        log = [first]
        /\ ending = unless_mkdir_fails
                      (Raises (Exn ToolError
                                 ("Snapshot '" +:+ name +:+ "' does not exist.")))).
Proof.
  intros log ending first unless_mkdir_fails.
  subst log ending unless_mkdir_fails. rewrite run_first. fold first.
  destruct (op_error w [] first) eqn:Hmk; [by split; [exists []|]|].
  split.
  - destruct (with_snapshot_dir w args [first]) as [log step] eqn:Hrun.
    destruct (grows_with_snapshot_dir w args _ _ _ Hrun) as [ops ->].
    destruct step as [r|[e|]]; by exists ops.
  - unfold with_snapshot_dir. split; [by intros ->|]. split.
    + intros name -> Hunknown.
      rewrite !not_elem_of_cons in Hunknown. destruct Hunknown as (H1 & H2 & H3 & _).
      apply String.eqb_neq in H1, H2, H3. by rewrite H1, H2, H3.
    + intros name -> -> Hmissing. cbn [String.eqb Ascii.eqb Bool.eqb].
      unfold mbind, probe. by rewrite Hmissing.
Qed.

(** A result of [ContextSnapshot.run] means that every operation attempted
    succeeded. For [create] the sources of the copies are, in order, the
    entries of the project root other than [.git], [.hacx], [node_modules] and
    [__pycache__], each once; what is removed is the path
    [snapshot_dir / name], exactly when something exists there after the
    directory was made, and nothing else. That path is whatever [/] makes
    of the name: nothing here says that it lies inside the snapshot
    directory. For [restore] every entry of the directory
    [snapshot_dir / name] is copied, and only a path of the project that one
    of these entries names is removed: what was added to the project since
    stays. [list] changes nothing beyond the directory that every run
    makes. *)
Theorem snapshot_result_effects
    (w : World) (args : SnapshotArgs) (log : list Op) (r : SnapshotResult) :
  run w args = (log, Yields r) ->
  succeeded w log
  /\ exists name,
       sn_name args = Some name
       /\ let target_dir := join w (snapshot_dir w) name in
          (sn_action args = "create"
           /\ sr_action r = "create" /\ sr_name r = name
           /\ exists before names,
                iterdir w before (cwd w) = Ok names
                /\ omap copied_from log
                   = join w (cwd w) <$> filter (fun n => n ∉ skipped_names) names
                /\ exists found,
                     path_exists w [MkdirExistOk (snapshot_dir w)] target_dir = Ok found
                     /\ omap removed log = if found then [target_dir] else [])
          \/ (sn_action args = "restore"
              /\ sr_action r = "restore" /\ sr_name r = name
              /\ exists before names,
                   iterdir w before target_dir = Ok names
                   /\ omap copied_from log = join w target_dir <$> names
                   /\ omap removed log ⊆ join w (cwd w) <$> names)
          \/ (sn_action args = "list"
              /\ sr_action r = "list" /\ sr_name r = ""
              /\ log = [MkdirExistOk (snapshot_dir w)]).
Proof.
  intros Hrun. apply run_Yields in Hrun. unfold run_body in Hrun.
  apply mbind_Go in Hrun as (log1 & [] & Hmk & Hrun).
  apply perform_Go in Hmk as [-> Hok1]. simpl in Hok1.
  specialize (Hok1 (succeeded_nil w)).
  unfold with_snapshot_dir in Hrun.
  destruct (sn_name args) as [name|]; [|done].
  destruct (String.eqb (sn_action args) "create") eqn:Hcreate.
  { apply String.eqb_eq in Hcreate.
    apply mbind_Go in Hrun as (log2 & found & Hprobe & Hrun).
    apply probe_Go in Hprobe as [-> Hfound].
    apply mbind_Go in Hrun as (log3 & [] & Hrm & Hrun).
    apply mbind_Go in Hrun as (log4 & [] & Hmkdir & Hrun).
    apply perform_Go in Hmkdir as [-> Hok3].
    apply mbind_Go in Hrun as (log5 & names & Hiter & Hrun).
    apply probe_Go in Hiter as [-> Hnames].
    apply mbind_Go in Hrun as (log6 & [] & Hcopy & Hrun).
    apply copy_project_Go in Hcopy as (ops & -> & Hok4 & Hcopied & Hremoved).
    injection Hrun as <- <-.
    destruct found.
    - apply perform_Go in Hrm as [-> Hok2]. split; [auto|].
      exists name. split; [done|]. left. split; [done|]. split; [done|]. split; [done|].
      eexists _, names. split; [exact Hnames|].
      rewrite !omap_app, Hcopied, Hremoved. csimpl. split; [done|].
      exists true. split; [exact Hfound|done].
    - injection Hrm as <-. split; [auto|].
      exists name. split; [done|]. left. split; [done|]. split; [done|]. split; [done|].
      eexists _, names. split; [exact Hnames|].
      rewrite !omap_app, Hcopied, Hremoved. csimpl. split; [done|].
      exists false. split; [exact Hfound|done]. }
  destruct (String.eqb (sn_action args) "restore") eqn:Hrestore.
  { apply String.eqb_eq in Hrestore.
    apply mbind_Go in Hrun as (log2 & found & Hprobe & Hrun).
    apply probe_Go in Hprobe as [-> Hfound].
    destruct found; [|done]. cbn [negb] in Hrun.
    apply mbind_Go in Hrun as (log3 & names & Hiter & Hrun).
    apply probe_Go in Hiter as [-> Hnames].
    apply mbind_Go in Hrun as (log4 & [] & Hcopy & Hrun).
    apply restore_project_Go in Hcopy as (ops & -> & Hok2 & Hcopied & Hremoved).
    injection Hrun as <- <-. split; [auto|].
    exists name. split; [done|]. right. left.
    split; [done|]. split; [done|]. split; [done|].
    eexists _, names. split; [exact Hnames|].
    csimpl. rewrite ?omap_app, ?Hcopied. csimpl. rewrite ?Hcopied. split; [done|]. set_solver. }
  destruct (String.eqb (sn_action args) "list") eqn:Hlist; [|done].
  apply String.eqb_eq in Hlist.
  apply mbind_Go in Hrun as (log2 & names & Hiter & Hrun).
  apply probe_Go in Hiter as [-> Hnames].
  apply mbind_Go in Hrun as (log3 & found & Hdirs & Hrun).
  apply directories_Go in Hdirs as ->. injection Hrun as <- <-.
  split; [done|]. exists name. split; [done|]. right. right. done.
Qed.

Lemma snapshot_result_witness :
  exists log r,
    run plain_world (mkSnapshotArgs "create" (Some "before-refactor")) = (log, Yields r)
    /\ succeeded plain_world log
    /\ omap copied_from log = ["/work/src"; "/work/README.md"].
Proof.
  do 2 eexists. split; [reflexivity|].
  edestruct (snapshot_result_effects
               plain_world (mkSnapshotArgs "create" (Some "before-refactor")))
    as (Hok & name & Hname & Hcases); [reflexivity|].
  split; [exact Hok|]. reflexivity.
Defined.

(** With an empty name [snapshot_dir / name] is the snapshot directory
    itself: [create] removes it, with every snapshot in it, and still yields
    its result. *)
Example create_with_empty_name :
  let '(log, ending) := run posix_world (mkSnapshotArgs "create" (Some "")) in
  omap removed log = ["/work/.hacx/snapshots"]
  /\ ending = Yields (mkSnapshotResult "create" "" "Created snapshot ''").
Proof. by vm_compute. Qed.

End SnapshotFacts.

(** ** The banner's animation *)

Module BannerFacts.
Import Banner.

Lemma compose_in_step (configured : AnimationType) : in_step (compose configured).
Proof. done. Qed.

Lemma update_animation_in_step (self : Banner) (new : AnimationType) :
  in_step self -> in_step (update_animation self new).
Proof.
  unfold in_step, update_animation. intros Hstep.
  destruct (decide (animation self = new)) as [_|_]; [done|].
  rewrite Hstep.
  destruct (ANIMATION_REGISTRY new) eqn:Hnew; simpl; rewrite Hnew;
    by destruct (ANIMATION_REGISTRY (animation self)).
Qed.

(** However the animation is changed through [update_animation] after the
    banner is composed, the banner shows exactly the widget registered for
    its current animation, and none for an animation that has no widget; the
    current animation is the one asked for last. A [set_state] with another
    animation breaks this: the widget of the old animation stays, and asking
    [update_animation] for the new one changes nothing any more. *)
Theorem banner_animation_stays_in_step
    (configured : AnimationType) (requests : list AnimationType) :
  let banner := foldl update_animation (compose configured) requests in
  in_step banner
  /\ animation banner = default configured (last requests)
  /\ (length (animation_widgets banner) <= 1)%nat
  /\ forall other,
       other <> animation banner ->
       ANIMATION_REGISTRY other <> ANIMATION_REGISTRY (animation banner) ->
       ~ in_step (update_animation (set_state banner other) other).
Proof.
  intros banner. subst banner.
  assert (in_step (foldl update_animation (compose configured) requests)
          /\ animation (foldl update_animation (compose configured) requests)
             = default configured (last requests)) as [Hstep Hlast].
  { induction requests as [|new requests IH] using rev_ind; [done|].
    rewrite foldl_app, last_snoc. simpl. destruct IH as [IH _].
    split; [by apply update_animation_in_step|].
    unfold update_animation.
    destruct (decide (animation _ = new)) as [Heq|_]; [done|].
    by destruct (ANIMATION_REGISTRY new). }
  split; [done|]. split; [done|]. split.
  - rewrite Hstep. destruct (ANIMATION_REGISTRY _); simpl; lia.
  - intros other Hother Hdiff. unfold in_step, update_animation, set_state in *. simpl.
    rewrite decide_True by done. simpl. rewrite Hstep.
    destruct (ANIMATION_REGISTRY other), (ANIMATION_REGISTRY (animation _)); congruence.
Qed.

End BannerFacts.

(** ** The backend's client *)

Module ClientCacheFacts.
Import Config ClientCache.

Section Client.
Variable Client : Type.
Variable new_client : option string -> string -> Q -> result Client.

Lemma calls_cached (self : UniversalBackend Client) (client : Client)
    (environs : list (gmap string string)) :
  _client Client self = Some client ->
  calls Client new_client self environs = (fun _ => Ok client) <$> environs.
Proof.
  revert self. induction environs as [|environ rest IH]; intros self Hc; [done|].
  simpl. unfold _get_client. rewrite Hc. csimpl. f_equal. by apply IH.
Qed.

Lemma calls_new (self : UniversalBackend Client) (environ : gmap string string)
    (rest : list (gmap string string)) :
  _client Client self = None ->
  calls Client new_client self (environ :: rest)
  = match new_client (if PyStr.truthy (pc_api_key_env_var (_provider Client self))
                      then environ !! pc_api_key_env_var (_provider Client self)
                      else Some "")
                     (pc_api_base (_provider Client self)) (_timeout Client self) with
    | Ok client => Ok client :: ((fun _ => Ok client) <$> rest)
    | Raise e => Raise e :: calls Client new_client self rest
    end.
Proof.
  intros Hnone. simpl. unfold _get_client. rewrite Hnone.
  destruct (new_client _ _ _) as [client|e]; [|done].
  f_equal. by apply calls_cached.
Qed.

(** The client is built once. In a series of calls of [_get_client] on a
    new backend, each in its own environment, the calls before the first
    success raise what the constructor raises, each with the key of its own
    environment; the first success builds the client with the key that the
    provider's variable has then (the empty string when the provider names
    no variable); and every later call returns that client, whatever the
    environment has become. *)
Theorem get_client_builds_once
    (provider : ProviderConfig) (timeout : Q) (environs : list (gmap string string)) :
  let key environ :=
    if PyStr.truthy (pc_api_key_env_var provider)
    then environ !! pc_api_key_env_var provider else Some "" in
  let results := calls Client new_client (__init__ Client provider timeout) environs in
  length results = length environs
  /\ (forall i environ e,
        environs !! i = Some environ -> results !! i = Some (Raise e) ->
        new_client (key environ) (pc_api_base provider) timeout = Raise e)
  /\ (forall i environ client,
        environs !! i = Some environ -> results !! i = Some (Ok client) ->
        (forall j r, (j < i)%nat -> results !! j = Some r -> is_ok r = false) ->
        new_client (key environ) (pc_api_base provider) timeout = Ok client)
  /\ (forall i j client r,
        (i <= j)%nat -> results !! i = Some (Ok client) -> results !! j = Some r ->
        r = Ok client).
Proof.
  intros key results. subst results.
  assert (forall self : UniversalBackend Client,
            _client Client self = None -> _provider Client self = provider ->
            _timeout Client self = timeout ->
            let results := calls Client new_client self environs in
            length results = length environs
            /\ (forall i environ e,
                  environs !! i = Some environ -> results !! i = Some (Raise e) ->
                  new_client (key environ) (pc_api_base provider) timeout = Raise e)
            /\ (forall i environ client,
                  environs !! i = Some environ -> results !! i = Some (Ok client) ->
                  (forall j r, (j < i)%nat -> results !! j = Some r -> is_ok r = false) ->
                  new_client (key environ) (pc_api_base provider) timeout = Ok client)
            /\ (forall i j client r,
                  (i <= j)%nat -> results !! i = Some (Ok client) ->
                  results !! j = Some r -> r = Ok client)) as Hgen.
  2: { by apply Hgen. }
  induction environs as [|environ rest IH]; intros self Hnone Hprov Htime; cbv zeta.
  - simpl. split; [done|]. split; [done|]. split; [done|]. by intros i j client r _ ?.
  - rewrite (calls_new self environ rest Hnone), Hprov, Htime. fold (key environ).
    destruct (new_client (key environ) (pc_api_base provider) timeout) as [client|e] eqn:Hnew.
    + split; [simpl; by rewrite length_fmap|]. split; [|split].
      * intros [|i] env' e' Henv Hres; [done|]. simpl in Hres.
        rewrite list_lookup_fmap in Hres. by destruct (rest !! i).
      * intros [|i] env' client' Henv Hres Hbefore.
        -- simpl in Henv, Hres. by simplify_eq.
        -- by specialize (Hbefore 0%nat (Ok client) ltac:(lia) eq_refl).
      * intros i j client' r Hle Hi Hj.
        assert (forall n r', (Ok client :: ((fun _ => Ok client) <$> rest)) !! n = Some r' ->
                             r' = Ok client) as Hall.
        { intros [|n] r' Hn; simpl in Hn; [by simplify_eq|].
          rewrite list_lookup_fmap in Hn. destruct (rest !! n); by simplify_eq/=. }
        apply Hall in Hi. apply Hall in Hj. congruence.
    + destruct (IH self Hnone Hprov Htime) as (Hlen & Hraise & Hfirst & Hlater).
      cbv zeta in *. split; [simpl; by rewrite Hlen|]. split; [|split].
      * intros [|i] env' e' Henv Hres.
        -- simpl in Henv, Hres. by simplify_eq.
        -- by apply (Hraise i).
      * intros [|i] env' client' Henv Hres Hbefore; [done|].
        apply (Hfirst i); [done|done|]. intros j r Hj Hr.
        apply (Hbefore (S j)); [lia|done].
      * intros [|i] [|j] client' r Hle Hi Hj; [done|done|lia|].
        apply (Hlater i j); [lia|done|done].
Qed.

End Client.

(** the key is read when the client is first asked for, and not again *)
Example key_is_read_once :
  calls _ plain_client
        (__init__ _ (mkProviderConfig "openai" "https://api.openai.com/v1" "OPENAI_API_KEY") 720)
        [ {[ "OPENAI_API_KEY" := "first" ]}; {[ "OPENAI_API_KEY" := "second" ]} ]
  = [ Ok (Some "first", "https://api.openai.com/v1");
      Ok (Some "first", "https://api.openai.com/v1") ].
Proof. reflexivity. Qed.

End ClientCacheFacts.

(** ** The impact tool *)

Module ImpactFacts.
Import Tools Text Impact.

#[local] Set Warnings "-clear-no-such-hyp".

Lemma occurs_refl (s : string) : occurs s s.
Proof. exists "", "". by rewrite LinesFacts.str_app_nil_r. Qed.

Lemma occurs_trans (a b c : string) : occurs a b -> occurs b c -> occurs a c.
Proof.
  intros (p1 & q1 & ->) (p2 & q2 & ->). exists (p2 +:+ p1), (q1 +:+ q2).
  by rewrite !LinesFacts.str_app_assoc.
Qed.

Lemma occurs_in_tail (a cur s : string) : occurs a s -> occurs a (cur +:+ s).
Proof.
  intros (p & q & ->). exists (cur +:+ p), q. by rewrite !LinesFacts.str_app_assoc.
Qed.

Lemma occurs_in_head (a cur s : string) : occurs a cur -> occurs a (cur +:+ s).
Proof.
  intros (p & q & ->). exists p, (q +:+ s). by rewrite !LinesFacts.str_app_assoc.
Qed.

Lemma starts_with_app (sub s : string) :
  PyStr.starts_with sub s = true <-> exists rest, s = sub +:+ rest.
Proof.
  revert s. induction sub as [|a sub IH]; intros s; simpl.
  - split; [|done]. intros _. by exists s.
  - destruct s as [|b s].
    + split; [done|]. by intros [rest [=]].
    + rewrite andb_true_iff, IH. split.
      * intros [->%Ascii.eqb_eq [rest ->]]. by exists rest.
      * intros [rest [= -> ->]]. split; [apply Ascii.eqb_refl|by exists rest].
Qed.

Lemma contains_occurs (sub s : string) : contains sub s = true <-> occurs sub s.
Proof.
  induction s as [|c s IH].
  - simpl. rewrite orb_false_r, starts_with_app. split.
    + intros [rest ->]. exists "", rest. done.
    + intros (p & q & Heq). destruct p; [by exists q|by destruct sub].
  - cbn [contains]. rewrite orb_true_iff, starts_with_app, IH. split.
    + intros [[rest ->]|(p & q & ->)].
      * by exists "", rest.
      * by exists (String c p), q.
    + intros ([|d p] & q & Heq).
      * left. by exists q.
      * right. injection Heq as -> ->. by exists p, q.
Qed.

Lemma search_from_occurs (symbol : string) (s : string) :
  forall prev, search_from symbol prev s = true -> occurs symbol s.
Proof.
  induction s as [|c s IH]; intros prev; cbn [search_from]; rewrite orb_true_iff.
  - intros [Hm|?]; [|done]. unfold match_here in Hm.
    apply andb_true_iff in Hm as [[_ Hs]%andb_true_iff _].
    apply starts_with_app in Hs as [rest ->]. by exists "", rest.
  - intros [Hm|Hs].
    + unfold match_here in Hm. apply andb_true_iff in Hm as [[_ Hs]%andb_true_iff _].
      apply starts_with_app in Hs as [rest ->]. by exists "", rest.
    + apply IH in Hs as (p & q & ->). by exists (String c p), q.
Qed.

(** a line of a text lies in the text *)
Lemma splitlines_from_occurs (line : string) (n : nat) :
  forall (s cur : string),
    (String.length s <= n)%nat ->
    line ∈ splitlines_from cur s -> occurs line (cur +:+ s).
Proof.
  induction n as [|n IH]; intros s cur Hlen Hin.
  - destruct s; [|simpl in Hlen; lia]. simpl in Hin.
    destruct (PyStr.truthy cur); [|by apply elem_of_nil in Hin].
    apply list_elem_of_singleton in Hin as ->. apply occurs_in_head, occurs_refl.
  - destruct s as [|c rest]; simpl in Hin, Hlen.
    + destruct (PyStr.truthy cur); [|by apply elem_of_nil in Hin].
      apply list_elem_of_singleton in Hin as ->. apply occurs_in_head, occurs_refl.
    + destruct (Ascii.eqb c carriage_return).
      * destruct rest as [|d rest'].
        -- apply list_elem_of_singleton in Hin as ->. apply occurs_in_head, occurs_refl.
        -- destruct (Ascii.eqb d newline);
             apply elem_of_cons in Hin as [->|Hin];
             try (apply occurs_in_head, occurs_refl).
           ++ apply (IH rest' "") in Hin; [|simpl in Hlen; lia].
              change (String c (String d rest')) with ((String c (String d "")) +:+ rest').
              rewrite <- LinesFacts.str_app_assoc. by apply occurs_in_tail.
           ++ apply (IH (String d rest') "") in Hin; [|simpl in *; lia].
              change (String c (String d rest')) with ((String c "") +:+ String d rest').
              rewrite <- LinesFacts.str_app_assoc. by apply occurs_in_tail.
      * destruct (is_line_boundary c).
        -- apply elem_of_cons in Hin as [->|Hin]; [apply occurs_in_head, occurs_refl|].
           apply (IH rest "") in Hin; [|lia].
           change (String c rest) with ((String c "") +:+ rest).
           rewrite <- LinesFacts.str_app_assoc. by apply occurs_in_tail.
        -- apply (IH rest) in Hin; [|lia].
           by rewrite LinesFacts.str_app_assoc in Hin.
Qed.

Lemma splitlines_occurs (line content : string) :
  line ∈ splitlines content -> occurs line content.
Proof. apply (splitlines_from_occurs line (String.length content)). done. Qed.

(** the test [symbol in content] never hides a line that the pattern finds *)
Lemma search_in_content (symbol line content : string) :
  line ∈ splitlines content -> search symbol line = true ->
  contains symbol content = true.
Proof.
  intros Hline Hsearch. apply contains_occurs.
  eapply occurs_trans; [|by apply splitlines_occurs].
  by apply (search_from_occurs symbol line None).
Qed.

Lemma references_from_Ok (symbol rel : string) (lines : list string) :
  forall (i : Z),
    exists found,
      references_from symbol (Ok rel) i lines = Ok found
      /\ forall r,
           r ∈ found
           <-> exists (k : nat) line,
                 lines !! k = Some line /\ search symbol line = true
                 /\ r = mkImpactReference rel (i + Z.of_nat k) (PyStr.strip line).
Proof.
  induction lines as [|line rest IH]; intros i.
  - exists []. split; [done|]. intros r. split; [by intros ?%elem_of_nil|].
    by intros (k & l & ? & _).
  - destruct (IH (i + 1)) as (found & Hfound & Hspec). cbn [references_from].
    destruct (search symbol line) eqn:Hsearch.
    + rewrite Hfound. cbn. eexists. split; [reflexivity|]. intros r.
      rewrite elem_of_cons, Hspec. split.
      * intros [->|(k & l & Hk & Hs & ->)].
        -- exists 0%nat, line. split; [done|]. split; [done|]. f_equal. lia.
        -- exists (S k), l. split; [done|]. split; [done|]. f_equal. lia.
      * intros ([|k] & l & Hk & Hs & ->).
        -- left. injection Hk as <-. f_equal. lia.
        -- right. exists k, l. split; [done|]. split; [done|]. f_equal. lia.
    + exists found. split; [done|]. intros r. rewrite Hspec. split.
      * intros (k & l & Hk & Hs & ->). exists (S k), l.
        split; [done|]. split; [done|]. f_equal. lia.
      * intros ([|k] & l & Hk & Hs & ->).
        -- injection Hk as <-. congruence.
        -- exists k, l. split; [done|]. split; [done|]. f_equal. lia.
Qed.

Lemma references_from_Raise (symbol : string) (e : exn) (lines : list string) :
  forall (i : Z) found,
    references_from symbol (Raise e) i lines = Ok found -> found = [].
Proof.
  induction lines as [|line rest IH]; intros i found; cbn [references_from].
  - by intros [= <-].
  - destruct (search symbol line); [done|]. apply IH.
Qed.

(** what one file adds to the references *)
Lemma file_references_spec (symbol : string) (file : Entry) (r : ImpactReference) :
  r ∈ match file_references symbol file with Ok found => found | Raise _ => [] end
  <-> exists size content rel (k : nat) line,
        en_size file = Ok size /\ size <= 1000000
        /\ en_text file = Ok content
        /\ en_relative file = Ok rel
        /\ splitlines content !! k = Some line
        /\ search symbol line = true
        /\ r = mkImpactReference rel (Z.of_nat k + 1) (PyStr.strip line).
Proof.
  unfold file_references.
  destruct (en_size file) as [size|e]; cbn.
  2: { split; [by intros ?%elem_of_nil|]. by intros (? & ? & ? & ? & ? & ? & _). }
  destruct (1000000 <? size)%Z eqn:Hsize.
  { apply Z.ltb_lt in Hsize. split; [by intros ?%elem_of_nil|].
    intros (? & ? & ? & ? & ? & [= <-] & ? & _). lia. }
  apply Z.ltb_ge in Hsize.
  destruct (en_text file) as [content|e]; cbn.
  2: { split; [by intros ?%elem_of_nil|]. by intros (? & ? & ? & ? & ? & ? & ? & ? & _). }
  destruct (contains symbol content) eqn:Hquick.
  - destruct (en_relative file) as [rel|e].
    + destruct (references_from_Ok symbol rel (splitlines content) 1)
        as (found & -> & Hspec).
      rewrite Hspec. split.
      * intros (k & line & Hk & Hs & ->). exists size, content, rel, k, line.
        repeat (split; [done|]). f_equal. lia.
      * intros (? & ? & ? & k & line & [= <-] & _ & [= <-] & [= <-] & Hk & Hs & ->).
        exists k, line. split; [done|]. split; [done|]. f_equal. lia.
    + destruct (references_from symbol (Raise e) 1 (splitlines content))
        as [found|e'] eqn:Hrefs.
      * apply references_from_Raise in Hrefs as ->.
        split; [by intros ?%elem_of_nil|]. by intros (? & ? & ? & ? & ? & ? & ? & ? & ? & _).
      * split; [by intros ?%elem_of_nil|]. by intros (? & ? & ? & ? & ? & ? & ? & ? & ? & _).
  - split; [by intros ?%elem_of_nil|].
    intros (? & ? & ? & k & line & _ & _ & [= <-] & _ & Hk & Hs & _).
    apply list_elem_of_lookup_2 in Hk.
    rewrite (search_in_content symbol line content Hk Hs) in Hquick. done.
Qed.

(** [ImpactAnalyzer.run] ends with one result unless an [is_file] call
    raises, which nothing handles. The references of the result are exactly
    the lines, of the files that are regular, not ignored, at most 1000000
    bytes long, readable and below the project root, in which the pattern
    finds the symbol between word boundaries; each gives the relative path,
    the line number counted from 1 and the stripped line. The test
    [symbol in content] hides none of them, and a file whose path holds one
    of the ignored strings anywhere gives none. *)
Theorem impact_references_are_the_bounded_occurrences
    (files : list Entry) (args : ImpactArgs) :
  let symbol := ia_symbol args in
  let ignore := ia_ignore_paths args ++ default_ignore in
  match walk symbol ignore files with
  | Ok references =>
      trace (run files args) = ([mkImpactResult symbol references], None)
      /\ forall r,
           r ∈ references
           <-> exists file size content rel (k : nat) line,
                 file ∈ files
                 /\ en_is_file file = Ok true
                 /\ (forall p, p ∈ ignore -> ~ occurs p (en_path file))
                 /\ en_size file = Ok size /\ size <= 1000000
                 /\ en_text file = Ok content
                 /\ en_relative file = Ok rel
                 /\ splitlines content !! k = Some line
                 /\ search symbol line = true
                 /\ r = mkImpactReference rel (Z.of_nat k + 1) (PyStr.strip line)
  | Raise e =>
      trace (run files args) = ([], Some e)
      /\ exists file, file ∈ files /\ en_is_file file = Raise e
  end.
Proof.
  intros symbol ignore. unfold run. fold symbol. fold ignore.
  assert (forall path, ignored ignore path = false
                       <-> forall p, p ∈ ignore -> ~ occurs p path) as Hignored.
  { intros path. unfold ignored. generalize ignore. intros l.
    induction l as [|p l IH]; simpl.
    - split; [|done]. intros _ p Hp. by apply elem_of_nil in Hp.
    - rewrite orb_false_iff, IH. split.
      + intros [Hp Hl] q [->|Hq]%elem_of_cons.
        * rewrite <- contains_occurs. by rewrite Hp.
        * by apply Hl.
      + intros H. split.
        * destruct (contains p path) eqn:Hc; [|done].
          apply contains_occurs in Hc. by destruct (H p ltac:(left)).
        * intros q Hq. apply H. by right. }
  induction files as [|file rest IH]; cbn [walk].
  - split; [done|]. intros r. split; [by intros ?%elem_of_nil|].
    by intros (? & ? & ? & ? & ? & ? & ?%elem_of_nil & _).
  - destruct (en_is_file file) as [is_file|e] eqn:Hfile; cbn.
    2: { split; [done|]. exists file. split; [left|done]. }
    destruct (walk symbol ignore rest) as [others|e] eqn:Hwalk; cbn.
    2: { destruct IH as [_ (f & Hf & He)]. split; [done|]. exists f. split; [by right|done]. }
    destruct IH as [_ IH]. split; [done|]. intros r. rewrite elem_of_app, IH.
    split.
    + intros [Hhere|(f & Hrest)].
      * destruct is_file; [|by apply elem_of_nil in Hhere]. cbn in Hhere.
        destruct (ignored ignore (en_path file)) eqn:Hign;
          [by apply elem_of_nil in Hhere|].
        cbn in Hhere. apply file_references_spec in Hhere
          as (size & content & rel & k & line & H1 & H2 & H3 & H4 & H5 & H6 & ->).
        exists file, size, content, rel, k, line.
        split; [left|]. split; [done|]. split; [by apply Hignored|]. done.
      * destruct Hrest as (size & content & rel & k & line & Hin & Hrest).
        exists f, size, content, rel, k, line. split; [by right|done].
    + intros (f & size & content & rel & k & line & Hin & His & Hign & Hrest).
      apply elem_of_cons in Hin as [->|Hin].
      * left. rewrite Hfile in His. injection His as ->.
        apply Hignored in Hign. rewrite Hign. cbn.
        apply file_references_spec. by exists size, content, rel, k, line.
      * right. by exists f, size, content, rel, k, line.
Qed.

(** the workflow file under [.github] is passed over: its path holds
    [.git] *)
Example impact_on_sample :
  trace (run sample_files (mkImpactArgs "run" []))
  = ([mkImpactResult "run"
        [ mkImpactReference "src/agent.py" 1 "def run(agent):";
          mkImpactReference "src/agent.py" 2 "rerun = agent.run()" ]], None).
Proof. reflexivity. Qed.

End ImpactFacts.

(** ** Reading the settings file *)

Module SettingsFileFacts.
Import Config Startup SettingsFile.

Lemma sent_to_the_setup (app_run : World -> World * result (option string))
    (w w' : World) (e : exn) (answer : result (option string)) :
  load_in w = Raise e -> sent_to_onboarding (exn_class e) = true ->
  app_run w = (w', answer) ->
  load_config_or_exit app_run w
  = match answer with
    | Raise e => (w', Raises e)
    | Ok None => (w', Exits 0)
    | Ok (Some _) =>
        (w', match load_in w' with
             | Ok config => Returns config
             | Raise e => Raises e
             end)
    end.
Proof.
  intros Hload Hsent Hrun. unfold load_config_or_exit. rewrite Hload.
  cbn [bind]. rewrite Hsent. unfold run_onboarding. rewrite Hrun.
  destruct answer as [[s|]|e']; [|done|done].
  destruct (PyStr.starts_with save_error_prefix s); [done|].
  by destruct (String.eqb s "completed").
Qed.

(** What a settings file that cannot be loaded does to the start-up. A
    missing file is read as an empty dict. A file that cannot be opened or
    read for another reason, or whose text is not JSON, makes the load raise
    a [RuntimeError] that names the file, and a document nested too deeply
    one that does not; with these [load_config_or_exit] exits with status 1
    and the set-up is not run, whatever it would do. A file whose bytes are
    not UTF-8 is different: the [UnicodeDecodeError] is not taken by
    [_load_json] and, being a [ValueError], sends [load_config_or_exit] to
    the set-up, so that cancelling it exits with status 0 and completing it
    loads again. *)
Theorem settings_file_failures_at_startup
    (env : Env) (settings_of : jval -> result RawConfig) (file : string) (f : File)
    (app_run : World -> World * result (option string)) :
  let w := world_of env settings_of file f in
  let exits_without_setup := load_config_or_exit app_run w = (w, Exits 1) in
  let names_file :=
    exists message, load_in w = Raise (Exn RuntimeError message)
                    /\ Impact.occurs file message in
  (forall e, opened f = Raise e -> exn_class e = FileNotFoundError ->
             w_settings w = settings_of (JDict []))
  /\ (forall e, opened f = Raise e -> exn_class e <> FileNotFoundError ->
                Onboarding.is_os_error (exn_class e) = true ->
                names_file /\ exits_without_setup)
  /\ (forall bytes text message,
        opened f = Ok bytes -> decode f bytes = Text text ->
        json_loads f text = JSONDecodeError message ->
        names_file /\ exits_without_setup)
  /\ (forall bytes text message,
        opened f = Ok bytes -> decode f bytes = Text text ->
        json_loads f text = RecursionError message ->
        load_in w = Raise (Exn RuntimeError message) /\ exits_without_setup)
  /\ (forall bytes message,
        opened f = Ok bytes -> decode f bytes = UnicodeDecodeError message ->
        load_in w = Raise (Exn ValueError message)
        /\ forall w' answer,
             app_run w = (w', answer) ->
             load_config_or_exit app_run w
             = match answer with
               | Raise e => (w', Raises e)
               | Ok None => (w', Exits 0)
               | Ok (Some _) =>
                   (w', match load_in w' with
                        | Ok config => Returns config
                        | Raise e => Raises e
                        end)
               end).
Proof.
  intros w exits_without_setup names_file.
  subst w exits_without_setup names_file.
  split; [|split; [|split; [|split]]];
    [unfold world_of, load_config_or_exit, load_in, _load_json; cbn [w_settings w_env]..|].
  - intros e -> Hclass. by rewrite bool_decide_true.
  - intros e -> Hclass Hos. rewrite bool_decide_false, Hos by done. cbn.
    split; [|done]. eexists. split; [reflexivity|].
    by exists "Cannot read ", (": " +:+ exn_msg e).
  - intros bytes text message -> -> ->. cbn.
    split; [|done]. eexists. split; [reflexivity|].
    by exists "Invalid JSON in ", (": " +:+ message).
  - by intros bytes text message -> -> ->.
  - intros bytes message Hopen Hdecode.
    assert (load_in (world_of env settings_of file f) = Raise (Exn ValueError message))
      as Hload.
    { unfold world_of, load_in, _load_json. by rewrite Hopen, Hdecode. }
    split; [exact Hload|].
    intros w' answer Hrun. by apply (sent_to_the_setup _ _ _ _ _ Hload).
Qed.

(** A settings file saved in another encoding: the start-up runs the
    set-up, and cancelling it ends with status 0. *)
Example undecodable_settings_run_the_setup :
  let f := mkFile (Ok ("caf" +:+ String (ascii_of_N 233) "")) (fun _ => UnicodeDecodeError "invalid continuation byte")
                  (fun _ => Document (JDict [])) in
  let w := world_of sample_env (fun _ => Ok sample_raw) "config.json" f in
  load_config_or_exit (fun w => (w, Ok None)) w = (w, Exits 0).
Proof. reflexivity. Qed.

End SettingsFileFacts.
